(** * HarmoniQ-AI: the piano transcription pipeline of [piano_extraction.py]

    A shallow embedding of [PianoExtractor]: the pitch mapper
    ([_frequency_to_note]), the note segmenter, onset filter and duration
    quantizer ([extract_notes_from_piano_audio]), the MIDI encoder
    ([notes_to_midi]), the peak normalisation that ends
    [extract_piano_from_audio], and the control flow of the notation
    exporter ([midi_to_pdf_workflow]) and of the orchestrator
    ([process_audio_to_piano_sheet]); further the helpers [_find_peaks]
    and [_estimate_note_duration], the spectral mask of the separator,
    the page drawn by [_generate_simple_sheet_pdf], and the tool of
    [music_tools.py] that calls the orchestrator.

    Numbers.  Python floats are embedded as exact rationals [Q]; Python
    ints as [Z], with [//] and [%] as [Z.div] and [Z.modulo] (both floor
    towards minus infinity for a positive divisor, as in Python).  The two
    uses of [np.log2] are embedded through their exact algebraic meaning on
    the rationals, see [round_12_log2] and [within_50_cents].

    The rationals do not round, overflow or underflow.  A double computed
    by the code differs from the rational of the embedding by a relative
    error of about 1e-16 per operation, which decides a comparison the
    other way only for operands that close to each other; and the quotient
    of a frequency by 440.0 underflows to 0.0 below about 1e-321 Hz, where
    [round] raises on the infinite logarithm.  Statements that compare a
    product or a logarithm with a threshold therefore keep away from the
    threshold by [rounding_margin], or by a quarter of a semitone
    ([near_semitone]), and statements on arbitrary frequencies are for
    those of [float_range]. *)

From Stdlib Require Import ZArith QArith Qpower Qabs Qround Reals Qreals Lia Lra Lqa.
From Stdlib Require Import List Sorted Bool Ascii String.
From stdpp Require Import gmap strings list.

Local Open Scope Z_scope.

(** ** Comparisons on rationals, as booleans *)

Definition Qlt_bool (x y : Q) : bool := negb (Qle_bool y x).

(** ** Base-2 logarithms of rationals

    [le_pow2 k a b] says [2^k <= a / b] for a positive denominator [b],
    with the power of two moved to the side where its exponent is not
    negative. *)

Definition le_pow2 (k a b : Z) : Prop :=
  b * 2 ^ Z.max 0 k <= a * 2 ^ Z.max 0 (- k).

Definition le_pow2_bool (k a b : Z) : bool :=
  b * 2 ^ Z.max 0 k <=? a * 2 ^ Z.max 0 (- k).

(** [Qlog2_floor x] is [floor (log2 x)] for [x > 0]: the first guess
    [log2 a - log2 b] on the integer logarithms of numerator and
    denominator is the answer or one above it. *)
Definition Qlog2_floor (x : Q) : Z :=
  let a := Qnum x in
  let b := Z.pos (Qden x) in
  let k := Z.log2 a - Z.log2 b in
  if le_pow2_bool k a b then k else k - 1.

(** ** Where floats and rationals part

    The frequencies whose quotient by 440.0 is an ordinary double.  For a
    positive frequency below about 1.09e-321 Hz the quotient underflows
    to 0.0, [np.log2] returns -inf and [round] raises [OverflowError];
    no double lies above 1.8e308. *)
Definition float_range (x : Q) : Prop := (1e-300 <= x)%Q /\ (x <= 1e300)%Q.

(** A bound, with room to spare, on the relative error that the rounding
    of a literal and of one product or difference of doubles can add up
    to (one rounding is at most 2^-53, about 1.1e-16). *)
Definition rounding_margin : Q := 1e-15.

(** [12 * log2 x] lies within a quarter of the integer [s], well away
    from the half-integers where the rounding changes:
    [2^(4s-1) <= x^48 < 2^(4s+1)]. *)
Definition near_semitone (x : Q) (s : Z) : Prop :=
  le_pow2 (4 * s - 1) (Qnum (x ^ 48)) (Z.pos (Qden (x ^ 48))) /\
  ~ le_pow2 (4 * s + 1) (Qnum (x ^ 48)) (Z.pos (Qden (x ^ 48))).

(** ** The pitch mapper *)

Module PitchMapper.

Definition NOTE_NAMES : list string :=
  ["C"; "C#"; "D"; "D#"; "E"; "F"; "F#"; "G"; "G#"; "A"; "A#"; "B"].

Definition A4 : Q := 440.0.

(** [round (12 * np.log2 x)].  For a positive rational [x] the real number
    [12 * log2 x] is never half way between two integers ([2^(m/24)] is
    irrational for odd [m]), so rounding does not depend on the tie rule
    and the result is [floor ((floor (24 * log2 x) + 1) / 2)], where
    [24 * log2 x = log2 (x^24)].  The double that the code rounds carries
    the error of the division, of [np.log2] and of the product, so the
    code and the embedding can disagree by one when [12 * log2 x] is
    within that error of a half-integer. *)
Definition round_12_log2 (x : Q) : Z :=
  (Qlog2_floor (x ^ 24) + 1) / 2.

(** Lines 408-413 and again 427-430: the octave of a semitone offset from
    C4. *)
Definition octave_of_offset (semitones_from_C4 : Z) : Z :=
  if 0 <=? semitones_from_C4 then 4 + semitones_from_C4 / 12
  else 4 + (semitones_from_C4 - 11) / 12.

(** Lines 386-447.  The code returns a pair for every frequency of
    [float_range] and for every frequency that is not positive; for a
    positive frequency so small that [frequency / A4] is 0.0 it raises
    at line 395, which the embedding does not show. *)
Definition _frequency_to_note (frequency : Q) : option string * option Z :=
  if Qle_bool frequency 0 then (None, None) else
  let semitones_rounded := round_12_log2 (frequency / A4) in
  let note_index := (semitones_rounded + 9) mod 12 in
  let semitones_from_C4 := semitones_rounded + 9 in
  let octave := octave_of_offset semitones_from_C4 in
  (* subharmonic correction, lines 418-431 *)
  let '(note_index, octave, frequency) :=
    if (octave <? 1) && Qlt_bool frequency 65.0 then
      let doubled_freq := (frequency * 2.0)%Q in
      if Qle_bool 32.0 doubled_freq && Qle_bool doubled_freq 4186.0 then
        let semitones_rounded_doubled := round_12_log2 (doubled_freq / A4) in
        let semitones_from_C4_doubled := semitones_rounded_doubled + 9 in
        ((semitones_rounded_doubled + 9) mod 12,
         octave_of_offset semitones_from_C4_doubled,
         doubled_freq)
      else (note_index, octave, frequency)
    else (note_index, octave, frequency) in
  if (octave <? 0) || (8 <? octave) then (None, None) else
  if Qlt_bool frequency 30.0 && (1 <=? octave) then
    let octave := octave - 1 in
    if octave <? 0 then (None, None)
    else (NOTE_NAMES !! Z.to_nat note_index, Some octave)
  else (NOTE_NAMES !! Z.to_nat note_index, Some octave).

End PitchMapper.

Import PitchMapper.


(** ** Notes

    The tuples [(time, note_name, octave, frequency, duration)] that the
    extractor builds and the encoder reads. *)

Record note := Note {
  n_time : Q;
  n_name : string;
  n_octave : Z;
  n_freq : Q;
  n_duration : Q
}.

(** Python's two-argument [max] and [min] return their first argument
    unless the second is strictly greater (smaller). *)
Definition py_max (a b : Q) : Q := if Qlt_bool a b then b else a.
Definition py_min (a b : Q) : Q := if Qlt_bool b a then b else a.

(** [min(l, key=...)]: the first element whose key is smallest.  The
    default [d] stands for the [ValueError] on an empty list. *)
Definition keep_smaller {A} (key : A -> Q) (best y : A) : A :=
  if Qlt_bool (key y) (key best) then y else best.

Definition min_with_key {A} (key : A -> Q) (d : A) (l : list A) : A :=
  match l with
  | [] => d
  | x :: l' => fold_left (keep_smaller key) l' x
  end.

(** ** The duration quantizer (lines 359-373) *)

Module Quantizer.

Definition standard_durations : list Q :=
  [4.0; 2.0; 1.0; 0.5; 0.25; 0.125; 0.0625]%Q.

Definition nearest_standard (duration : Q) : Q :=
  min_with_key (fun x => Qabs (x - duration)) 4.0%Q standard_durations.

(** Lines 366-370.  The product [duration * 0.7] is exact here and
    rounded in the code; the two tests agree when the nearest standard
    value and the product differ by more than [rounding_margin]. *)
Definition quantize_duration (duration : Q) : Q :=
  let quantized_duration := nearest_standard duration in
  if Qlt_bool quantized_duration (duration * 0.7) then duration
  else quantized_duration.

Definition quantize_note (n : note) : note :=
  Note (n_time n) (n_name n) (n_octave n) (n_freq n)
       (quantize_duration (n_duration n)).

End Quantizer.

(** ** The note segmenter (lines 211-357)

    [librosa.pyin] is outside the repository; its result is an argument of
    the embedding, one pair [(f0, voiced_flag)] per analysis frame, with
    [None] for a NaN estimate. *)

Module Segmenter.

Import Quantizer.

Definition frames_to_time (frame : nat) (sr hop_length : positive) : Q :=
  (Z.of_nat frame * Z.pos hop_length) # sr.

Definition min_note_duration : Q := 0.1.
Definition min_onset_gap : Q := 0.05.

(** [abs(cents_diff) < 50] with [cents_diff = 1200 * np.log2(freq_ratio)]
    for a positive ratio and [1000] otherwise:
    [|1200 * log2 r| < 50] iff [1/2 < r^24 < 2]. *)
Definition within_50_cents (freq_ratio : Q) : bool :=
  if Qlt_bool 0 freq_ratio
  then Qlt_bool (1 # 2) (freq_ratio ^ 24) && Qlt_bool (freq_ratio ^ 24) 2
  else false.

(** Lines 242-267: the pitch a valid frame resolves to, with the octave
    correction; [None] where the loop body falls through or [continue]s
    without touching the state. *)
Definition resolve_frame_pitch (effective_fmin effective_fmax freq : Q)
  : option (string * Z * Q) :=
  match _frequency_to_note freq with
  | (Some note_name, Some octave) =>
      if String.eqb note_name "" then None else
      let corrected :=
        if octave <? 1 then
          let doubled_freq := (freq * 2.0)%Q in
          if Qle_bool effective_fmin doubled_freq
             && Qle_bool doubled_freq effective_fmax then
            match _frequency_to_note doubled_freq with
            | (Some note_name_doubled, Some octave_doubled) =>
                if negb (String.eqb note_name_doubled "")
                   && (1 <=? octave_doubled) && (octave_doubled <=? 7)
                then Some (note_name_doubled, octave_doubled, doubled_freq)
                else None
            | _ => None
            end
          else None
        else Some (note_name, octave, freq) in
      match corrected with
      | Some (note_name, octave, freq) =>
          if 7 <? octave then None else Some (note_name, octave, freq)
      | None => None
      end
  | _ => None
  end.

(** [current_note], [current_note_start_idx] and
    [current_note_start_time] are assigned together (lines 293-295) and
    cleared together (lines 304-306). *)
Record open_note := OpenNote {
  current_note : note;
  current_note_start_idx : nat;
  current_note_start_time : Q
}.

Record seg_state := SegState {
  notes : list note;
  current : option open_note
}.

(** Lines 284-290, 298-303 and 312-316: the held note is appended when it
    lasted long enough. *)
Definition close_note (notes : list note) (c : open_note) (time : Q) : list note :=
  let duration := (time - current_note_start_time c)%Q in
  if Qle_bool min_note_duration duration then
    let cn := current_note c in
    notes ++ [Note (n_time cn) (n_name cn) (n_octave cn) (n_freq cn) duration]
  else notes.

Definition is_continuation (c : open_note) (note_name : string) (octave : Z)
  (freq : Q) : bool :=
  let current_freq := n_freq (current_note c) in
  let freq_ratio := if Qlt_bool 0 current_freq then (freq / current_freq)%Q else 1.0%Q in
  within_50_cents freq_ratio
  && String.eqb (n_name (current_note c)) note_name
  && (n_octave (current_note c) =? octave).

(** One iteration of the loop of line 238. *)
Definition segment_step (effective_fmin effective_fmax : Q) (st : seg_state)
  (frame : nat * (Q * (option Q * bool))) : seg_state :=
  let '(i, (time, (f0_i, voiced))) := frame in
  let valid :=
    match f0_i with
    | Some freq =>
        if voiced && Qle_bool effective_fmin freq && Qle_bool freq effective_fmax
        then Some freq else None
    | None => None
    end in
  match valid with
  | Some freq =>
      match resolve_frame_pitch effective_fmin effective_fmax freq with
      | None => st
      | Some (note_name, octave, freq) =>
          let continues :=
            match current st with
            | Some c => is_continuation c note_name octave freq
            | None => false
            end in
          if continues then st else
          let notes' :=
            match current st with
            | Some c => close_note (notes st) c time
            | None => notes st
            end in
          SegState notes'
            (Some (OpenNote (Note time note_name octave freq 0.0) i time))
      end
  | None =>
      match current st with
      | Some c => SegState (close_note (notes st) c time) None
      | None => st
      end
  end.

(** Lines 308-316. *)
Definition close_last (times : list Q) (st : seg_state) : list note :=
  match current st with
  | Some c =>
      match times with
      | [] => notes st
      | t0 :: rest =>
          let final_time :=
            match rest with
            | t1 :: _ => (List.last times t0 + (t1 - t0))%Q
            | [] => List.last times t0
            end in
          close_note (notes st) c final_time
      end
  | None => notes st
  end.

(** [notes.sort(key=lambda x: x[0])]: a stable sort on the onset time. *)
Fixpoint insert_by_time (x : note) (l : list note) : list note :=
  match l with
  | [] => [x]
  | y :: l' =>
      if Qlt_bool (n_time x) (n_time y) then x :: y :: l'
      else y :: insert_by_time x l'
  end.

Definition sort_by_time (l : list note) : list note :=
  fold_left (fun acc x => insert_by_time x acc) l [].

(** Lines 326-357: one iteration of the onset filter.  After the first
    iteration [filtered_notes] is never empty, so [filtered_notes[-1]]
    does not fail. *)
Definition filter_step (filtered_notes : list note) (entry : nat * note) : list note :=
  let '(i, note) := entry in
  if (i =? 0)%nat then filtered_notes ++ [note] else
  match List.last (map Some filtered_notes) None with
  | None => filtered_notes
  | Some prev_note =>
      let time_gap := (n_time note - n_time prev_note)%Q in
      let is_same_note :=
        String.eqb (n_name prev_note) (n_name note)
        && (n_octave prev_note =? n_octave note) in
      if Qle_bool min_onset_gap time_gap || negb is_same_note then
        filtered_notes ++ [note]
      else if is_same_note && Qlt_bool time_gap min_onset_gap then
        let new_end_time := (n_time note + n_duration note)%Q in
        let new_duration := (new_end_time - n_time prev_note)%Q in
        removelast filtered_notes ++
          [Note (n_time prev_note) (n_name prev_note) (n_octave prev_note)
                (n_freq prev_note) new_duration]
      else filtered_notes
  end.

Definition enumerate {A} (l : list A) : list (nat * A) :=
  combine (seq 0 (length l)) l.

Definition filter_onsets (notes : list note) : list note :=
  fold_left filter_step (enumerate notes) [].

Definition extract_notes_from_piano_audio
  (pyin : list (option Q * bool)) (sr hop_length : positive) (fmin fmax : Q)
  : list note :=
  let effective_fmin := py_max fmin 60.0 in
  let effective_fmax := py_min fmax 2000.0 in
  let times := map (fun i => frames_to_time i sr hop_length) (seq 0 (length pyin)) in
  let st :=
    fold_left (segment_step effective_fmin effective_fmax)
      (enumerate (combine times pyin)) (SegState [] None) in
  let notes := close_last times st in
  let notes := sort_by_time notes in
  let filtered_notes := filter_onsets notes in
  map quantize_note filtered_notes.

End Segmenter.

(** ** The MIDI encoder (lines 507-557)

    The events handed to [midi.addNote]; track, channel and volume are the
    constants 0, 0 and 100. *)

Module MidiEncoder.

Record midi_event := MidiEvent {
  ev_pitch : Z;
  ev_time : Q;
  ev_duration : Q
}.

Definition note_to_midi : list (string * Z) :=
  [("C", 0); ("C#", 1); ("D", 2); ("D#", 3); ("E", 4); ("F", 5);
   ("F#", 6); ("G", 7); ("G#", 8); ("A", 9); ("A#", 10); ("B", 11)].

Fixpoint dict_get (d : list (string * Z)) (k : string) : option Z :=
  match d with
  | [] => None
  | (k', v) :: d' => if String.eqb k' k then Some v else dict_get d' k
  end.

(** One iteration of the loop of line 520: the events it adds, or [None]
    for the [KeyError] of [note_to_midi[note_name]]. *)
Definition note_events (tempo : Z) (n : note) : option (list midi_event) :=
  if n_octave n <? 1 then Some [] else
  if 7 <? n_octave n then Some [] else
  let time_beat := ((n_time n * inject_Z tempo) / 60.0)%Q in
  match dict_get note_to_midi (n_name n) with
  | None => None
  | Some offset =>
      let midi_note := (n_octave n + 1) * 12 + offset in
      let midi_note := Z.max 24 (Z.min 108 midi_note) in
      let duration_beat := ((n_duration n * inject_Z tempo) / 60.0)%Q in
      let duration_beat := py_max 0.125 (py_min duration_beat 16.0) in
      if Qle_bool 0 time_beat && Qlt_bool 0 duration_beat
      then Some [MidiEvent midi_note time_beat duration_beat]
      else Some []
  end.

(** The events of the loop of lines 520-557, in order; [None] when an
    iteration raised. *)
Fixpoint notes_to_midi_events (tempo : Z) (notes : list note)
  : option (list midi_event) :=
  match notes with
  | [] => Some []
  | n :: rest =>
      match note_events tempo n with
      | None => None
      | Some evs =>
          match notes_to_midi_events tempo rest with
          | None => None
          | Some evs' => Some (evs ++ evs')
          end
      end
  end.

(** Line 513: [midi.addTempo(track, 0, tempo)], before the loop.  midiutil
    stores the tempo as [int(60000000 / tempo)] microseconds per beat,
    which raises [ZeroDivisionError] when [tempo] is 0; [None] stands for
    that. *)
Definition addTempo (tempo : Z) : option Z :=
  if tempo =? 0 then None else Some (Z.quot 60000000 tempo).

(** What a call hands to the MIDI file before writing it (lines
    508-557): the tempo event, then the events of the loop. *)
Definition midi_file_events (tempo : Z) (notes : list note)
  : option (Z * list midi_event) :=
  match addTempo tempo with
  | None => None
  | Some microseconds_per_beat =>
      match notes_to_midi_events tempo notes with
      | None => None
      | Some events => Some (microseconds_per_beat, events)
      end
  end.

End MidiEncoder.

(** ** Peak normalisation (lines 182-184) *)

Module Separator.

Definition np_abs (y : list Q) : list Q := map Qabs y.

(** [np.max]; [None] for the [ValueError] on an empty array. *)
Definition np_max (y : list Q) : option Q :=
  match y with
  | [] => None
  | x :: y' => Some (fold_left py_max y' x)
  end.

Definition peak_normalize (y_filtered : list Q) : option (list Q) :=
  match np_max (np_abs y_filtered) with
  | None => None
  | Some peak =>
      if Qlt_bool 0 peak
      then Some (map (fun v => (v / peak)%Q) y_filtered)
      else Some y_filtered
  end.

End Separator.

(** ** Paths (POSIX flavour of [os.path]) *)

Module Path.

Local Open Scope string_scope.

(** [s] cut at its last ["/"]: the head with that separator, and the
    tail after it; [None] when [s] has no separator. *)
Fixpoint rsplit_sep (s : string) : option (string * string) :=
  match s with
  | EmptyString => None
  | String c s' =>
      match rsplit_sep s' with
      | Some (h, t) => Some (String c h, t)
      | None => if Ascii.eqb c "/"%char then Some ("/", s') else None
      end
  end.

Fixpoint all_slashes (s : string) : bool :=
  match s with
  | EmptyString => true
  | String c s' => Ascii.eqb c "/"%char && all_slashes s'
  end.

Fixpoint rstrip_slashes (s : string) : string :=
  match s with
  | EmptyString => EmptyString
  | String c s' =>
      match rstrip_slashes s' with
      | EmptyString => if Ascii.eqb c "/"%char then EmptyString else String c EmptyString
      | r => String c r
      end
  end.

Definition dirname (p : string) : string :=
  match rsplit_sep p with
  | None => ""
  | Some (head, _) => if all_slashes head then head else rstrip_slashes head
  end.

Definition basename (p : string) : string :=
  match rsplit_sep p with
  | None => p
  | Some (_, tail) => tail
  end.

(** [s] cut at its last ["."]: what is before it, and the extension with
    its dot. *)
Fixpoint rsplit_dot (s : string) : option (string * string) :=
  match s with
  | EmptyString => None
  | String c s' =>
      match rsplit_dot s' with
      | Some (h, t) => Some (String c h, t)
      | None => if Ascii.eqb c "."%char then Some ("", s) else None
      end
  end.

Fixpoint all_dots (s : string) : bool :=
  match s with
  | EmptyString => true
  | String c s' => Ascii.eqb c "."%char && all_dots s'
  end.

(** [os.path.splitext] on a name without separator: leading dots do not
    start an extension. *)
Definition splitext (name : string) : string * string :=
  match rsplit_dot name with
  | Some (root, ext) => if all_dots root then (name, "") else (root, ext)
  | None => (name, "")
  end.

Definition join (a b : string) : string :=
  match b with
  | String "/"%char _ => b
  | _ =>
      match rsplit_sep a with
      | Some (_, "") => a ++ b
      | _ => if String.eqb a "" then b else a ++ "/" ++ b
      end
  end.

End Path.

(** ** The world of the exporter: files, and calls that can raise *)

Module Pipeline.

Import MidiEncoder.

Local Open Scope string_scope.

(** Files by path, with their size; [undeletable] holds the paths whose
    removal the operating system refuses.  A file is known by the string
    the code passes: two spellings of one path, or two links to one
    file, are two keys. *)
Record world := World {
  files : gmap string N;
  undeletable : gset string
}.

(** The exceptions of the module; all of them are caught by
    [except Exception]. *)
Inductive exn :=
| ImportError (msg : string)
| FileNotFoundError (msg : string)
| OSError (msg : string)
| TimeoutExpired
| ValueError (msg : string)
| Exception (msg : string).

Inductive result (A : Type) :=
| Ok (a : A)
| Raise (e : exn).
Arguments Ok {A} a.
Arguments Raise {A} e.

(** Computations that read and change the world and return or raise. *)
Definition M (A : Type) : Type := world -> world * result A.

Definition ret {A} (a : A) : M A := fun w => (w, Ok a).
Definition raise {A} (e : exn) : M A := fun w => (w, Raise e).
Definition bind {A B} (m : M A) (k : A -> M B) : M B :=
  fun w => match m w with
           | (w', Ok a) => k a w'
           | (w', Raise e) => (w', Raise e)
           end.
(** [try: m except Exception as e: handler e] *)
Definition try_except {A} (m : M A) (handler : exn -> M A) : M A :=
  fun w => match m w with
           | (w', Ok a) => (w', Ok a)
           | (w', Raise e) => handler e w'
           end.

Notation "x <- m ;; k" := (bind m (fun x => k))
  (at level 100, m at next level, right associativity).
Notation "m ;;; k" := (bind m (fun _ => k))
  (at level 100, right associativity).

Definition os_path_exists (p : string) : M bool :=
  fun w => (w, Ok (bool_decide (is_Some (files w !! p)))).

Definition os_path_getsize (p : string) : M N :=
  fun w => match files w !! p with
           | Some size => (w, Ok size)
           | None => (w, Raise (FileNotFoundError p))
           end.

Definition os_remove (p : string) : M unit :=
  fun w => match files w !! p with
           | None => (w, Raise (FileNotFoundError p))
           | Some _ =>
               if bool_decide (p ∈ undeletable w) then (w, Raise (OSError p))
               else (World (delete p (files w)) (undeletable w), Ok tt)
           end.

(** What lies outside the repository: the availability flags set at
    import time, and the calls into librosa, soundfile, midiutil,
    music21, MuseScore, reportlab and pretty_midi.  Each call may change
    the files and may raise. *)
Record externals := Externals {
  score : Type;
  MIDIUTIL_AVAILABLE : bool;
  PRETTY_MIDI_AVAILABLE : bool;
  MUSIC21_AVAILABLE : bool;
  REPORTLAB_AVAILABLE : bool;
  os_makedirs : string -> M unit;
  (* lines 95-180: load, separate, filter, smooth *)
  librosa_separate : string -> option Q -> M (list Q * positive);
  sf_write : string -> list Q -> positive -> M unit;
  librosa_pyin : list Q -> positive -> list (option Q * bool);
  (* lines 559-560: open the file and write the MIDI data *)
  midi_write_file : string -> Z -> list midi_event -> M unit;
  (* lines 585-597: synthesis, normalisation and writing of the preview *)
  fluidsynth_render : string -> string -> positive -> M unit;
  (* lines 822-856: parse, wrap in a Score, metadata, tempo mark, quantize *)
  music21_prepare : string -> Z -> M score;
  music21_write_musicxml : score -> string -> M unit;
  subprocess_run : list string -> M string;
  (* lines 742-789: build the stream and write musicxml.pdf *)
  music21_render_pdf : list note -> string -> string -> M unit;
  (* lines 887-942: draw the page with reportlab *)
  reportlab_draw : list note -> string -> string -> M unit
}.

Record manifest := Manifest {
  piano_audio : string;
  midi : string;
  pdf : string;
  synthesized_audio : option string;
  notes_count : nat
}.

Section Exporter.

Context (ex : externals).

Definition extract_piano_from_audio (audio_path : string)
  (max_duration : option Q) : M (list Q * positive) :=
  r <- librosa_separate ex audio_path max_duration ;;
  let '(y_filtered, sr) := r in
  match Separator.peak_normalize y_filtered with
  | Some y => ret (y, sr)
  | None => raise (ValueError "zero-size array to reduction operation maximum")
  end.

Definition notes_to_midi (notes : list note) (output_path : string)
  (tempo : Z) : M bool :=
  if negb (MIDIUTIL_AVAILABLE ex) then raise (ImportError "midiutil is required")
  else
    try_except
      (match addTempo tempo with
       | None => raise (Exception "ZeroDivisionError")
       | Some _ =>
           match notes_to_midi_events tempo notes with
           | None => raise (Exception "KeyError")
           | Some events =>
               midi_write_file ex output_path tempo events ;;; ret true
           end
       end)
      (fun e => raise (Exception "Error creating MIDI file")).

Definition midi_to_audio (midi_path output_audio_path : string)
  (sr : positive) : M bool :=
  if negb (PRETTY_MIDI_AVAILABLE ex) then raise (ImportError "pretty_midi is required")
  else
    try_except
      (fluidsynth_render ex midi_path output_audio_path sr ;;; ret true)
      (fun e => raise (Exception "Error synthesizing MIDI to audio")).

Definition default_musescore_path : string :=
  "C:\Program Files\MuseScore 4\bin\MuseScore4.exe".

Definition musicxml_to_pdf (musicxml_path pdf_path : string)
  (musescore_path : option string) : M bool :=
  let musescore_path :=
    match musescore_path with Some p => p | None => default_musescore_path end in
  found <- os_path_exists musescore_path ;;
  if negb found then raise (FileNotFoundError "MuseScore not found") else
  found <- os_path_exists musicxml_path ;;
  if negb found then raise (FileNotFoundError "MusicXML file not found") else
  try_except
    (stderr <- subprocess_run ex [musescore_path; musicxml_path; "-o"; pdf_path; "-f"] ;;
     created <- os_path_exists pdf_path ;;
     if created then
       size <- os_path_getsize pdf_path ;;
       if (0 <? size)%N then ret true
       else raise (Exception "MuseScore conversion failed")
     else raise (Exception "MuseScore conversion failed"))
    (fun e =>
       match e with
       | TimeoutExpired => raise (Exception "MuseScore conversion timed out after 60 seconds")
       | _ => raise (Exception "Error converting MusicXML to PDF")
       end).

(** Lines 859-860. *)
Definition musicxml_path_for (pdf_path : string) : string :=
  let temp_dir := Path.dirname pdf_path in
  Path.join temp_dir (fst (Path.splitext (Path.basename pdf_path)) ++ ".musicxml").

(** Lines 869-873: the removal, whose own failure is swallowed. *)
Definition cleanup_musicxml (musicxml_path : string) : M unit :=
  try_except
    (found <- os_path_exists musicxml_path ;;
     if found then os_remove musicxml_path else ret tt)
    (fun _ => ret tt).

Definition midi_to_pdf_workflow (midi_path pdf_path : string)
  (musescore_path : option string) (tempo : Z) : M bool :=
  if negb (MUSIC21_AVAILABLE ex) then raise (ImportError "music21 is required")
  else
    try_except
      (midi_stream <- music21_prepare ex midi_path tempo ;;
       let musicxml_path := musicxml_path_for pdf_path in
       music21_write_musicxml ex midi_stream musicxml_path ;;;
       musicxml_to_pdf musicxml_path pdf_path musescore_path ;;;
       cleanup_musicxml musicxml_path ;;;
       ret true)
      (fun e => raise (Exception "Error in MIDI to PDF workflow")).

Definition _generate_simple_sheet_pdf (notes : list note)
  (output_path title : string) : M bool :=
  if negb (REPORTLAB_AVAILABLE ex) then raise (ImportError "reportlab is required")
  else
    try_except
      (reportlab_draw ex notes output_path title ;;; ret true)
      (fun e => raise (Exception "Error creating simple PDF")).

Definition generate_sheet_music_pdf (notes : list note)
  (output_path title : string) : M bool :=
  if negb (MUSIC21_AVAILABLE ex) then _generate_simple_sheet_pdf notes output_path title
  else
    try_except
      (music21_render_pdf ex notes output_path title ;;; ret true)
      (fun e => _generate_simple_sheet_pdf notes output_path title).

(** Lines 1002-1013: the three renderers, tried in turn. *)
Definition sheet_music_stage (notes : list note) (midi_path pdf_path title : string)
  (tempo : Z) : M bool :=
  try_except
    (midi_to_pdf_workflow midi_path pdf_path None tempo)
    (fun e =>
       try_except
         (generate_sheet_music_pdf notes pdf_path title)
         (fun e2 => _generate_simple_sheet_pdf notes pdf_path title)).

(** Lines 1016-1024: the preview, whose failure is swallowed. *)
Definition synthesis_stage (midi_path synthesized_audio_path : string)
  (sr : positive) : M (option string) :=
  try_except
    (midi_to_audio midi_path synthesized_audio_path sr ;;;
     ret (Some synthesized_audio_path))
    (fun e => ret None).

(** The orchestrator, called without a progress callback. *)
Definition process_audio_to_piano_sheet (audio_path output_dir : string)
  (tempo : Z) (max_duration : option Q) : M manifest :=
  os_makedirs ex output_dir ;;;
  let base_name := fst (Path.splitext (Path.basename audio_path)) in
  r <- extract_piano_from_audio audio_path max_duration ;;
  let '(piano_audio, sr) := r in
  let piano_audio_path := Path.join output_dir (base_name ++ "_piano.wav") in
  sf_write ex piano_audio_path piano_audio sr ;;;
  let notes :=
    Segmenter.extract_notes_from_piano_audio
      (librosa_pyin ex piano_audio sr) sr 1024 27.5 4186.0 in
  match notes with
  | [] => raise (Exception "No notes extracted from audio. Please check the audio file.")
  | _ :: _ =>
      let midi_path := Path.join output_dir (base_name ++ "_piano.mid") in
      notes_to_midi notes midi_path tempo ;;;
      let pdf_path := Path.join output_dir (base_name ++ "_sheet_music.pdf") in
      sheet_music_stage notes midi_path pdf_path
        ("Piano Sheet Music - " ++ base_name) tempo ;;;
      synthesized_audio_path <-
        synthesis_stage midi_path
          (Path.join output_dir (base_name ++ "_synthesized.wav")) sr ;;
      ret (Manifest piano_audio_path midi_path pdf_path synthesized_audio_path
             (length notes))
  end.

End Exporter.

End Pipeline.

(** ** Predicates used in the statements *)

(** The keyboard range of the extractor. *)
Definition playable (n : note) : Prop := 1 <= n_octave n <= 7.

(** The invariant of the segmentation loop: the notes appended so far and
    the held note are all in the keyboard range. *)
Definition seg_inv (st : Segmenter.seg_state) : Prop :=
  Forall playable (Segmenter.notes st) /\
  forall c, Segmenter.current st = Some c -> playable (Segmenter.current_note c).

(** Clamping into [[lo, hi]], in the words of the encoder's contract. *)
Definition clampZ (lo hi x : Z) : Z :=
  if x <=? lo then lo else if hi <? x then hi else x.

Definition clampQ (lo hi x : Q) : Q :=
  if Qle_bool x lo then lo else if Qlt_bool hi x then hi else x.

(** Seconds to beats at [tempo] beats per minute. *)
Definition beats (tempo : Z) (seconds : Q) : Q :=
  ((seconds * inject_Z tempo) / 60.0)%Q.

(** A tempo that is not 0 and that the products of lines 535 and 549 can
    convert to a double. *)
Definition tempo_in_range (tempo : Z) : Prop :=
  float_range (inject_Z (Z.abs tempo)).

(** A number whose sign and size survive the product and the quotient of
    line 535 and the conversion to ticks of [addNote]: zero, or of a
    magnitude between 1e-300 and 1e300. *)
Definition float_sized (x : Q) : Prop :=
  (x == 0)%Q \/ float_range (Qabs x).

(** Pitch streams for the examples: [n] voiced frames at one frequency,
    [n] unvoiced frames. *)
Definition voiced_frames (freq : Q) (n : nat) : list (option Q * bool) :=
  repeat (Some freq, true) n.

Definition unvoiced_frames (n : nat) : list (option Q * bool) :=
  repeat (None, false) n.

(** An installation for the examples: MuseScore is installed but its run
    times out, music21 cannot write a PDF, reportlab and pretty_midi are
    missing; every other call succeeds and writes its file. *)
Definition write_file (p : string) : Pipeline.M unit :=
  fun w => (Pipeline.World (<[p := 1%N]> (Pipeline.files w)) (Pipeline.undeletable w),
            Pipeline.Ok tt).

Definition studio : Pipeline.externals := {|
  Pipeline.score := unit;
  Pipeline.MIDIUTIL_AVAILABLE := true;
  Pipeline.PRETTY_MIDI_AVAILABLE := false;
  Pipeline.MUSIC21_AVAILABLE := true;
  Pipeline.REPORTLAB_AVAILABLE := false;
  Pipeline.os_makedirs := fun _ => Pipeline.ret tt;
  Pipeline.librosa_separate := fun _ _ => Pipeline.ret ([0.5; -1.0]%Q, 16000%positive);
  Pipeline.sf_write := fun p _ _ => write_file p;
  Pipeline.librosa_pyin := fun _ _ => voiced_frames 261.63 4 ++ unvoiced_frames 1;
  Pipeline.midi_write_file := fun p _ _ => write_file p;
  Pipeline.fluidsynth_render := fun _ _ _ => Pipeline.raise (Pipeline.ImportError "fluidsynth");
  Pipeline.music21_prepare := fun _ _ => Pipeline.ret tt;
  Pipeline.music21_write_musicxml := fun _ p => write_file p;
  Pipeline.subprocess_run := fun _ => Pipeline.raise Pipeline.TimeoutExpired;
  Pipeline.music21_render_pdf := fun _ _ _ => Pipeline.raise (Pipeline.Exception "musicxml.pdf");
  Pipeline.reportlab_draw := fun _ _ _ => Pipeline.raise (Pipeline.Exception "canvas")
|}.

Definition studio_world : Pipeline.world :=
  Pipeline.World {[ Pipeline.default_musescore_path := 1%N ]} ∅.


(** An installation where MuseScore runs and writes the PDF. *)
Definition studio_with_musescore : Pipeline.externals := {|
  Pipeline.score := unit;
  Pipeline.MIDIUTIL_AVAILABLE := true;
  Pipeline.PRETTY_MIDI_AVAILABLE := false;
  Pipeline.MUSIC21_AVAILABLE := true;
  Pipeline.REPORTLAB_AVAILABLE := false;
  Pipeline.os_makedirs := fun _ => Pipeline.ret tt;
  Pipeline.librosa_separate := fun _ _ => Pipeline.ret ([0.5; -1.0]%Q, 16000%positive);
  Pipeline.sf_write := fun p _ _ => write_file p;
  Pipeline.librosa_pyin := fun _ _ => voiced_frames 261.63 4 ++ unvoiced_frames 1;
  Pipeline.midi_write_file := fun p _ _ => write_file p;
  Pipeline.fluidsynth_render := fun _ _ _ => Pipeline.raise (Pipeline.ImportError "fluidsynth");
  Pipeline.music21_prepare := fun _ _ => Pipeline.ret tt;
  Pipeline.music21_write_musicxml := fun _ p => write_file p;
  Pipeline.subprocess_run := fun cmd =>
    Pipeline.bind (write_file (nth 3 cmd ""%string)) (fun _ => Pipeline.ret ""%string);
  Pipeline.music21_render_pdf := fun _ _ _ => Pipeline.raise (Pipeline.Exception "musicxml.pdf");
  Pipeline.reportlab_draw := fun _ _ _ => Pipeline.raise (Pipeline.Exception "canvas")
|}.

(** Onsets at least [min_note_duration] apart. *)
Definition onset_spaced (a b : note) : Prop :=
  (n_time a + Segmenter.min_note_duration <= n_time b)%Q.

(** A retained note lasts at least [min_note_duration] and ends by [bound]. *)
Definition ends_by (bound : Q) (a : note) : Prop :=
  (Segmenter.min_note_duration <= n_duration a)%Q /\
  (n_time a + n_duration a <= bound)%Q.

(** The timing invariant of the segmentation loop at frame time [T]: the
    retained notes have spaced onsets and end before the held note
    starts (before [T] when no note is held), and the held note started
    by [T]. *)
Definition seg_timing (st : Segmenter.seg_state) (T : Q) : Prop :=
  StronglySorted onset_spaced (Segmenter.notes st) /\
  match Segmenter.current st with
  | Some c =>
      Forall (ends_by (Segmenter.current_note_start_time c)) (Segmenter.notes st) /\
      n_time (Segmenter.current_note c) = Segmenter.current_note_start_time c /\
      (Segmenter.current_note_start_time c <= T)%Q
  | None => Forall (ends_by T) (Segmenter.notes st)
  end.

(** Frame times that do not decrease, starting from [T]. *)
Fixpoint times_from (T : Q) (frames : list (nat * (Q * (option Q * bool)))) : Prop :=
  match frames with
  | [] => True
  | (_, (t, _)) :: rest => (T <= t)%Q /\ times_from t rest
  end.

Definition last_time (T : Q) (frames : list (nat * (Q * (option Q * bool)))) : Q :=
  List.last (map (fun fr => fst (snd fr)) frames) T.

(** Times that do not decrease, starting from [T]. *)
Fixpoint nondecreasing_from (T : Q) (times : list Q) : Prop :=
  match times with
  | [] => True
  | t :: rest => (T <= t)%Q /\ nondecreasing_from t rest
  end.

(** The notes of the segmentation loop, before the sort, the onset filter
    and the quantizer (lines 227-316). *)
Definition segmented_notes (pyin : list (option Q * bool))
  (sr hop_length : positive) (fmin fmax : Q) : list note :=
  let times :=
    map (fun i => Segmenter.frames_to_time i sr hop_length) (seq 0 (length pyin)) in
  Segmenter.close_last times
    (fold_left (Segmenter.segment_step (py_max fmin 60.0) (py_min fmax 2000.0))
       (Segmenter.enumerate (combine times pyin)) (Segmenter.SegState [] None)).

(** ** The pitch before the range checks

    Lines 394-431 of [_frequency_to_note]: the note index, the octave and
    the frequency as they stand when the checks of line 435 begin. *)
Definition corrected_pitch (frequency : Q) : Z * Z * Q :=
  let semitones_rounded := round_12_log2 (frequency / A4) in
  let note_index := (semitones_rounded + 9) mod 12 in
  let semitones_from_C4 := semitones_rounded + 9 in
  let octave := octave_of_offset semitones_from_C4 in
  if (octave <? 1) && Qlt_bool frequency 65.0 then
    let doubled_freq := (frequency * 2.0)%Q in
    if Qle_bool 32.0 doubled_freq && Qle_bool doubled_freq 4186.0 then
      let semitones_rounded_doubled := round_12_log2 (doubled_freq / A4) in
      let semitones_from_C4_doubled := semitones_rounded_doubled + 9 in
      ((semitones_rounded_doubled + 9) mod 12,
       octave_of_offset semitones_from_C4_doubled,
       doubled_freq)
    else (note_index, octave, frequency)
  else (note_index, octave, frequency).

(** ** More predicates on the segmentation loop *)

(** [P] holds of what a note was started with: its onset, name, octave
    and frequency (line 293); the duration is set when the note is
    closed. *)
Definition started (P : Q -> string -> Z -> Q -> Prop) (n : note) : Prop :=
  P (n_time n) (n_name n) (n_octave n) (n_freq n).

Definition seg_started (P : Q -> string -> Z -> Q -> Prop)
  (st : Segmenter.seg_state) : Prop :=
  Forall (started P) (Segmenter.notes st) /\
  forall c, Segmenter.current st = Some c -> started P (Segmenter.current_note c).

(** Line 241: the frame has a frequency estimate, is voiced and lies
    within the effective bounds. *)
Definition valid_frame (effective_fmin effective_fmax : Q)
  (fr : option Q * bool) : bool :=
  match fst fr with
  | Some freq => snd fr && Qle_bool effective_fmin freq && Qle_bool freq effective_fmax
  | None => false
  end.

(** The frames of [enumerate(zip(times, f0))] from frame number [k] on:
    number, time and pitch estimate. *)
Definition frames_of (sr hop_length : positive) (pyin : list (option Q * bool))
  (k : nat) : list (nat * (Q * (option Q * bool))) :=
  combine (seq k (length pyin))
    (combine (map (fun i => Segmenter.frames_to_time i sr hop_length)
                (seq k (length pyin))) pyin).

(** ** The helpers [_find_peaks] and [_estimate_note_duration]

    Arrays are lists; an entry of [f0_array] is [None] for NaN.  Indices
    are frame numbers, never negative. *)

(** Line 487, for an index whose two neighbours exist. *)
Definition is_peak (array : list Q) (threshold : Q) (i : nat) : bool :=
  match array !! i, array !! (i - 1)%nat, array !! (i + 1)%nat with
  | Some x, Some before, Some after =>
      Qlt_bool threshold x && Qlt_bool before x && Qlt_bool after x
  | _, _, _ => false
  end.

(** Lines 485-489: [range(1, len(array) - 1)] is empty for fewer than
    three entries. *)
Definition _find_peaks (array : list Q) (threshold : Q) : list nat :=
  List.filter (is_peak array threshold) (seq 1 (length array - 2)).

(** The loop of lines 462-468: frames are counted until a NaN or a
    frequency out of tolerance. *)
Fixpoint count_stable (start_freq tolerance : Q) (rest : list (option Q))
  (duration_frames : nat) : nat :=
  match rest with
  | [] => duration_frames
  | None :: _ => duration_frames
  | Some freq :: rest' =>
      if Qle_bool (Qabs (freq - start_freq)) tolerance
      then count_stable start_freq tolerance rest' (S duration_frames)
      else duration_frames
  end.

(** Lines 452-471; the argument [times] is not used by the code.  The
    tolerance [start_freq * 0.05] and the differences are exact here and
    rounded in the code. *)
Definition _estimate_note_duration (f0_array : list (option Q)) (start_idx : nat)
  (hop_length sr : positive) : Q :=
  if Z.of_nat (length f0_array) - 1 <=? Z.of_nat start_idx then 0.5 else
  match f0_array !! start_idx with
  | Some (Some start_freq) =>
      let duration_frames := 1%nat in
      let tolerance := (start_freq * 0.05)%Q in
      let duration_frames :=
        count_stable start_freq tolerance (drop (S start_idx) f0_array) duration_frames in
      let duration_seconds := Segmenter.frames_to_time duration_frames sr hop_length in
      py_max 0.25 (py_min duration_seconds 4.0)
  | _ => 0.5
  end.

(** ** The spectral mask of [extract_piano_from_audio] (lines 128-154)

    The factor by which the row of a frequency bin is multiplied; 1 for a
    row that is left as it is. *)
Definition vocal_fundamental_min : Q := 80.0.
Definition vocal_fundamental_max : Q := 300.0.

Definition bin_gain (fmin fmax freq : Q) : Q :=
  let piano_mask := Qle_bool fmin freq && Qle_bool freq fmax in
  let vocal_mask :=
    negb (Qle_bool vocal_fundamental_min freq && Qle_bool freq vocal_fundamental_max) in
  let high_freq_mask := Qle_bool freq fmax in
  let combined_mask := piano_mask && vocal_mask && high_freq_mask in
  if negb combined_mask then 0.1
  else if Qle_bool vocal_fundamental_min freq && Qle_bool freq vocal_fundamental_max
       then 0.05
       else 1.

(** An installation whose pitch tracker finds no voiced frame. *)
Definition studio_silent : Pipeline.externals := {|
  Pipeline.score := unit;
  Pipeline.MIDIUTIL_AVAILABLE := true;
  Pipeline.PRETTY_MIDI_AVAILABLE := false;
  Pipeline.MUSIC21_AVAILABLE := true;
  Pipeline.REPORTLAB_AVAILABLE := true;
  Pipeline.os_makedirs := fun _ => Pipeline.ret tt;
  Pipeline.librosa_separate := fun _ _ => Pipeline.ret ([0.0; 0.0]%Q, 16000%positive);
  Pipeline.sf_write := fun p _ _ => write_file p;
  Pipeline.librosa_pyin := fun _ _ => unvoiced_frames 5;
  Pipeline.midi_write_file := fun p _ _ => write_file p;
  Pipeline.fluidsynth_render := fun _ _ _ => Pipeline.raise (Pipeline.ImportError "fluidsynth");
  Pipeline.music21_prepare := fun _ _ => Pipeline.ret tt;
  Pipeline.music21_write_musicxml := fun _ p => write_file p;
  Pipeline.subprocess_run := fun _ => Pipeline.raise Pipeline.TimeoutExpired;
  Pipeline.music21_render_pdf := fun _ _ _ => Pipeline.raise (Pipeline.Exception "musicxml.pdf");
  Pipeline.reportlab_draw := fun _ p _ => write_file p
|}.

(** ** The tool [extract_piano_from_audio] of [music_tools.py]
    (lines 347-396)

    The caller of the orchestrator.  Its answer is a JSON string: the
    manifest, or an object with the key ["error"]. *)

Module MusicTools.

Import Pipeline.

Local Open Scope string_scope.

Inductive tool_reply :=
| ToolResults (results : manifest)
| ToolError (error : string).

Section Tool.

(** [piano_extractor_ready] says that the module-level [_piano_extractor]
    was built (lines 108-112); [tempfile_mkdtemp] is the call of line
    386. *)
Context (ex : externals) (piano_extractor_ready : bool)
  (tempfile_mkdtemp : string -> M string).

Definition extract_piano_from_audio (audio_path : string) (tempo : Z)
  (max_duration : option Q) : M tool_reply :=
  if negb piano_extractor_ready then
    ret (ToolError "Piano extractor not initialized. Please install librosa and soundfile.")
  else
    found <- os_path_exists audio_path ;;
    if negb found then ret (ToolError "Audio file not found")
    else
      try_except
        (output_dir <- tempfile_mkdtemp "piano_extraction_" ;;
         results <- process_audio_to_piano_sheet ex audio_path output_dir tempo max_duration ;;
         ret (ToolResults results))
        (fun e => ret (ToolError "Error extracting piano")).

End Tool.

End MusicTools.

(** ** The page drawn by [_generate_simple_sheet_pdf] (lines 887-942)

    The calls made on the reportlab canvas, in order, when none of them
    raises.  The text of a note line is kept as its three parts. *)

Module SimpleSheet.

Inductive text :=
| Str (s : string)
(* f"{note_name}{octave} ({duration:.2f}s)" *)
| NoteText (note_name : string) (octave : Z) (duration : Q).

Inductive canvas_op :=
| setFont (psfontname : string) (size : Z)
| drawString (x y : Q) (t : text)
| line (x1 y1 x2 y2 : Q)
| showPage
| save.

(** [reportlab.lib.units.inch] and [reportlab.lib.pagesizes.letter]. *)
Definition inch : Q := 72.0.
Definition letter : Q * Q := (612.0%Q, 792.0%Q).

Definition width : Q := fst letter.
Definition height : Q := snd letter.
Definition margin : Q := 0.75 * inch.

(** [int(time // 2.0)] *)
Definition measure_of (time : Q) : Z := Qfloor (time / 2.0).

(** [measures[measure_num].append(...)] on a [defaultdict(list)]; the
    keys stay in the order of their first use. *)
Fixpoint dict_append (measure_num : Z) (n : note) (measures : list (Z * list note))
  : list (Z * list note) :=
  match measures with
  | [] => [(measure_num, [n])]
  | (k, measure_notes) :: rest =>
      if k =? measure_num then (k, measure_notes ++ [n]) :: rest
      else (k, measure_notes) :: dict_append measure_num n rest
  end.

Definition group_measures (notes : list note) : list (Z * list note) :=
  fold_left (fun measures n => dict_append (measure_of (n_time n)) n measures) notes [].

(** [measures[measure_num]] *)
Fixpoint dict_lookup (measure_num : Z) (measures : list (Z * list note)) : list note :=
  match measures with
  | [] => []
  | (k, measure_notes) :: rest =>
      if k =? measure_num then measure_notes else dict_lookup measure_num rest
  end.

(** [sorted(measures.keys())] *)
Fixpoint insert_key (k : Z) (keys : list Z) : list Z :=
  match keys with
  | [] => [k]
  | k' :: rest => if k <? k' then k :: keys else k' :: insert_key k rest
  end.

Definition sorted_keys (measures : list (Z * list note)) : list Z :=
  fold_left (fun acc k => insert_key k acc) (map fst measures) [].

(** Lines 936-939: one note line. *)
Definition draw_note (x : Q) (st : Q * list canvas_op) (n : note) : Q * list canvas_op :=
  let '(y, ops) := st in
  let note_text := NoteText (n_name n) (n_octave n) (n_duration n) in
  ((y - 0.15 * inch)%Q, ops ++ [drawString x y note_text]).

(** Lines 924-939: one measure, after a page break when the pen is below
    the bottom margin. *)
Definition draw_measure (title : string) (measures : list (Z * list note))
  (st : Q * list canvas_op) (measure_num : Z) : Q * list canvas_op :=
  let '(y, ops) := st in
  let '(y, ops) :=
    if Qlt_bool y margin then
      let y := (height - margin)%Q in
      ((y - 0.3 * inch)%Q,
       ops ++ [showPage; setFont "Helvetica-Bold" 20; drawString margin y (Str title);
               setFont "Helvetica" 9])
    else (y, ops) in
  let measure_notes := dict_lookup measure_num measures in
  let x := (margin + inject_Z (measure_num mod 4 * 2) * inch)%Q in
  fold_left (draw_note x) measure_notes (y, ops).

Definition draw_simple_sheet (notes : list note) (title : string) : list canvas_op :=
  let y := (height - margin)%Q in
  let ops := [setFont "Helvetica-Bold" 20; drawString margin y (Str title)] in
  let y := (y - 0.5 * inch)%Q in
  let ops := ops ++ [setFont "Helvetica" 10;
                     drawString margin y (Str "Piano Notes Extracted from Audio")] in
  let y := (y - 0.4 * inch)%Q in
  let measures := group_measures notes in
  let staff_y := y in
  let staff_height := (2 * inch)%Q in
  let line_spacing := (0.2 * inch)%Q in
  let ops := ops ++ map (fun i : Z =>
                           let line_y := (staff_y - inject_Z i * line_spacing)%Q in
                           line margin line_y (width - margin) line_y)
                        [0; 1; 2; 3; 4] in
  let y := (staff_y - staff_height - 0.3 * inch)%Q in
  let ops := ops ++ [setFont "Helvetica" 9] in
  let '(y, ops) := fold_left (draw_measure title measures) (sorted_keys measures) (y, ops) in
  ops ++ [showPage; save].

(** The note lines among the canvas calls: position and parts. *)
Definition note_lines (ops : list canvas_op) : list (Q * Q * (string * Z * Q)) :=
  flat_map (fun op =>
              match op with
              | drawString x y (NoteText note_name octave duration) =>
                  [(x, y, (note_name, octave, duration))]
              | _ => []
              end) ops.

End SimpleSheet.
(** * Proofs *)

(** ** Boolean comparisons on rationals *)

Lemma Qlt_bool_iff x y : Qlt_bool x y = true <-> (x < y)%Q.
Proof.
  unfold Qlt_bool. rewrite negb_true_iff. split.
  - intros H. apply Qnot_le_lt. intros Hle.
    apply Qle_bool_iff in Hle. congruence.
  - intros H. destruct (Qle_bool y x) eqn:E; [|reflexivity].
    apply Qle_bool_iff in E. exfalso. exact (Qlt_not_le _ _ H E).
Qed.

Lemma Qlt_bool_false_iff x y : Qlt_bool x y = false <-> (y <= x)%Q.
Proof.
  unfold Qlt_bool. rewrite negb_false_iff. apply Qle_bool_iff.
Qed.

Lemma Qle_bool_false_iff x y : Qle_bool x y = false <-> (y < x)%Q.
Proof.
  rewrite <- Qlt_bool_iff. unfold Qlt_bool.
  destruct (Qle_bool x y); simpl; intuition congruence.
Qed.

Example a4 : _frequency_to_note 440.0 = (Some "A", Some 4).
Proof. vm_compute. reflexivity. Qed.

Example c4 : _frequency_to_note 261.63 = (Some "C", Some 4).
Proof. vm_compute. reflexivity. Qed.

(** ** Facts on [le_pow2] and [Qlog2_floor] *)

Lemma le_pow2_bool_iff k a b : le_pow2_bool k a b = true <-> le_pow2 k a b.
Proof. unfold le_pow2_bool, le_pow2. apply Z.leb_le. Qed.

Lemma le_pow2_mono k k' a b :
  0 < b -> k' <= k -> le_pow2 k a b -> le_pow2 k' a b.
Proof.
  unfold le_pow2. intros Hb Hk H.
  assert (Hp : forall n, 0 <= n -> 0 < 2 ^ n) by (intros; apply Z.pow_pos_nonneg; lia).
  assert (E : 2 ^ Z.max 0 k * 2 ^ Z.max 0 (- k') =
              2 ^ (k - k') * (2 ^ Z.max 0 k' * 2 ^ Z.max 0 (- k))).
  { rewrite <- !Z.pow_add_r by lia. f_equal. lia. }
  pose proof (Hp (Z.max 0 k) ltac:(lia)).
  pose proof (Hp (Z.max 0 (-k)) ltac:(lia)).
  pose proof (Hp (Z.max 0 k') ltac:(lia)).
  pose proof (Hp (Z.max 0 (-k')) ltac:(lia)).
  pose proof (Hp (k - k') ltac:(lia)).
  apply Z.mul_le_mono_pos_r with (p := 2 ^ Z.max 0 (- k)); [lia|].
  nia.
Qed.

Lemma log2_bracket a b (k := Z.log2 a - Z.log2 b) :
  0 < a -> 0 < b -> le_pow2 (k - 1) a b /\ ~ le_pow2 (k + 1) a b.
Proof.
  intros Ha Hb.
  destruct (Z.log2_spec a Ha) as [La Ua].
  destruct (Z.log2_spec b Hb) as [Lb Ub].
  pose proof (Z.log2_nonneg a) as Na. pose proof (Z.log2_nonneg b) as Nb.
  assert (Hp : forall n, 0 <= n -> 0 < 2 ^ n) by (intros; apply Z.pow_pos_nonneg; lia).
  unfold le_pow2. subst k. set (la := Z.log2 a) in *. set (lb := Z.log2 b) in *.
  split.
  - destruct (Z_lt_le_dec (la - lb - 1) 0) as [Hs|Hs].
    + rewrite (Z.max_l 0 (la - lb - 1)) by lia. rewrite Z.max_r by lia.
      rewrite Z.pow_0_r, Z.mul_1_r.
      assert (E : 2 ^ Z.succ lb = 2 ^ la * 2 ^ (- (la - lb - 1))).
      { rewrite <- Z.pow_add_r by lia. f_equal. lia. }
      pose proof (Hp (- (la - lb - 1)) ltac:(lia)). nia.
    + rewrite (Z.max_r 0 (la - lb - 1)) by lia. rewrite Z.max_l by lia.
      rewrite Z.pow_0_r, Z.mul_1_r.
      assert (E : 2 ^ la = 2 ^ Z.succ lb * 2 ^ (la - lb - 1)).
      { rewrite <- Z.pow_add_r by lia. f_equal. lia. }
      pose proof (Hp (la - lb - 1) ltac:(lia)). nia.
  - intros H.
    destruct (Z_lt_le_dec (la - lb + 1) 0) as [Hs|Hs].
    + rewrite (Z.max_l 0 (la - lb + 1)) in H by lia. rewrite Z.max_r in H by lia.
      rewrite Z.pow_0_r, Z.mul_1_r in H.
      assert (E : 2 ^ lb = 2 ^ Z.succ la * 2 ^ (- (la - lb + 1))).
      { rewrite <- Z.pow_add_r by lia. f_equal. lia. }
      pose proof (Hp (- (la - lb + 1)) ltac:(lia)). nia.
    + rewrite (Z.max_r 0 (la - lb + 1)) in H by lia. rewrite Z.max_l in H by lia.
      rewrite Z.pow_0_r, Z.mul_1_r in H.
      assert (E : 2 ^ Z.succ la = 2 ^ lb * 2 ^ (la - lb + 1)).
      { rewrite <- Z.pow_add_r by lia. f_equal. lia. }
      pose proof (Hp (la - lb + 1) ltac:(lia)). nia.
Qed.

(** [Qlog2_floor x] is the integer [k] with [2^k <= x < 2^(k+1)]. *)
Lemma Qlog2_floor_spec x :
  (0 < x)%Q ->
  le_pow2 (Qlog2_floor x) (Qnum x) (Z.pos (Qden x)) /\
  ~ le_pow2 (Qlog2_floor x + 1) (Qnum x) (Z.pos (Qden x)).
Proof.
  intros Hx. assert (Ha : 0 < Qnum x).
  { unfold Qlt in Hx. simpl in Hx. lia. }
  destruct (log2_bracket (Qnum x) (Z.pos (Qden x)) Ha ltac:(lia)) as [L U].
  unfold Qlog2_floor.
  destruct (le_pow2_bool _ _ _) eqn:E.
  - apply le_pow2_bool_iff in E. split; assumption.
  - split; [exact L|]. replace (_ - 1 + 1) with (Z.log2 (Qnum x) - Z.log2 (Z.pos (Qden x))) by lia.
    intros H. apply le_pow2_bool_iff in H. congruence.
Qed.

Lemma Qlog2_floor_lt x m :
  (0 < x)%Q -> ~ le_pow2 m (Qnum x) (Z.pos (Qden x)) -> Qlog2_floor x < m.
Proof.
  intros Hx Hm. destruct (Qlog2_floor_spec x Hx) as [L _].
  destruct (Z_lt_le_dec (Qlog2_floor x) m) as [H|H]; [exact H|].
  exfalso. apply Hm. eapply le_pow2_mono; [lia|exact H|exact L].
Qed.

Lemma Qlog2_floor_ge x m :
  (0 < x)%Q -> le_pow2 m (Qnum x) (Z.pos (Qden x)) -> m <= Qlog2_floor x.
Proof.
  intros Hx Hm. destruct (Qlog2_floor_spec x Hx) as [_ U].
  destruct (Z_lt_le_dec (Qlog2_floor x) m) as [H|H]; [|lia].
  exfalso. apply U. eapply le_pow2_mono; [lia| |exact Hm]. lia.
Qed.

(** [round_12_log2 x] is the integer [n] with
    [2^(2n-1) <= x^24 < 2^(2n+1)], that is [|12 * log2 x - n| <= 1/2]. *)
Lemma round_12_log2_spec x (n := round_12_log2 x) :
  (0 < x)%Q ->
  le_pow2 (2 * n - 1) (Qnum (x ^ 24)) (Z.pos (Qden (x ^ 24))) /\
  ~ le_pow2 (2 * n + 1) (Qnum (x ^ 24)) (Z.pos (Qden (x ^ 24))).
Proof.
  intros Hx. assert (Hp : (0 < x ^ 24)%Q) by (apply Qpower_0_lt; exact Hx).
  destruct (Qlog2_floor_spec _ Hp) as [L U].
  subst n. unfold round_12_log2. set (k := Qlog2_floor (x ^ 24)) in *.
  split.
  - eapply le_pow2_mono; [lia| |exact L]. Z.to_euclidean_division_equations; lia.
  - intros H. apply U. eapply le_pow2_mono; [lia| |exact H].
    Z.to_euclidean_division_equations; lia.
Qed.

(** *** The same over the reals

    [le_pow2] read with logarithms, and [round_12_log2 x] as the rounding
    of the real number [12 * log2 x]. *)

Lemma IZR_pow2 p : (0 <= p)%Z -> IZR (2 ^ p) = (2 ^ Z.to_nat p)%R.
Proof.
  intros H. rewrite pow_IZR, Z2Nat.id by exact H. reflexivity.
Qed.

Lemma ln_scaled (a : Z) (p : Z) :
  (0 < a)%Z -> (0 <= p)%Z ->
  ln (IZR (a * 2 ^ p)) = (ln (IZR a) + IZR p * ln 2)%R.
Proof.
  intros Ha Hp. rewrite mult_IZR, IZR_pow2 by exact Hp.
  rewrite ln_mult; [|apply IZR_lt; exact Ha|apply pow_lt; Lra.lra].
  rewrite ln_pow by Lra.lra. rewrite INR_IZR_INZ, Z2Nat.id by exact Hp. reflexivity.
Qed.

Lemma scaled_pos (a p : Z) : (0 < a)%Z -> (0 <= p)%Z -> (0 < a * 2 ^ p)%Z.
Proof. intros Ha Hp. apply Z.mul_pos_pos; [exact Ha|]. apply Z.pow_pos_nonneg; lia. Qed.

Lemma le_pow2_ln k a b :
  (0 < a)%Z -> (0 < b)%Z -> le_pow2 k a b ->
  (IZR k * ln 2 <= ln (IZR a) - ln (IZR b))%R.
Proof.
  intros Ha Hb H. unfold le_pow2 in H.
  assert (Hp : (0 <= Z.max 0 k)%Z) by lia.
  assert (Hq : (0 <= Z.max 0 (- k))%Z) by lia.
  assert (Hk : (IZR k = IZR (Z.max 0 k) - IZR (Z.max 0 (- k)))%R).
  { rewrite <- minus_IZR. f_equal. lia. }
  assert (Hln : (ln (IZR (b * 2 ^ Z.max 0 k)) <= ln (IZR (a * 2 ^ Z.max 0 (- k))))%R).
  { apply Z.le_lteq in H as [H|H].
    - left. apply ln_increasing; [apply IZR_lt, scaled_pos; assumption|apply IZR_lt; exact H].
    - right. rewrite H. reflexivity. }
  rewrite !ln_scaled in Hln by assumption. rewrite Hk. Lra.lra.
Qed.

Lemma not_le_pow2_ln k a b :
  (0 < a)%Z -> (0 < b)%Z -> ~ le_pow2 k a b ->
  (ln (IZR a) - ln (IZR b) < IZR k * ln 2)%R.
Proof.
  intros Ha Hb H. unfold le_pow2 in H. apply Z.nle_gt in H.
  assert (Hp : (0 <= Z.max 0 k)%Z) by lia.
  assert (Hq : (0 <= Z.max 0 (- k))%Z) by lia.
  assert (Hk : (IZR k = IZR (Z.max 0 k) - IZR (Z.max 0 (- k)))%R).
  { rewrite <- minus_IZR. f_equal. lia. }
  assert (Hln : (ln (IZR (a * 2 ^ Z.max 0 (- k))) < ln (IZR (b * 2 ^ Z.max 0 k)))%R).
  { apply ln_increasing; [apply IZR_lt, scaled_pos; assumption|apply IZR_lt; exact H]. }
  rewrite !ln_scaled in Hln by assumption. rewrite Hk. Lra.lra.
Qed.

Lemma ln_IZR_pow24 z : 0 < z -> ln (IZR (z ^ 24)) = (24 * ln (IZR z))%R.
Proof.
  intros Hz.
  replace (IZR (z ^ 24)) with (IZR z ^ 24)%R by (exact (pow_IZR z 24)).
  rewrite ln_pow by (apply IZR_lt; exact Hz).
  rewrite INR_IZR_INZ. reflexivity.
Qed.

Lemma rounding_from_brackets (a : Z) (b : positive) (n : Z) :
  0 < a ->
  le_pow2 (2 * n - 1) (a ^ 24) (Z.pos b ^ 24) ->
  ~ le_pow2 (2 * n + 1) (a ^ 24) (Z.pos b ^ 24) ->
  (IZR n - / 2 <= 12 * (ln (Q2R (a # b)) / ln 2) < IZR n + / 2)%R.
Proof.
  intros Ha L U.
  assert (Hpa : 0 < a ^ 24) by (apply Z.pow_pos_nonneg; lia).
  assert (Hpb : 0 < Z.pos b ^ 24) by (apply Z.pow_pos_nonneg; lia).
  apply le_pow2_ln in L; [|assumption|assumption].
  apply not_le_pow2_ln in U; [|assumption|assumption].
  rewrite (ln_IZR_pow24 a Ha), (ln_IZR_pow24 (Z.pos b)) in L, U by lia.
  assert (Ex : ln (Q2R (a # b)) = (ln (IZR a) - ln (IZR (Z.pos b)))%R).
  { unfold Q2R. cbn [Qnum Qden]. rewrite ln_mult, ln_Rinv.
    - reflexivity.
    - apply IZR_lt. lia.
    - apply IZR_lt. exact Ha.
    - apply Rinv_0_lt_compat, IZR_lt. lia. }
  rewrite Ex. clear Ex.
  assert (H2 : (0 < ln 2)%R) by (pose proof ln_lt_2; Lra.lra).
  rewrite minus_IZR, mult_IZR in L. rewrite plus_IZR, mult_IZR in U.
  set (d := (ln (IZR a) - ln (IZR (Z.pos b)))%R).
  assert (L' : ((2 * IZR n - 1) * ln 2 <= 24 * d)%R) by (unfold d; Lra.lra).
  assert (U' : (24 * d < (2 * IZR n + 1) * ln 2)%R) by (unfold d; Lra.lra).
  clearbody d. clear L U.
  assert (Ed : (d = d / ln 2 * ln 2)%R) by (field; Lra.lra).
  set (y := (d / ln 2)%R) in *. clearbody y. subst d.
  split.
  - assert (2 * IZR n - 1 <= 24 * y)%R.
    { apply Rmult_le_reg_r with (r := ln 2); [exact H2|]. Lra.lra. }
    Lra.lra.
  - assert (24 * y < 2 * IZR n + 1)%R.
    { apply Rmult_lt_reg_r with (r := ln 2); [exact H2|]. Lra.lra. }
    Lra.lra.
Qed.

Lemma Qpower_24 (a : Z) (b : positive) :
  ((a # b) ^ 24)%Q = (a ^ 24 # b ^ 24).
Proof. exact (Qpower_decomp_positive 24 a b). Qed.

Lemma Qnum_Qmake (n : Z) (d : positive) : Qnum (n # d) = n.
Proof. reflexivity. Qed.

Lemma Qden_Qmake (n : Z) (d : positive) : Qden (n # d) = d.
Proof. reflexivity. Qed.

(** [round_12_log2 x] is within one half of [12 * log2 x]. *)
Lemma round_12_log2_is_rounding x :
  (0 < x)%Q ->
  (IZR (round_12_log2 x) - / 2 <= 12 * (ln (Q2R x) / ln 2)
   < IZR (round_12_log2 x) + / 2)%R.
Proof.
  intros Hx. pose proof (round_12_log2_spec x Hx) as H. cbv zeta in H.
  destruct x as [a b].
  assert (Ha : 0 < a) by (unfold Qlt in Hx; cbn [Qnum Qden] in Hx; lia).
  rewrite (Qpower_24 a b), Qnum_Qmake, Qden_Qmake, Pos2Z.inj_pow in H.
  destruct H as [L U].
  apply rounding_from_brackets; assumption.
Qed.

Lemma ratio_A4_pow24 f :
  ((f / A4) ^ 24)%Q = ((Qnum f * 10) ^ 24 # (Qden f * 4400) ^ 24).
Proof.
  destruct f as [fn fd]. unfold Qdiv, A4. simpl Qinv. unfold Qmult. simpl Qnum. simpl Qden.
  unfold Qpower. apply Qpower_decomp_positive.
Qed.

Lemma ratio_A4_pos f : (0 < f)%Q -> (0 < (f / A4) ^ 24)%Q.
Proof.
  intros H. apply Qpower_0_lt. apply Qlt_shift_div_l; [reflexivity|].
  rewrite Qmult_0_l. exact H.
Qed.

Lemma scaled_lt A D C T P :
  0 < D -> 0 < T -> A < D * C -> C * T <= P -> ~ (D * P <= A * T).
Proof. intros. nia. Qed.

Lemma scaled_le A D C T P :
  0 < D -> 0 < T -> D * C <= A -> P * T <= C -> D * P * T <= A.
Proof. intros. nia. Qed.

(** Frequencies below [c] (a positive integer number of Hz) round to at
    most [m] semitones from A4 when [(10 c)^24 * 2^(-2m-1) <= 4400^24]. *)
Lemma round_12_log2_below f c m :
  (0 < f)%Q -> (f < inject_Z c)%Q -> m < 0 ->
  (10 * c) ^ 24 * 2 ^ (- (2 * m + 1)) <= 4400 ^ 24 ->
  round_12_log2 (f / A4) <= m.
Proof.
  intros Hf Hc Hm.
  assert (Hpos : (0 < (f / A4) ^ 24)%Q) by (apply ratio_A4_pos; exact Hf).
  assert (HT : 0 < 2 ^ (- (2 * m + 1))) by (apply Z.pow_pos_nonneg; lia).
  assert (E1 : Z.max 0 (2 * m + 1) = 0) by lia.
  assert (E2 : Z.max 0 (- (2 * m + 1)) = - (2 * m + 1)) by lia.
  destruct f as [fn fd]. unfold Qlt in Hf, Hc. simpl in Hf, Hc.
  assert (H1 : (fn * 10) ^ 24 < (Z.pos fd * (10 * c)) ^ 24).
  { apply Z.pow_lt_mono_l; lia. }
  assert (HD : 0 < Z.pos fd ^ 24) by (apply Z.pow_pos_nonneg; lia).
  intros Hb.
  assert (K : Qlog2_floor (((fn # fd) / A4) ^ 24) < 2 * m + 1).
  { apply Qlog2_floor_lt; [exact Hpos|].
    rewrite ratio_A4_pow24. simpl Qnum. simpl Qden.
    unfold le_pow2. rewrite E1, E2, Z.pow_0_r, Z.mul_1_r.
    rewrite Pos2Z.inj_pow, Pos2Z.inj_mul.
    rewrite (Z.pow_mul_l (Z.pos fd)) in H1. rewrite (Z.pow_mul_l (Z.pos fd) 4400).
    exact (scaled_lt _ _ _ _ _ HD HT H1 Hb). }
  clear Hb H1. unfold round_12_log2. Z.to_euclidean_division_equations; lia.
Qed.

(** Frequencies from [c] Hz on round to at least [m] semitones from A4
    when [4400^24 * 2^(2m-1) <= (10 c)^24]. *)
Lemma round_12_log2_above f c m :
  (inject_Z c <= f)%Q -> 0 < c -> 0 < m ->
  4400 ^ 24 * 2 ^ (2 * m - 1) <= (10 * c) ^ 24 ->
  m <= round_12_log2 (f / A4).
Proof.
  intros Hc Hc0 Hm.
  assert (Hf : (0 < f)%Q).
  { eapply Qlt_le_trans; [|exact Hc]. unfold Qlt. simpl. lia. }
  assert (Hpos : (0 < (f / A4) ^ 24)%Q) by (apply ratio_A4_pos; exact Hf).
  assert (HT : 0 < 2 ^ (2 * m - 1)) by (apply Z.pow_pos_nonneg; lia).
  assert (E1 : Z.max 0 (2 * m - 1) = 2 * m - 1) by lia.
  assert (E2 : Z.max 0 (- (2 * m - 1)) = 0) by lia.
  destruct f as [fn fd]. unfold Qle in Hc. simpl in Hc.
  assert (H1 : (Z.pos fd * (10 * c)) ^ 24 <= (fn * 10) ^ 24).
  { apply Z.pow_le_mono_l; lia. }
  assert (HD : 0 < Z.pos fd ^ 24) by (apply Z.pow_pos_nonneg; lia).
  intros Hb.
  assert (K : 2 * m - 1 <= Qlog2_floor (((fn # fd) / A4) ^ 24)).
  { apply Qlog2_floor_ge; [exact Hpos|].
    rewrite ratio_A4_pow24. simpl Qnum. simpl Qden.
    unfold le_pow2. rewrite E1, E2, Z.pow_0_r, Z.mul_1_r.
    rewrite Pos2Z.inj_pow, Pos2Z.inj_mul.
    rewrite (Z.pow_mul_l (Z.pos fd)) in H1. rewrite (Z.pow_mul_l (Z.pos fd) 4400).
    exact (scaled_le _ _ _ _ _ HD HT H1 Hb). }
  clear Hb H1. unfold round_12_log2. Z.to_euclidean_division_equations; lia.
Qed.

Lemma octave_of_offset_neg s : s < 0 -> octave_of_offset s = 4 + (s - 11) / 12.
Proof. intros H. unfold octave_of_offset. destruct (Z.leb_spec 0 s); [lia|reflexivity]. Qed.

Lemma octave_of_offset_nonneg s : 0 <= s -> octave_of_offset s = 4 + s / 12.
Proof. intros H. unfold octave_of_offset. destruct (Z.leb_spec 0 s); [reflexivity|lia]. Qed.

(** Below 16 Hz the doubled frequency is still under 32 Hz, no correction
    applies and the octave is negative. *)
Lemma below_16_Hz_rejected f : (0 < f)%Q -> (f < 16)%Q -> _frequency_to_note f = (None, None).
Proof.
  intros H0 H16.
  assert (Hn : round_12_log2 (f / A4) <= -57).
  { apply (round_12_log2_below f 16); [exact H0|exact H16|lia|].
    apply Z.leb_le. vm_compute. reflexivity. }
  unfold _frequency_to_note.
  rewrite (proj2 (Qle_bool_false_iff f 0) H0).
  set (n := round_12_log2 (f / A4)) in *.
  rewrite (octave_of_offset_neg (n + 9)) by lia.
  assert (Ho : 4 + (n + 9 - 11) / 12 <= -1) by (Z.to_euclidean_division_equations; lia).
  set (o := 4 + (n + 9 - 11) / 12) in *.
  assert (E1 : (o <? 1) = true) by (apply Z.ltb_lt; lia).
  assert (E2 : Qlt_bool f 65.0 = true).
  { apply Qlt_bool_iff. eapply Qlt_trans; [exact H16|reflexivity]. }
  assert (E3 : Qle_bool 32.0 (f * 2.0) = false).
  { apply Qle_bool_false_iff. destruct f as [fn fd]. unfold Qlt in *. simpl in *. lia. }
  rewrite E1, E2, E3. simpl.
  assert (E4 : (o <? 0) = true) by (apply Z.ltb_lt; lia).
  rewrite E4. reflexivity.
Qed.

(** From 8134 Hz on the rounded offset from C4 is at least 60 semitones,
    octave 9 or more. *)
Lemma from_8134_Hz_rejected f : (8134 <= f)%Q -> _frequency_to_note f = (None, None).
Proof.
  intros H.
  assert (H0 : (0 < f)%Q) by (eapply Qlt_le_trans; [|exact H]; reflexivity).
  assert (Hn : 51 <= round_12_log2 (f / A4)).
  { apply (round_12_log2_above f 8134); [exact H|lia|lia|].
    apply Z.leb_le. vm_compute. reflexivity. }
  unfold _frequency_to_note.
  rewrite (proj2 (Qle_bool_false_iff f 0) H0).
  set (n := round_12_log2 (f / A4)) in *.
  rewrite (octave_of_offset_nonneg (n + 9)) by lia.
  assert (Ho : 9 <= 4 + (n + 9) / 12) by (Z.to_euclidean_division_equations; lia).
  set (o := 4 + (n + 9) / 12) in *.
  assert (E1 : (o <? 1) = false) by (apply Z.ltb_ge; lia).
  rewrite E1. simpl.
  assert (E4 : (8 <? o) = true) by (apply Z.ltb_lt; lia).
  rewrite E4, orb_true_r. reflexivity.
Qed.

(** On a negative offset the code subtracts 11 before a division that
    already floors: the result is one octave below the floor division,
    except on the offsets of pitch class B. *)
Lemma octave_of_offset_negative s :
  s < 0 ->
  octave_of_offset s = 4 + s / 12 - (if s mod 12 =? 11 then 0 else 1).
Proof.
  intros H. rewrite octave_of_offset_neg by exact H.
  destruct (Z.eqb_spec (s mod 12) 11); Z.to_euclidean_division_equations; lia.
Qed.

(** C1.  At A3 = 220 Hz the rounded offset from A4 is -12 and the offset
    from C4 is -3, whose floor division by 12 is -1 (octave 3); the code
    computes [(-3 - 11) // 12 = -2] and returns octave 2. *)
Theorem a3_is_mapped_to_octave_2 :
  round_12_log2 (220.0 / A4) = -12 /\
  4 + (-12 + 9) / 12 = 3 /\
  octave_of_offset (-12 + 9) = 2 /\
  _frequency_to_note 220.0 = (Some "A", Some 2).
Proof. vm_compute. repeat split; reflexivity. Qed.

Example c3_is_mapped_to_octave_2 : _frequency_to_note 130.81 = (Some "C", Some 2).
Proof. vm_compute. reflexivity. Qed.

Example b3_is_mapped_to_octave_3 : _frequency_to_note 246.94 = (Some "B", Some 3).
Proof. vm_compute. reflexivity. Qed.

(** C3, as stated, fails: 19 Hz is below 20 Hz and 5001 Hz is above
    5000 Hz, and the pitch mapper answers both with a pitch. *)
Lemma pitch_mapper_answers_19_Hz_and_5001_Hz :
  ((0 < 19.0)%Q /\ (19.0 < 20)%Q /\
   _frequency_to_note 19.0 = (Some "D#", Some 0)) /\
  ((5000 < 5001.0)%Q /\
   _frequency_to_note 5001.0 = (Some "D#", Some 8)).
Proof. vm_compute. repeat split; reflexivity. Qed.

Lemma scaled_lt_ratio A D C E T P :
  0 < D -> 0 < E -> 0 < T -> A * E < C * D -> C * T <= P * E -> ~ (D * P <= A * T).
Proof.
  intros HD HE HT H1 H2 H3.
  assert (K1 : A * E * T < C * D * T) by (apply Z.mul_lt_mono_pos_r; assumption).
  assert (K2 : C * T * D <= P * E * D) by (apply Z.mul_le_mono_nonneg_r; lia).
  assert (K3 : D * P * E <= A * T * E) by (apply Z.mul_le_mono_nonneg_r; lia).
  lia.
Qed.

(** Frequencies below [cn / cd] Hz round to at most [m] semitones from A4
    when [(10 cn)^24 * 2^(-2m-1) <= (4400 cd)^24]. *)
Lemma round_12_log2_below_ratio f cn cd m :
  (0 < f)%Q -> (f < cn # cd)%Q -> m < 0 ->
  (10 * cn) ^ 24 * 2 ^ (- (2 * m + 1)) <= (4400 * Z.pos cd) ^ 24 ->
  round_12_log2 (f / A4) <= m.
Proof.
  intros Hf Hc Hm.
  assert (Hpos : (0 < (f / A4) ^ 24)%Q) by (apply ratio_A4_pos; exact Hf).
  assert (HT : 0 < 2 ^ (- (2 * m + 1))) by (apply Z.pow_pos_nonneg; lia).
  assert (E1 : Z.max 0 (2 * m + 1) = 0) by lia.
  assert (E2 : Z.max 0 (- (2 * m + 1)) = - (2 * m + 1)) by lia.
  destruct f as [fn fd]. unfold Qlt in Hf, Hc. simpl in Hf, Hc.
  assert (H1 : (fn * 10 * Z.pos cd) ^ 24 < (10 * cn * Z.pos fd) ^ 24).
  { apply Z.pow_lt_mono_l; lia. }
  assert (HD : 0 < Z.pos fd ^ 24) by (apply Z.pow_pos_nonneg; lia).
  assert (HE : 0 < Z.pos cd ^ 24) by (apply Z.pow_pos_nonneg; lia).
  intros Hb.
  assert (K : Qlog2_floor (((fn # fd) / A4) ^ 24) < 2 * m + 1).
  { apply Qlog2_floor_lt; [exact Hpos|].
    rewrite ratio_A4_pow24. simpl Qnum. simpl Qden.
    unfold le_pow2. rewrite E1, E2, Z.pow_0_r, Z.mul_1_r.
    rewrite Pos2Z.inj_pow, Pos2Z.inj_mul.
    rewrite (Z.pow_mul_l (fn * 10)), (Z.pow_mul_l (10 * cn)) in H1.
    rewrite (Z.pow_mul_l 4400) in Hb.
    rewrite (Z.pow_mul_l (Z.pos fd) 4400).
    exact (scaled_lt_ratio _ _ _ _ _ _ HD HE HT H1 Hb). }
  clear Hb H1. unfold round_12_log2. Z.to_euclidean_division_equations; lia.
Qed.

(** Below 15.88 Hz the rounded offset from C4 is at most -49: the octave
    is negative by the plain floor division as well as by line 413. *)
Lemma below_15_88_Hz_offset f :
  (0 < f)%Q -> (f < 15.88)%Q -> round_12_log2 (f / A4) + 9 <= -49.
Proof.
  intros H0 H.
  assert (Hn : round_12_log2 (f / A4) <= -58).
  { apply (round_12_log2_below_ratio f 1588 100); [exact H0|exact H|lia|].
    apply Z.leb_le. vm_compute. reflexivity. }
  lia.
Qed.

(** C3, amended.  For a frequency [f] whose quotient by 440.0 is an
    ordinary double, the pitch mapper returns (None, None) when [f] is
    below 15.88 Hz and when [f] is 8134 Hz or more.  Below 15.88 Hz the
    answer does not hang on the subtraction of 11 in line 413: the octave
    4 + floor(offset / 12) is negative too. *)
Theorem frequency_out_of_range_is_rejected (f : Q) :
  float_range f ->
  ((f < 15.88)%Q ->
     _frequency_to_note f = (None, None) /\
     4 + (round_12_log2 (f / A4) + 9) / 12 < 0) /\
  ((8134 <= f)%Q -> _frequency_to_note f = (None, None)).
Proof.
  intros [Hlow _].
  assert (H0 : (0 < f)%Q) by (eapply Qlt_le_trans; [|exact Hlow]; reflexivity).
  split.
  - intros H. split.
    + apply below_16_Hz_rejected; [exact H0|].
      eapply Qlt_trans; [exact H|reflexivity].
    + pose proof (below_15_88_Hz_offset f H0 H).
      Z.to_euclidean_division_equations; lia.
  - intros H. apply from_8134_Hz_rejected; assumption.
Qed.

Lemma frequency_out_of_range_witness :
  float_range 10.0 /\ (10.0 < 15.88)%Q /\
  _frequency_to_note 10.0 = (None, None) /\
  4 + (round_12_log2 (10.0 / A4) + 9) / 12 < 0.
Proof.
  assert (H : float_range 10.0)
    by (split; apply Qle_bool_iff; vm_compute; reflexivity).
  assert (H' : (10.0 < 15.88)%Q) by reflexivity.
  split; [exact H|]. split; [exact H'|].
  exact (proj1 (frequency_out_of_range_is_rejected 10.0 H) H').
Defined.

(** 16 Hz and 8133 Hz are answered.  Between 15.88 and 16 Hz a frequency
    can be rejected through the subtraction of line 413 alone: the plain
    floor division puts 15.9 Hz in octave 0. *)
Example hz_15_9_is_rejected_by_line_413 :
  _frequency_to_note 15.9 = (None, None) /\
  4 + (round_12_log2 (15.9 / A4) + 9) / 12 = 0.
Proof. vm_compute. split; reflexivity. Qed.

Example sixteen_Hz_is_answered : _frequency_to_note 16.0 = (Some "C", Some 0).
Proof. vm_compute. reflexivity. Qed.

Example hz_8133_is_answered : _frequency_to_note 8133.0 = (Some "B", Some 8).
Proof. vm_compute. reflexivity. Qed.

(** ** The duration quantizer *)

Lemma fold_keep_smaller_spec {A} (key : A -> Q) (l : list A) (best : A) :
  let r := fold_left (keep_smaller key) l best in
  In r (best :: l) /\ (key r <= key best)%Q /\
  forall y, In y l -> (key r <= key y)%Q.
Proof.
  revert best. induction l as [|x l IH]; intros best; simpl.
  - split; [left; reflexivity|]. split; [apply Qle_refl|]. intros y [].
  - destruct (IH (keep_smaller key best x)) as (Hin & Hle & Hall).
    assert (Hp : (key (keep_smaller key best x) <= key best)%Q /\
                 (key (keep_smaller key best x) <= key x)%Q /\
                 (keep_smaller key best x = best \/ keep_smaller key best x = x)).
    { unfold keep_smaller. destruct (Qlt_bool (key x) (key best)) eqn:E.
      - apply Qlt_bool_iff in E.
        repeat split; [apply Qlt_le_weak; exact E|apply Qle_refl|right; reflexivity].
      - apply Qlt_bool_false_iff in E.
        repeat split; [apply Qle_refl|exact E|left; reflexivity]. }
    destruct Hp as (Hb & Hx & Hor).
    split; [|split].
    + destruct Hin as [Hin|Hin].
      * destruct Hor as [Hor|Hor]; [left|right; left];
          (etransitivity; [symmetry; exact Hor|exact Hin]).
      * right; right; exact Hin.
    + eapply Qle_trans; [exact Hle|exact Hb].
    + intros y [<-|Hy]; [eapply Qle_trans; [exact Hle|exact Hx]|apply Hall; exact Hy].
Qed.

Lemma min_with_key_spec {A} (key : A -> Q) (d : A) (l : list A) :
  l <> [] ->
  In (min_with_key key d l) l /\
  forall y, In y l -> (key (min_with_key key d l) <= key y)%Q.
Proof.
  destruct l as [|x l]; [congruence|]. intros _. simpl.
  destruct (fold_keep_smaller_spec key l x) as (Hin & Hle & Hall).
  split; [exact Hin|]. intros y [<-|Hy]; [exact Hle|apply Hall; exact Hy].
Qed.

Import Quantizer.

Lemma nearest_standard_in d : In (nearest_standard d) standard_durations.
Proof.
  unfold nearest_standard.
  apply (min_with_key_spec (fun x => Qabs (x - d)) 4.0%Q standard_durations).
  discriminate.
Qed.

Lemma nearest_standard_min d q' :
  In q' standard_durations ->
  (Qabs (nearest_standard d - d) <= Qabs (q' - d))%Q.
Proof.
  unfold nearest_standard. intros H.
  apply (min_with_key_spec (fun x => Qabs (x - d)) 4.0%Q standard_durations);
    [discriminate|exact H].
Qed.

Lemma rounding_margin_pos : (0 < rounding_margin)%Q.
Proof. reflexivity. Qed.

Lemma nearest_standard_pos d : (0 < nearest_standard d)%Q.
Proof.
  pose proof (nearest_standard_in d) as H.
  unfold standard_durations in H. simpl in H.
  repeat (destruct H as [H|H]; [rewrite <- H; reflexivity|]).
  destruct H.
Qed.

(** The test [quantized_duration < duration * 0.7] of line 369 multiplies
    two doubles.  Away from the boundary by more than the rounding of the
    literal and of the product, the exact product decides the same way. *)
Lemma quantize_duration_margins d :
  (0 <= d)%Q ->
  ((nearest_standard d * (1 + rounding_margin) < d * 0.7)%Q ->
     quantize_duration d = d) /\
  ((d * 0.7 * (1 + rounding_margin) <= nearest_standard d)%Q ->
     quantize_duration d = nearest_standard d) /\
  (quantize_duration d = nearest_standard d \/ quantize_duration d = d).
Proof.
  intros Hd. pose proof (nearest_standard_pos d) as Hq.
  pose proof rounding_margin_pos as Hm.
  unfold quantize_duration.
  generalize dependent (nearest_standard d). intros q Hq.
  generalize dependent rounding_margin. intros m Hm.
  destruct (Qlt_bool q (d * 0.7)) eqn:E.
  - apply Qlt_bool_iff in E.
    split; [reflexivity|]. split; [|right; reflexivity].
    intros H. exfalso. nra.
  - apply Qlt_bool_false_iff in E.
    split; [|split; [reflexivity|left; reflexivity]].
    intros H. exfalso. nra.
Qed.

(** C9.  Quantization is idempotent: quantizing the value produced for
    any duration gives that value back. *)
Theorem quantize_duration_idempotent (d : Q) :
  quantize_duration (quantize_duration d) = quantize_duration d.
Proof.
  unfold quantize_duration at 2 3.
  destruct (Qlt_bool (nearest_standard d) (d * 0.7)) eqn:E.
  - unfold quantize_duration. rewrite E. reflexivity.
  - pose proof (nearest_standard_in d) as H.
    unfold standard_durations in H. simpl in H.
    repeat (destruct H as [H|H]; [rewrite <- H; vm_compute; reflexivity|]).
    destruct H.
Qed.

(** ** The note segmenter keeps octaves in the keyboard range *)

Import Segmenter.

Lemma resolve_frame_pitch_range lo hi freq name octave freq' :
  resolve_frame_pitch lo hi freq = Some (name, octave, freq') ->
  1 <= octave <= 7.
Proof.
  unfold resolve_frame_pitch.
  destruct (_frequency_to_note freq) as [[nm|] [oc|]]; try discriminate.
  destruct (String.eqb nm ""); [discriminate|].
  destruct (Z.ltb_spec oc 1) as [Hlow|Hlow].
  - destruct (Qle_bool lo (freq * 2.0) && Qle_bool (freq * 2.0) hi); [|discriminate].
    destruct (_frequency_to_note (freq * 2.0)) as [[nm2|] [oc2|]]; try discriminate.
    destruct (negb (String.eqb nm2 "")); simpl; [|discriminate].
    destruct (Z.leb_spec 1 oc2); simpl; [|discriminate].
    destruct (Z.leb_spec oc2 7); simpl; [|discriminate].
    destruct (Z.ltb_spec 7 oc2); [discriminate|].
    intros [= <- <- <-]. lia.
  - destruct (Z.ltb_spec 7 oc); [discriminate|].
    intros [= <- <- <-]. lia.
Qed.

(** What the correction does with a frame, case by case. *)
Lemma resolve_frame_pitch_cases lo hi freq :
  match _frequency_to_note freq with
  | (Some name, Some octave) =>
      name <> "" ->
      (octave < 1 ->
         resolve_frame_pitch lo hi freq = None \/
         exists name2 octave2,
           _frequency_to_note (freq * 2.0) = (Some name2, Some octave2) /\
           1 <= octave2 <= 7 /\
           resolve_frame_pitch lo hi freq = Some (name2, octave2, (freq * 2.0)%Q)) /\
      (7 < octave -> resolve_frame_pitch lo hi freq = None) /\
      (1 <= octave <= 7 ->
         resolve_frame_pitch lo hi freq = Some (name, octave, freq))
  | _ => resolve_frame_pitch lo hi freq = None
  end.
Proof.
  unfold resolve_frame_pitch.
  destruct (_frequency_to_note freq) as [[nm|] [oc|]]; try reflexivity.
  intros Hnm. apply String.eqb_neq in Hnm. rewrite Hnm.
  split; [|split].
  - intros Hlow. destruct (Z.ltb_spec oc 1); [|lia].
    destruct (Qle_bool lo (freq * 2.0) && Qle_bool (freq * 2.0) hi); [|left; reflexivity].
    destruct (_frequency_to_note (freq * 2.0)) as [[nm2|] [oc2|]]; try (left; reflexivity).
    destruct (negb (String.eqb nm2 "")); simpl; [|left; reflexivity].
    destruct (Z.leb_spec 1 oc2); simpl; [|left; reflexivity].
    destruct (Z.leb_spec oc2 7); simpl; [|left; reflexivity].
    destruct (Z.ltb_spec 7 oc2); [lia|].
    right. exists nm2, oc2. repeat split; lia.
  - intros Hhigh. destruct (Z.ltb_spec oc 1); [lia|].
    destruct (Z.ltb_spec 7 oc); [reflexivity|lia].
  - intros Hin. destruct (Z.ltb_spec oc 1); [lia|].
    destruct (Z.ltb_spec 7 oc); [lia|reflexivity].
Qed.

Lemma close_note_playable ns c t :
  Forall playable ns -> playable (current_note c) ->
  Forall playable (close_note ns c t).
Proof.
  intros Hns Hc. unfold close_note.
  destruct (Qle_bool _ _); [|exact Hns].
  apply Forall_app. split; [exact Hns|].
  constructor; [exact Hc|constructor].
Qed.

Lemma segment_step_inv lo hi st frame :
  seg_inv st -> seg_inv (segment_step lo hi st frame).
Proof.
  intros [Hns Hc]. destruct frame as [i [time [f0 voiced]]].
  unfold segment_step.
  set (valid := match f0 with Some _ => _ | None => _ end). clearbody valid.
  destruct valid as [freq|].
  - destruct (resolve_frame_pitch lo hi freq) as [[[nm oc] fr]|] eqn:E;
      [|split; assumption].
    apply resolve_frame_pitch_range in E.
    destruct (current st) as [c|] eqn:Ec.
    + destruct (is_continuation c nm oc fr).
      * split; [exact Hns|]. intros c' Hc'. apply Hc. congruence.
      * split; simpl.
        -- apply close_note_playable; [exact Hns|apply Hc; reflexivity].
        -- intros c' [= <-]. exact E.
    + split; simpl; [exact Hns|].
      intros c' [= <-]. exact E.
  - destruct (current st) as [c|] eqn:Ec.
    + split; simpl; [|discriminate].
      apply close_note_playable; [exact Hns|apply Hc; reflexivity].
    + split; [exact Hns|]. intros c' Hc'. congruence.
Qed.

Lemma segment_loop_inv lo hi frames st :
  seg_inv st -> seg_inv (fold_left (segment_step lo hi) frames st).
Proof.
  revert st. induction frames as [|fr frames IH]; intros st H; simpl; [exact H|].
  apply IH. apply segment_step_inv. exact H.
Qed.

Lemma close_last_playable times st :
  seg_inv st -> Forall playable (close_last times st).
Proof.
  intros [Hns Hc]. unfold close_last.
  destruct (current st) as [c|]; [|exact Hns].
  destruct times as [|t0 rest]; [exact Hns|].
  apply close_note_playable; [exact Hns|apply Hc; reflexivity].
Qed.

Lemma insert_by_time_Forall (P : note -> Prop) x l :
  P x -> Forall P l -> Forall P (insert_by_time x l).
Proof.
  intros Hx. induction 1 as [|y l Hy Hl IH]; simpl.
  - constructor; [exact Hx|constructor].
  - destruct (Qlt_bool _ _); repeat constructor; assumption.
Qed.

Lemma sort_by_time_Forall (P : note -> Prop) l :
  Forall P l -> Forall P (sort_by_time l).
Proof.
  unfold sort_by_time. intros H.
  assert (G : forall acc, Forall P acc -> Forall P (fold_left (fun acc x => insert_by_time x acc) l acc)).
  { induction H as [|x l Hx Hl IH]; intros acc Hacc; simpl; [exact Hacc|].
    apply IH. apply insert_by_time_Forall; assumption. }
  apply G. constructor.
Qed.

Lemma last_map_Some {A} (l : list A) x :
  List.last (map Some l) None = Some x -> l = removelast l ++ [x].
Proof.
  induction l as [|y l IH]; simpl; [discriminate|].
  destruct l as [|z l]; simpl in *.
  - intros [= ->]. reflexivity.
  - intros H. f_equal. apply IH. exact H.
Qed.

Lemma filter_step_octaves (P : Z -> Prop) acc entry :
  Forall (fun n => P (n_octave n)) acc -> P (n_octave (snd entry)) ->
  Forall (fun n => P (n_octave n)) (filter_step acc entry).
Proof.
  intros Hacc He. destruct entry as [i n]. simpl in He. unfold filter_step.
  assert (Happ : Forall (fun n => P (n_octave n)) (acc ++ [n])).
  { apply Forall_app. split; [exact Hacc|]. constructor; [exact He|constructor]. }
  destruct (i =? 0)%nat; [exact Happ|].
  destruct (List.last (map Some acc) None) as [prev|] eqn:El; [|exact Hacc].
  apply last_map_Some in El. rewrite El in Hacc.
  apply Forall_app in Hacc. destruct Hacc as [Hinit Hlast].
  destruct (_ || _); [exact Happ|].
  destruct (_ && _).
  - apply Forall_app. split; [exact Hinit|].
    constructor; [|constructor]. simpl. inversion Hlast; assumption.
  - rewrite El. apply Forall_app. split; assumption.
Qed.

Lemma filter_onsets_octaves (P : Z -> Prop) l :
  Forall (fun n => P (n_octave n)) l ->
  Forall (fun n => P (n_octave n)) (filter_onsets l).
Proof.
  unfold filter_onsets, enumerate. generalize 0%nat as k. intros k H.
  assert (G : forall acc k, Forall (fun n => P (n_octave n)) acc ->
     Forall (fun n => P (n_octave n)) (fold_left filter_step (combine (seq k (length l)) l) acc)).
  { induction H as [|x l Hx Hl IH]; intros acc k' Hacc; [exact Hacc|].
    change (Forall (fun n => P (n_octave n))
              (fold_left filter_step (combine (seq (S k') (length l)) l)
                 (filter_step acc (k', x)))).
    apply IH. apply filter_step_octaves; [exact Hacc|exact Hx]. }
  apply G. constructor.
Qed.

(** C6.  Every note returned by the extractor has its octave in 1..7: a
    frame that resolves to an octave below 1 is replaced by the pitch of
    the doubled frequency, and only when that pitch has its octave in
    1..7, or it is dropped; a frame that resolves to an octave above 7 is
    dropped.  A dropped frame leaves the state of the loop as it was. *)
Theorem extracted_notes_octave_range pyin sr hop fmin fmax :
  Forall (fun n => 1 <= n_octave n <= 7)
    (extract_notes_from_piano_audio pyin sr hop fmin fmax) /\
  (forall lo hi freq name octave,
     _frequency_to_note freq = (Some name, Some octave) -> name <> "" ->
     (octave < 1 ->
        resolve_frame_pitch lo hi freq = None \/
        exists name2 octave2,
          _frequency_to_note (freq * 2.0) = (Some name2, Some octave2) /\
          1 <= octave2 <= 7 /\
          resolve_frame_pitch lo hi freq = Some (name2, octave2, (freq * 2.0)%Q)) /\
     (7 < octave -> resolve_frame_pitch lo hi freq = None)) /\
  (forall lo hi st i time freq,
     Qle_bool lo freq = true -> Qle_bool freq hi = true ->
     resolve_frame_pitch lo hi freq = None ->
     segment_step lo hi st (i, (time, (Some freq, true))) = st).
Proof.
  split; [|split].
  - unfold extract_notes_from_piano_audio.
    apply Forall_map. simpl.
    apply (filter_onsets_octaves (fun o => 1 <= o <= 7)).
    apply (sort_by_time_Forall playable).
    apply close_last_playable. apply segment_loop_inv.
    split; [constructor|discriminate].
  - intros lo hi freq name octave E Hnm.
    pose proof (resolve_frame_pitch_cases lo hi freq) as H. rewrite E in H.
    destruct (H Hnm) as (H1 & H2 & _). split; assumption.
  - intros lo hi st i time freq Hlo Hhi Hr. unfold segment_step.
    rewrite Hlo, Hhi. simpl. rewrite Hr. reflexivity.
Qed.

(** ** The onset filter *)

(** Two entries whose onsets are at least 50 ms apart are both kept,
    whatever their pitch: the filter looks at the distance between
    onsets, not at the silence between the end of one note and the onset
    of the next. *)
Lemma filter_step_keeps_distant_onsets acc prev i n :
  (min_onset_gap <= n_time n - n_time prev)%Q ->
  filter_step (acc ++ [prev]) (i, n) = (acc ++ [prev]) ++ [n].
Proof.
  intros Hgap. unfold filter_step.
  destruct (i =? 0)%nat; [reflexivity|].
  rewrite map_app. simpl. rewrite List.last_last.
  rewrite (proj2 (Qle_bool_iff _ _) Hgap). reflexivity.
Qed.


(** *** The filter never merges what the segmenter produced

    A retained note lasts at least 100 ms and ends before the next one
    starts, so consecutive onsets are at least 100 ms apart, more than
    the 50 ms under which the filter would merge. *)

Lemma ends_by_weaken b b' a : (b <= b')%Q -> ends_by b a -> ends_by b' a.
Proof. intros Hb [Hd He]. split; [exact Hd|]. eapply Qle_trans; eassumption. Qed.

Lemma Forall_ends_by_weaken b b' l :
  (b <= b')%Q -> Forall (ends_by b) l -> Forall (ends_by b') l.
Proof.
  intros Hb H. eapply List.Forall_impl; [|exact H].
  intros a. apply ends_by_weaken. exact Hb.
Qed.

Lemma StronglySorted_snoc (l : list note) (x : note) :
  StronglySorted onset_spaced l -> Forall (fun a => onset_spaced a x) l ->
  StronglySorted onset_spaced (l ++ [x]).
Proof.
  induction 1 as [|a l Hl IH Ha]; intros Hx; simpl.
  - constructor; constructor.
  - apply Forall_cons in Hx as [Hax Hx]. constructor; [apply IH; exact Hx|].
    apply Forall_app. split; [exact Ha|]. constructor; [exact Hax|constructor].
Qed.

Lemma close_note_timing ns c t :
  StronglySorted onset_spaced ns ->
  Forall (ends_by (current_note_start_time c)) ns ->
  n_time (current_note c) = current_note_start_time c ->
  (current_note_start_time c <= t)%Q ->
  StronglySorted onset_spaced (close_note ns c t) /\
  Forall (ends_by t) (close_note ns c t).
Proof.
  intros Hss Hends Heq Hle. unfold close_note.
  destruct (Qle_bool min_note_duration (t - current_note_start_time c)) eqn:E.
  - apply Qle_bool_iff in E. split.
    + apply StronglySorted_snoc; [exact Hss|].
      eapply List.Forall_impl; [|exact Hends]. intros a [Hd He].
      unfold onset_spaced. simpl. rewrite Heq.
      eapply Qle_trans; [|exact He]. apply Qplus_le_r. exact Hd.
    + apply Forall_app. split; [eapply Forall_ends_by_weaken; eassumption|].
      constructor; [|constructor]. split; simpl; [exact E|].
      rewrite Heq. unfold Qminus. rewrite (Qplus_comm t), Qplus_assoc, Qplus_opp_r, Qplus_0_l.
      apply Qle_refl.
  - split; [exact Hss|]. eapply Forall_ends_by_weaken; eassumption.
Qed.

Lemma segment_step_timing lo hi st T i t fr :
  seg_timing st T -> (T <= t)%Q ->
  seg_timing (segment_step lo hi st (i, (t, fr))) t.
Proof.
  intros [Hss Hcur] HT. destruct fr as [f0 voiced]. unfold segment_step.
  set (valid := match f0 with Some _ => _ | None => _ end). clearbody valid.
  destruct valid as [freq|].
  - destruct (resolve_frame_pitch lo hi freq) as [[[nm oc] fr]|].
    + destruct (current st) as [c|] eqn:Ec.
      * destruct Hcur as (Hends & Heq & Hle).
        destruct (is_continuation c nm oc fr).
        -- split; [exact Hss|]. rewrite Ec. repeat split; try assumption.
           eapply Qle_trans; eassumption.
        -- destruct (close_note_timing (notes st) c t Hss Hends Heq) as [Hss' Hends'].
           { eapply Qle_trans; eassumption. }
           split; simpl; [exact Hss'|]. repeat split; [exact Hends'|apply Qle_refl].
      * split; simpl; [exact Hss|]. repeat split; [|apply Qle_refl].
        eapply Forall_ends_by_weaken; eassumption.
    + split; [exact Hss|]. destruct (current st) as [c|].
      * destruct Hcur as (Hends & Heq & Hle). repeat split; try assumption.
        eapply Qle_trans; eassumption.
      * eapply Forall_ends_by_weaken; eassumption.
  - destruct (current st) as [c|] eqn:Ec.
    + destruct Hcur as (Hends & Heq & Hle).
      destruct (close_note_timing (notes st) c t Hss Hends Heq) as [Hss' Hends'].
      { eapply Qle_trans; eassumption. }
      split; simpl; assumption.
    + split; [exact Hss|]. rewrite Ec. eapply Forall_ends_by_weaken; eassumption.
Qed.

Lemma last_default {A} (l : list A) (d d' : A) :
  l <> [] -> List.last l d = List.last l d'.
Proof.
  induction l as [|a l IH]; [congruence|]. intros _.
  destruct l as [|b l]; [reflexivity|].
  change (List.last (b :: l) d = List.last (b :: l) d'). apply IH. discriminate.
Qed.

Lemma last_cons_default {A} (x d : A) (l : list A) :
  List.last (x :: l) d = List.last l x.
Proof.
  destruct l as [|y l]; [reflexivity|].
  change (List.last (y :: l) d = List.last (y :: l) x).
  apply last_default. discriminate.
Qed.

Lemma segment_loop_timing lo hi frames st T :
  seg_timing st T -> times_from T frames ->
  seg_timing (fold_left (segment_step lo hi) frames st) (last_time T frames).
Proof.
  revert st T. induction frames as [|[i [t fr]] frames IH]; intros st T Hinv Ht.
  - exact Hinv.
  - destruct Ht as [HT Ht]. cbn [fold_left].
    replace (last_time T ((i, (t, fr)) :: frames)) with (last_time t frames).
    + apply IH; [|exact Ht]. apply (segment_step_timing lo hi st T); assumption.
    + unfold last_time. cbn [map fst snd]. symmetry. apply last_cons_default.
Qed.

Lemma times_from_combine T times :
  nondecreasing_from T times ->
  forall (idxs : list nat) (data : list (option Q * bool)),
    times_from T (combine idxs (combine times data)).
Proof.
  revert T. induction times as [|t times IH]; intros T Hc idxs data.
  - destruct idxs; exact I.
  - destruct Hc as [Ht Hc]. destruct idxs as [|i idxs]; [exact I|].
    destruct data as [|d data]; [exact I|].
    split; [exact Ht|]. apply IH. exact Hc.
Qed.

Lemma frames_to_time_mono i j sr hop :
  (i <= j)%nat -> (frames_to_time i sr hop <= frames_to_time j sr hop)%Q.
Proof.
  intros H. unfold frames_to_time, Qle. simpl.
  apply Z.mul_le_mono_nonneg_r; [lia|].
  apply Z.mul_le_mono_nonneg_r; lia.
Qed.

Lemma frame_times_nondecreasing sr hop n k T :
  (T <= frames_to_time k sr hop)%Q ->
  nondecreasing_from T (map (fun i => frames_to_time i sr hop) (seq k n)).
Proof.
  revert k T. induction n as [|n IH]; intros k T HT; [exact I|].
  split; [exact HT|]. apply IH. apply frames_to_time_mono. lia.
Qed.

Lemma map_time_combine (times : list Q) :
  forall (idxs : list nat) (data : list (option Q * bool)),
    length idxs = length times -> length data = length times ->
    map (fun fr : nat * (Q * (option Q * bool)) => fst (snd fr))
      (combine idxs (combine times data)) = times.
Proof.
  induction times as [|t times IH]; intros idxs data Hi Hd.
  - destruct idxs; [reflexivity|discriminate].
  - destruct idxs as [|i idxs]; [discriminate|].
    destruct data as [|d data]; [discriminate|].
    simpl. f_equal. apply IH; simpl in *; lia.
Qed.

Lemma nondecreasing_last T times :
  nondecreasing_from T times -> (T <= List.last times T)%Q.
Proof.
  revert T. induction times as [|t times IH]; intros T Hc; [apply Qle_refl|].
  destruct Hc as [Ht Hc]. rewrite last_cons_default.
  eapply Qle_trans; [exact Ht|]. apply IH. exact Hc.
Qed.

Lemma close_last_timing times st T :
  seg_timing st T ->
  (forall t0 rest, times = t0 :: rest ->
     (T <= List.last times t0)%Q /\ nondecreasing_from t0 rest) ->
  StronglySorted onset_spaced (close_last times st).
Proof.
  intros [Hss Hcur] Htimes. unfold close_last.
  destruct (current st) as [c|]; [|exact Hss].
  destruct times as [|t0 rest]; [exact Hss|].
  destruct Hcur as (Hends & Heq & Hle).
  destruct (Htimes t0 rest eq_refl) as [Hlast Hchain].
  apply close_note_timing; try assumption.
  eapply Qle_trans; [exact Hle|]. eapply Qle_trans; [exact Hlast|].
  destruct rest as [|t1 rest']; [apply Qle_refl|].
  destruct Hchain as [H01 _]. lra.
Qed.

(** The notes leave the segmentation loop with onsets at least 100 ms
    apart. *)
Lemma segmented_notes_spaced pyin sr hop fmin fmax :
  StronglySorted onset_spaced (segmented_notes pyin sr hop fmin fmax).
Proof.
  unfold segmented_notes.
  set (times := map (fun i => frames_to_time i sr hop) (seq 0 (length pyin))).
  assert (Hlen : length times = length pyin).
  { unfold times. rewrite length_map, length_seq. reflexivity. }
  assert (Hchain : nondecreasing_from 0%Q times).
  { apply frame_times_nondecreasing. unfold frames_to_time, Qle. simpl. lia. }
  set (frames := enumerate (combine times pyin)).
  apply (close_last_timing times _ (last_time 0%Q frames)).
  - apply segment_loop_timing.
    + split; [constructor|constructor].
    + apply times_from_combine. exact Hchain.
  - intros t0 rest E. split.
    + unfold last_time, frames, enumerate.
      rewrite map_time_combine.
      * rewrite (last_default times 0%Q t0); [apply Qle_refl|]. rewrite E. discriminate.
      * rewrite length_seq, length_combine. lia.
      * lia.
    + rewrite E in Hchain. destruct Hchain as [_ Hc]. exact Hc.
Qed.

Lemma StronglySorted_app_inv (l1 l2 : list note) :
  StronglySorted onset_spaced (l1 ++ l2) ->
  StronglySorted onset_spaced l2 /\
  Forall (fun a => Forall (onset_spaced a) l2) l1.
Proof.
  induction l1 as [|a l1 IH]; simpl; intros H.
  - split; [exact H|constructor].
  - apply StronglySorted_inv in H as [Hs Ha]. destruct (IH Hs) as [H2 H1].
    split; [exact H2|]. constructor; [|exact H1].
    apply Forall_app in Ha as [_ Ha]. exact Ha.
Qed.

Lemma insert_by_time_last x acc :
  Forall (fun a => onset_spaced a x) acc -> insert_by_time x acc = acc ++ [x].
Proof.
  induction 1 as [|a acc Ha Hacc IH]; simpl; [reflexivity|].
  assert (E : Qlt_bool (n_time x) (n_time a) = false).
  { apply Qlt_bool_false_iff. unfold onset_spaced, min_note_duration in Ha. lra. }
  rewrite E, IH. reflexivity.
Qed.

(** On the segmenter's output the sort changes nothing. *)
Lemma sort_by_time_spaced l :
  StronglySorted onset_spaced l -> sort_by_time l = l.
Proof.
  unfold sort_by_time. intros H.
  assert (G : forall acc, StronglySorted onset_spaced (acc ++ l) ->
                fold_left (fun acc x => insert_by_time x acc) l acc = acc ++ l).
  { clear H. induction l as [|x l IH]; intros acc H; simpl.
    - rewrite app_nil_r. reflexivity.
    - destruct (StronglySorted_app_inv acc (x :: l) H) as [_ Hacc].
      rewrite insert_by_time_last.
      + rewrite IH; rewrite <- app_assoc; [reflexivity|exact H].
      + eapply List.Forall_impl; [|exact Hacc]. intros a Ha.
        apply Forall_cons in Ha as [Ha _]. exact Ha. }
  apply (G []). exact H.
Qed.

(** On the segmenter's output the onset filter changes nothing: its merge
    branch is never taken. *)
Lemma filter_onsets_spaced l :
  StronglySorted onset_spaced l -> filter_onsets l = l.
Proof.
  unfold filter_onsets, enumerate. intros H.
  assert (G : forall acc k, StronglySorted onset_spaced (acc ++ l) ->
                acc <> [] \/ k = 0%nat ->
                fold_left filter_step (combine (seq k (length l)) l) acc = acc ++ l).
  { clear H. induction l as [|x l IH]; intros acc k H Hk.
    - simpl. rewrite app_nil_r. reflexivity.
    - change (fold_left filter_step (combine (seq (S k) (length l)) l)
                (filter_step acc (k, x)) = acc ++ x :: l).
      assert (E : filter_step acc (k, x) = acc ++ [x]).
      { destruct acc as [|a acc0].
        - destruct Hk as [Hk|Hk]; [congruence|]. subst k. reflexivity.
        - destruct (@exists_last _ (a :: acc0)) as (acc' & prev & Ep); [discriminate|].
          rewrite Ep in *.
          apply filter_step_keeps_distant_onsets.
          destruct (StronglySorted_app_inv (acc' ++ [prev]) (x :: l) H) as [_ Hacc].
          apply Forall_app in Hacc as [_ Hprev].
          apply Forall_cons in Hprev as [Hprev _].
          apply Forall_cons in Hprev as [Hprev _].
          unfold onset_spaced, min_note_duration in Hprev. unfold min_onset_gap. lra. }
      rewrite E, IH.
      + rewrite <- app_assoc. reflexivity.
      + rewrite <- app_assoc. exact H.
      + left. destruct acc; discriminate. }
  apply (G [] 0%nat); [exact H|right; reflexivity].
Qed.

(** X23.  The extractor returns the notes of the segmentation loop, quantized:
    on them the sort and the onset filter are the identity, and no two
    notes are ever merged. *)
Theorem onset_filter_never_merges pyin sr hop fmin fmax :
  extract_notes_from_piano_audio pyin sr hop fmin fmax =
  map Quantizer.quantize_note (segmented_notes pyin sr hop fmin fmax).
Proof.
  pose proof (segmented_notes_spaced pyin sr hop fmin fmax) as H.
  unfold extract_notes_from_piano_audio. fold (segmented_notes pyin sr hop fmin fmax).
  rewrite (sort_by_time_spaced _ H), (filter_onsets_spaced _ H). reflexivity.
Qed.

(** C2.  A pitch stream with frames every 10 ms: twelve voiced frames at
    261.63 Hz (120 ms), three unvoiced frames (30 ms), twelve voiced
    frames at 261.63 Hz, one unvoiced frame.  The extractor returns two
    C4 notes, with onsets 0 s and 0.15 s, not one merged note. *)
Theorem two_c4_segments_stay_two_notes :
  let pyin := voiced_frames 261.63 12 ++ unvoiced_frames 3 ++
              voiced_frames 261.63 12 ++ unvoiced_frames 1 in
  let result := extract_notes_from_piano_audio pyin 16000 160 27.5 4186.0 in
  length result = 2%nat /\
  map (fun n => (Qred (n_time n), n_name n, n_octave n, Qred (n_duration n))) result =
    [(0%Q, "C", 4, (1 # 8)%Q); ((3 # 20)%Q, "C", 4, (1 # 8)%Q)].
Proof. vm_compute. split; reflexivity. Qed.


(** ** Peak normalisation *)

Import Separator.

Lemma fold_py_max_spec (l : list Q) (x : Q) :
  let r := fold_left py_max l x in
  In r (x :: l) /\ forall y, In y (x :: l) -> (y <= r)%Q.
Proof.
  revert x. induction l as [|z l IH]; intros x; simpl.
  - split; [left; reflexivity|]. intros y [<-|[]]. apply Qle_refl.
  - destruct (IH (py_max x z)) as [Hin Hmax].
    assert (Hp : (x <= py_max x z)%Q /\ (z <= py_max x z)%Q /\
                 (py_max x z = x \/ py_max x z = z)).
    { unfold py_max. destruct (Qlt_bool x z) eqn:E.
      - apply Qlt_bool_iff in E. repeat split;
          [apply Qlt_le_weak; exact E|apply Qle_refl|right; reflexivity].
      - apply Qlt_bool_false_iff in E. repeat split;
          [apply Qle_refl|exact E|left; reflexivity]. }
    destruct Hp as (Hx & Hz & Hor). split.
    + destruct Hin as [Hin|Hin]; [|right; right; exact Hin].
      destruct Hor as [Hor|Hor]; [left|right; left];
        (etransitivity; [symmetry; exact Hor|exact Hin]).
    + intros y [<-|[<-|Hy]].
      * eapply Qle_trans; [exact Hx|]. apply Hmax. left; reflexivity.
      * eapply Qle_trans; [exact Hz|]. apply Hmax. left; reflexivity.
      * apply Hmax. right; exact Hy.
Qed.

Lemma np_max_spec (l : list Q) (m : Q) :
  np_max l = Some m -> In m l /\ forall y, In y l -> (y <= m)%Q.
Proof.
  destruct l as [|x l]; [discriminate|]. intros [= <-].
  apply fold_py_max_spec.
Qed.

Lemma np_max_is_Some (l : list Q) : l <> [] -> exists m, np_max l = Some m.
Proof. destruct l; [congruence|]. intros _. eexists. reflexivity. Qed.

Lemma Qabs_div_pos v p : (0 < p)%Q -> (Qabs (v / p) == Qabs v / p)%Q.
Proof.
  intros Hp. unfold Qdiv. rewrite Qabs_Qmult.
  rewrite (Qabs_pos (/ p)); [reflexivity|].
  apply Qinv_le_0_compat. apply Qlt_le_weak. exact Hp.
Qed.

(** C10.  The final normalisation never divides by zero: when the largest
    absolute sample is 0 the signal, all zeros, is returned as it is;
    otherwise every sample is divided by that peak and the result has
    peak absolute amplitude 1. *)
Theorem peak_normalize_guarded (y_filtered : list Q) (peak : Q) :
  np_max (np_abs y_filtered) = Some peak ->
  ((peak == 0)%Q ->
     peak_normalize y_filtered = Some y_filtered /\
     Forall (fun v => (v == 0)%Q) y_filtered) /\
  (~ (peak == 0)%Q ->
     exists y', peak_normalize y_filtered = Some y' /\
       y' = map (fun v => (v / peak)%Q) y_filtered /\
       exists peak', np_max (np_abs y') = Some peak' /\ (peak' == 1)%Q).
Proof.
  intros Hmax. destruct (np_max_spec _ _ Hmax) as [Hin Hall].
  assert (Hnn : (0 <= peak)%Q).
  { unfold np_abs in Hin. apply in_map_iff in Hin. destruct Hin as (v & <- & _).
    apply Qabs_nonneg. }
  split.
  - intros H0. split.
    + unfold peak_normalize. rewrite Hmax.
      destruct (Qlt_bool 0 peak) eqn:E; [|reflexivity].
      apply Qlt_bool_iff in E. rewrite H0 in E. discriminate E.
    + apply List.Forall_forall. intros v Hv.
      assert (Hle : (Qabs v <= 0)%Q).
      { rewrite <- H0. apply Hall. unfold np_abs. apply in_map. exact Hv. }
      apply Qabs_Qle_condition in Hle. destruct Hle as [L U].
      apply Qle_antisym; [exact U|exact L].
  - intros Hne.
    assert (Hpos : (0 < peak)%Q).
    { apply Qle_lteq in Hnn. destruct Hnn as [H|H]; [exact H|].
      exfalso. apply Hne. symmetry. exact H. }
    exists (map (fun v => (v / peak)%Q) y_filtered).
    split; [|split; [reflexivity|]].
    + unfold peak_normalize. rewrite Hmax.
      rewrite (proj2 (Qlt_bool_iff _ _) Hpos). reflexivity.
    + destruct (np_max_is_Some (np_abs (map (fun v => (v / peak)%Q) y_filtered)))
        as [peak' Hp'].
      { unfold np_abs in Hin. apply in_map_iff in Hin. destruct Hin as (v & _ & Hv).
        destruct y_filtered; [destruct Hv|discriminate]. }
      exists peak'. split; [exact Hp'|].
      destruct (np_max_spec _ _ Hp') as [Hin' Hall'].
      apply Qle_antisym.
      * unfold np_abs in Hin'. rewrite map_map in Hin'.
        apply in_map_iff in Hin'. destruct Hin' as (v & <- & Hv).
        rewrite (Qabs_div_pos v peak Hpos).
        apply Qle_shift_div_r; [exact Hpos|]. rewrite Qmult_1_l.
        apply Hall. unfold np_abs. apply in_map. exact Hv.
      * unfold np_abs in Hin. apply in_map_iff in Hin. destruct Hin as (v & Ev & Hv).
        assert (Hq : (Qabs (v / peak) <= peak')%Q).
        { apply Hall'. unfold np_abs. rewrite map_map.
          apply in_map_iff. exists v. split; [reflexivity|exact Hv]. }
        eapply Qle_trans; [|exact Hq].
        rewrite (Qabs_div_pos v peak Hpos), Ev.
        apply Qle_shift_div_l; [exact Hpos|]. rewrite Qmult_1_l. apply Qle_refl.
Qed.

Lemma peak_normalize_guarded_witness :
  np_max (np_abs [0.5; -2.0; 1.0]%Q) = Some 2.0%Q /\
  exists y', peak_normalize [0.5; -2.0; 1.0]%Q = Some y' /\
    y' = map (fun v => (v / 2.0)%Q) [0.5; -2.0; 1.0]%Q /\
    exists peak', np_max (np_abs y') = Some peak' /\ (peak' == 1)%Q.
Proof.
  split; [reflexivity|].
  apply (peak_normalize_guarded [0.5; -2.0; 1.0]%Q 2.0%Q); [reflexivity|].
  intros H. discriminate H.
Defined.

(** ** The MIDI encoder *)

Import MidiEncoder.

Lemma clamp_pitch x : Z.max 24 (Z.min 108 x) = clampZ 24 108 x.
Proof.
  unfold clampZ. destruct (Z.leb_spec x 24); [lia|].
  destruct (Z.ltb_spec 108 x); lia.
Qed.

Lemma clamp_duration x : py_max 0.125 (py_min x 16.0) = clampQ 0.125 16.0 x.
Proof.
  unfold py_max, py_min, clampQ.
  destruct (Qlt_bool 16.0 x) eqn:E16.
  - apply Qlt_bool_iff in E16.
    assert (E : Qle_bool x 0.125 = false).
    { apply Qle_bool_false_iff. eapply Qlt_trans; [|exact E16]. reflexivity. }
    rewrite E. reflexivity.
  - destruct (Qlt_bool 0.125 x) eqn:El.
    + apply Qlt_bool_iff, Qle_bool_false_iff in El. rewrite El. reflexivity.
    + apply Qlt_bool_false_iff, Qle_bool_iff in El. rewrite El. reflexivity.
Qed.

Lemma clampQ_bounds lo hi x : (lo <= hi)%Q -> (lo <= clampQ lo hi x <= hi)%Q.
Proof.
  intros H. unfold clampQ.
  destruct (Qle_bool x lo) eqn:E1.
  - split; [apply Qle_refl|exact H].
  - apply Qle_bool_false_iff in E1.
    destruct (Qlt_bool hi x) eqn:E2.
    + split; [exact H|apply Qle_refl].
    + apply Qlt_bool_false_iff in E2. split; [apply Qlt_le_weak; exact E1|exact E2].
Qed.

Lemma dict_get_note_names name :
  In name NOTE_NAMES -> exists offset, dict_get note_to_midi name = Some offset /\ 0 <= offset <= 11.
Proof.
  simpl. intros H.
  repeat (destruct H as [<-|H]; [eexists; split; [reflexivity|lia]|]).
  destruct H.
Qed.

Lemma dict_get_range name offset :
  dict_get note_to_midi name = Some offset -> 0 <= offset <= 11.
Proof.
  unfold note_to_midi. cbn [dict_get].
  repeat (destruct (String.eqb _ name); [intros [= <-]; lia|]).
  discriminate.
Qed.

(** C7, as stated, fails: a note in octave 4 whose onset is negative
    produces no MIDI event. *)
Lemma negative_onset_note_is_not_encoded :
  1 <= n_octave (Note (-1.0) "C" 4 261.63 0.5) <= 7 /\
  note_events 120 (Note (-1.0) "C" 4 261.63 0.5) = Some [] /\
  notes_to_midi_events 120 [Note (-1.0) "C" 4 261.63 0.5] = Some [].
Proof. vm_compute. repeat split; congruence. Qed.

Lemma tempo_in_range_nonzero tempo : tempo_in_range tempo -> tempo <> 0.
Proof.
  intros [Hlow _] ->. apply Qle_bool_iff in Hlow. vm_compute in Hlow. discriminate.
Qed.

(** C7, amended.  At tempo 0 [addTempo] raises before the loop and no
    note is encoded.  At a tempo other than 0 that converts to a double, a
    note with octave in 1..7, one of the twelve pitch names and an onset
    that is not negative in beats (and within the doubles) yields exactly
    one MIDI event: number [(octave + 1) * 12 + offset] clamped into
    [24, 108] (the clamp changes nothing there), onset [time * tempo / 60]
    and duration [duration * tempo / 60] clamped into [0.125, 16.0].  A
    note with octave outside 1..7 yields no event, and so does a note in
    range whose onset is negative in beats (by more than the smallest
    doubles).  A call on notes that all bear one of the twelve names
    hands the tempo event and the events of its notes, in order, to the
    file. *)
Theorem midi_encoding_of_notes (tempo : Z) :
  (tempo = 0 -> forall notes, midi_file_events tempo notes = None) /\
  (tempo_in_range tempo ->
   (forall n offset,
      1 <= n_octave n <= 7 ->
      dict_get note_to_midi (n_name n) = Some offset ->
      (0 <= beats tempo (n_time n))%Q -> (beats tempo (n_time n) <= 1e300)%Q ->
      note_events tempo n =
        Some [MidiEvent (clampZ 24 108 ((n_octave n + 1) * 12 + offset))
                        (beats tempo (n_time n))
                        (clampQ 0.125 16.0 (beats tempo (n_duration n)))] /\
      clampZ 24 108 ((n_octave n + 1) * 12 + offset) = (n_octave n + 1) * 12 + offset) /\
   (forall n, n_octave n < 1 \/ 7 < n_octave n -> note_events tempo n = Some []) /\
   (forall n, 1 <= n_octave n <= 7 -> In (n_name n) NOTE_NAMES ->
      (beats tempo (n_time n) <= - 1e-300)%Q -> note_events tempo n = Some []) /\
   (forall notes,
      Forall (fun n => In (n_name n) NOTE_NAMES /\
                       float_sized (beats tempo (n_time n))) notes ->
      exists per_note,
        Forall2 (fun n evs => note_events tempo n = Some evs) notes per_note /\
        midi_file_events tempo notes =
          Some (Z.quot 60000000 tempo, concat per_note))).
Proof.
  split.
  { intros -> notes. reflexivity. }
  intros Hrange. pose proof (tempo_in_range_nonzero tempo Hrange) as Htempo.
  assert (Hone : forall n offset,
     1 <= n_octave n <= 7 ->
     dict_get note_to_midi (n_name n) = Some offset ->
     note_events tempo n =
       if Qle_bool 0 (beats tempo (n_time n))
       then Some [MidiEvent (clampZ 24 108 ((n_octave n + 1) * 12 + offset))
                       (beats tempo (n_time n))
                       (clampQ 0.125 16.0 (beats tempo (n_duration n)))]
       else Some []).
  { intros n offset Hoct Hd. unfold note_events.
    destruct (Z.ltb_spec (n_octave n) 1); [lia|].
    destruct (Z.ltb_spec 7 (n_octave n)); [lia|].
    rewrite Hd. rewrite clamp_pitch, clamp_duration. fold (beats tempo (n_time n)).
    fold (beats tempo (n_duration n)).
    assert (Hpos : Qlt_bool 0 (clampQ 0.125 16.0 (beats tempo (n_duration n))) = true).
    { apply Qlt_bool_iff.
      destruct (clampQ_bounds 0.125 16.0 (beats tempo (n_duration n))) as [L _];
        [discriminate|].
      eapply Qlt_le_trans; [|exact L]. reflexivity. }
    rewrite Hpos, andb_true_r. reflexivity. }
  split; [|split; [|split]].
  - intros n offset Hoct Hd Ht _. split.
    + rewrite (Hone n offset Hoct Hd).
      rewrite (proj2 (Qle_bool_iff _ _) Ht). reflexivity.
    + apply dict_get_range in Hd. unfold clampZ.
      destruct (Z.leb_spec ((n_octave n + 1) * 12 + offset) 24); [lia|].
      destruct (Z.ltb_spec 108 ((n_octave n + 1) * 12 + offset)); lia.
  - intros n Hout. unfold note_events.
    destruct (Z.ltb_spec (n_octave n) 1); [reflexivity|].
    destruct (Z.ltb_spec 7 (n_octave n)); [reflexivity|lia].
  - intros n Hoct Hname Hneg.
    assert (Hneg' : (beats tempo (n_time n) < 0)%Q).
    { eapply Qle_lt_trans; [exact Hneg|]. vm_compute. reflexivity. }
    destruct (dict_get_note_names _ Hname) as (offset & Hd & _).
    rewrite (Hone n offset Hoct Hd).
    rewrite (proj2 (Qle_bool_false_iff _ _) Hneg'). reflexivity.
  - intros notes Hall.
    assert (G : exists per_note,
               Forall2 (fun n evs => note_events tempo n = Some evs) notes per_note /\
               notes_to_midi_events tempo notes = Some (concat per_note)).
    { induction Hall as [|n notes [Hn _] Hns IH].
      + exists []. split; [constructor|reflexivity].
      + destruct IH as (per & HF & Hev).
        destruct (dict_get_note_names _ Hn) as (offset & Hd & _).
        assert (Hsome : exists evs, note_events tempo n = Some evs).
        { unfold note_events.
          destruct (n_octave n <? 1); [eauto|]. destruct (7 <? n_octave n); [eauto|].
          rewrite Hd. destruct (_ && _); eauto. }
        destruct Hsome as [evs Hevs].
        exists (evs :: per). split; [constructor; assumption|].
        simpl. rewrite Hevs, Hev. reflexivity. }
    destruct G as (per & HF & Hev). exists per. split; [exact HF|].
    unfold midi_file_events, addTempo.
    destruct (Z.eqb_spec tempo 0) as [E|E]; [contradiction|].
    rewrite Hev. reflexivity.
Qed.

Lemma midi_encoding_of_notes_witness :
  (tempo_in_range 120 /\
   1 <= n_octave (Note 1.0 "C" 4 261.63 0.5) <= 7 /\
   dict_get note_to_midi "C" = Some 0 /\
   (0 <= beats 120 1.0)%Q /\ (beats 120 1.0 <= 1e300)%Q) /\
  note_events 120 (Note 1.0 "C" 4 261.63 0.5) =
    Some [MidiEvent 60 (beats 120 1.0) (beats 120 0.5)].
Proof.
  assert (H0 : tempo_in_range 120)
    by (split; apply Qle_bool_iff; vm_compute; reflexivity).
  assert (H1 : 1 <= n_octave (Note 1.0 "C" 4 261.63 0.5) <= 7) by (simpl; lia).
  assert (H2 : dict_get note_to_midi (n_name (Note 1.0 "C" 4 261.63 0.5)) = Some 0)
    by reflexivity.
  assert (H3 : (0 <= beats 120 (n_time (Note 1.0 "C" 4 261.63 0.5)))%Q)
    by (vm_compute; discriminate).
  assert (H4 : (beats 120 (n_time (Note 1.0 "C" 4 261.63 0.5)) <= 1e300)%Q)
    by (apply Qle_bool_iff; vm_compute; reflexivity).
  split; [split; [exact H0|split; [exact H1|split; [exact H2|split; [exact H3|exact H4]]]]|].
  exact (proj1 (proj1 (proj2 (midi_encoding_of_notes 120) H0) _ 0 H1 H2 H3 H4)).
Defined.

(** ** The notation exporter and the orchestrator *)

Import Pipeline.

Section ExporterFacts.

Context (ex : externals).

(** The removal step always returns, and leaves the file only when the
    operating system refused to delete it. *)
Lemma cleanup_musicxml_spec (p : string) (w : world) :
  exists w', cleanup_musicxml p w = (w', Ok tt) /\
    (files w' !! p = None \/ p ∈ undeletable w').
Proof.
  unfold cleanup_musicxml, try_except, bind, os_path_exists, os_remove, ret.
  case_bool_decide as Hex.
  - destruct Hex as [size E]. rewrite E.
    case_bool_decide as Hu.
    + exists w. split; [reflexivity|]. right. exact Hu.
    + eexists. split; [reflexivity|]. left. simpl. apply lookup_delete_eq.
  - exists w. split; [reflexivity|]. left. apply eq_None_not_Some. exact Hex.
Qed.



End ExporterFacts.

(** C5, as stated, fails: MuseScore is installed and its run times out;
    [midi_to_pdf_workflow] raises and the [.musicxml] file it wrote next
    to the PDF is still there. *)
Lemma musicxml_left_behind_when_musescore_times_out :
  let r := midi_to_pdf_workflow studio "out/song_piano.mid"
             "out/song_sheet_music.pdf" None 120 studio_world in
  musicxml_path_for "out/song_sheet_music.pdf" = "out/song_sheet_music.musicxml" /\
  files studio_world !! "out/song_sheet_music.musicxml" = None /\
  snd r = Raise (Exception "Error in MIDI to PDF workflow") /\
  files (fst r) !! "out/song_sheet_music.musicxml" = Some 1%N.
Proof. vm_compute. repeat split; reflexivity. Qed.

(** C5, amended.  When [midi_to_pdf_workflow] returns, the intermediate
    [.musicxml] file is gone unless the operating system refused to
    remove it.  When [musicxml_to_pdf] raises, the workflow raises from
    the state that step left: no removal is attempted. *)
Theorem musicxml_removed_on_success_only (ex : externals)
  (midi_path pdf_path : string) (musescore_path : option string) (tempo : Z)
  (w : world) :
  (forall w' b,
     midi_to_pdf_workflow ex midi_path pdf_path musescore_path tempo w = (w', Ok b) ->
     files w' !! musicxml_path_for pdf_path = None \/
     musicxml_path_for pdf_path ∈ undeletable w') /\
  (forall s w1 w2 w3 e,
     MUSIC21_AVAILABLE ex = true ->
     music21_prepare ex midi_path tempo w = (w1, Ok s) ->
     music21_write_musicxml ex s (musicxml_path_for pdf_path) w1 = (w2, Ok tt) ->
     musicxml_to_pdf ex (musicxml_path_for pdf_path) pdf_path musescore_path w2
       = (w3, Raise e) ->
     midi_to_pdf_workflow ex midi_path pdf_path musescore_path tempo w =
       (w3, Raise (Exception "Error in MIDI to PDF workflow"))).
Proof.
  split.
  - intros w' b. unfold midi_to_pdf_workflow.
    destruct (MUSIC21_AVAILABLE ex); simpl; [|discriminate].
    unfold try_except, bind.
    destruct (music21_prepare ex midi_path tempo w) as [w1 [s|e]]; [|discriminate].
    destruct (music21_write_musicxml ex s (musicxml_path_for pdf_path) w1)
      as [w2 [[]|e]]; [|discriminate].
    destruct (musicxml_to_pdf ex (musicxml_path_for pdf_path) pdf_path musescore_path w2)
      as [w3 [b'|e]]; [|discriminate].
    destruct (cleanup_musicxml_spec (musicxml_path_for pdf_path) w3) as (w4 & Hc & Hgone).
    rewrite Hc. unfold ret. intros [= <- <-]. exact Hgone.
  - intros s w1 w2 w3 e Hav H1 H2 H3. unfold midi_to_pdf_workflow.
    rewrite Hav. simpl. unfold try_except, bind.
    rewrite H1, H2, H3. reflexivity.
Qed.




Lemma musicxml_removed_when_musescore_succeeds :
  let r := midi_to_pdf_workflow studio_with_musescore "out/song_piano.mid"
             "out/song_sheet_music.pdf" None 120 studio_world in
  snd r = Ok true /\
  files (fst r) !! "out/song_sheet_music.pdf" = Some 1%N /\
  (files (fst r) !! musicxml_path_for "out/song_sheet_music.pdf" = None \/
   musicxml_path_for "out/song_sheet_music.pdf" ∈ undeletable (fst r)).
Proof.
  split; [vm_compute; reflexivity|]. split; [vm_compute; reflexivity|].
  apply (proj1 (musicxml_removed_on_success_only studio_with_musescore
                  "out/song_piano.mid" "out/song_sheet_music.pdf" None 120 studio_world)
           _ true).
  vm_compute. reflexivity.
Defined.

(** ** More on the pitch mapper *)

Lemma frequency_to_note_unfold f :
  (0 < f)%Q ->
  _frequency_to_note f =
  let '(note_index, octave, frequency) := corrected_pitch f in
  if (octave <? 0) || (8 <? octave) then (None, None) else
  if Qlt_bool frequency 30.0 && (1 <=? octave) then
    if octave - 1 <? 0 then (None, None)
    else (NOTE_NAMES !! Z.to_nat note_index, Some (octave - 1))
  else (NOTE_NAMES !! Z.to_nat note_index, Some octave).
Proof.
  intros H. unfold _frequency_to_note, corrected_pitch.
  rewrite (proj2 (Qle_bool_false_iff f 0) H). reflexivity.
Qed.

Lemma corrected_pitch_index f :
  0 <= fst (fst (corrected_pitch f)) < 12.
Proof.
  unfold corrected_pitch.
  destruct (_ && _); [destruct (_ && _)|]; cbn [fst]; apply Z.mod_pos_bound; lia.
Qed.

Lemma NOTE_NAMES_lookup i :
  0 <= i < 12 ->
  exists name, NOTE_NAMES !! Z.to_nat i = Some name /\ In name NOTE_NAMES /\ name <> ""%string.
Proof.
  intros H.
  assert (C : i = 0 \/ i = 1 \/ i = 2 \/ i = 3 \/ i = 4 \/ i = 5 \/ i = 6 \/
              i = 7 \/ i = 8 \/ i = 9 \/ i = 10 \/ i = 11) by lia.
  repeat (destruct C as [->|C]);
    try subst i; (eexists; split; [reflexivity|split; [cbn; tauto|discriminate]]).
Qed.

Lemma below_30_Hz_octave f :
  (0 < f)%Q -> (f < 30)%Q -> octave_of_offset (round_12_log2 (f / A4) + 9) <= 0.
Proof.
  intros H0 H30.
  assert (Hn : round_12_log2 (f / A4) <= -46).
  { apply (round_12_log2_below f 30); [exact H0|exact H30|lia|].
    apply Z.leb_le. vm_compute. reflexivity. }
  rewrite octave_of_offset_neg by lia. Z.to_euclidean_division_equations; lia.
Qed.

(** When line 440 is reached with a frequency below 30 Hz the octave is
    below 1: either the frequency was doubled to 32 Hz or more, or the
    octave of the undoubled frequency is 0 or less. *)
Lemma corrected_pitch_low_guard f :
  (0 < f)%Q ->
  Qlt_bool (snd (corrected_pitch f)) 30.0 && (1 <=? snd (fst (corrected_pitch f))) = false.
Proof.
  intros H0. unfold corrected_pitch.
  set (s := round_12_log2 (f / A4)).
  destruct (octave_of_offset (s + 9) <? 1) eqn:E1; cbn [andb].
  - destruct (Qlt_bool f 65.0) eqn:E2.
    + destruct (Qle_bool 32.0 (f * 2.0)) eqn:E3; cbn [andb].
      * destruct (Qle_bool (f * 2.0) 4186.0) eqn:E4; cbn [fst snd].
        -- unfold Qlt_bool at 1.
           assert (E : Qle_bool 30.0 (f * 2.0) = true).
           { apply Qle_bool_iff. apply Qle_bool_iff in E3.
             eapply Qle_trans; [|exact E3]. unfold Qle. simpl. lia. }
           rewrite E. reflexivity.
        -- apply Z.ltb_lt in E1.
           replace (1 <=? octave_of_offset (s + 9)) with false
             by (symmetry; apply Z.leb_gt; lia).
           apply andb_false_r.
      * cbn [fst snd]. apply Z.ltb_lt in E1.
        replace (1 <=? octave_of_offset (s + 9)) with false
          by (symmetry; apply Z.leb_gt; lia).
        apply andb_false_r.
    + cbn [fst snd]. apply Z.ltb_lt in E1.
      replace (1 <=? octave_of_offset (s + 9)) with false
        by (symmetry; apply Z.leb_gt; lia).
      apply andb_false_r.
  - cbn [fst snd]. apply Z.ltb_ge in E1.
    destruct (Qlt_bool f 30.0) eqn:E; [|reflexivity].
    exfalso. apply Qlt_bool_iff in E.
    assert (H30 : (f < 30)%Q).
    { eapply Qlt_le_trans; [exact E|]. unfold Qle. simpl. lia. }
    pose proof (below_30_Hz_octave f H0 H30). fold s in H. lia.
Qed.

Lemma frequency_to_note_checked f :
  (0 < f)%Q ->
  _frequency_to_note f =
    if (snd (fst (corrected_pitch f)) <? 0) || (8 <? snd (fst (corrected_pitch f)))
    then (None, None)
    else (NOTE_NAMES !! Z.to_nat (fst (fst (corrected_pitch f))),
          Some (snd (fst (corrected_pitch f)))).
Proof.
  intros H0. rewrite (frequency_to_note_unfold f H0).
  pose proof (corrected_pitch_low_guard f H0) as G.
  destruct (corrected_pitch f) as [[i o] fr]. cbn [fst snd] in *.
  rewrite G. reflexivity.
Qed.



(** X2.  For a frequency that is zero, negative, or has an ordinary
    double as its quotient by 440.0, [_frequency_to_note] answers with
    nothing at all or with one of the twelve note names and an octave
    between 0 and 8; it never returns a name without an octave or an
    octave without a name. *)
Theorem frequency_to_note_result_shape (f : Q) :
  (f <= 0)%Q \/ float_range f ->
  _frequency_to_note f = (None, None) \/
  exists name octave,
    _frequency_to_note f = (Some name, Some octave) /\
    In name NOTE_NAMES /\ 0 <= octave <= 8.
Proof.
  intros [H0|[Hlow _]].
  - left. unfold _frequency_to_note.
    rewrite (proj2 (Qle_bool_iff f 0) H0). reflexivity.
  - assert (H0 : (0 < f)%Q) by (eapply Qlt_le_trans; [|exact Hlow]; reflexivity).
    rewrite (frequency_to_note_checked f H0).
    pose proof (corrected_pitch_index f) as Hi.
    destruct (corrected_pitch f) as [[i o] fr]. cbn [fst snd] in *.
    destruct ((o <? 0) || (8 <? o)) eqn:E; [left; reflexivity|right].
    apply orb_false_iff in E as [E1 E2].
    apply Z.ltb_ge in E1. apply Z.ltb_ge in E2.
    destruct (NOTE_NAMES_lookup i Hi) as (name & Hl & Hin & _).
    exists name, o. rewrite Hl. repeat split; try assumption.
Qed.

Lemma frequency_to_note_result_shape_witness :
  ((9000.0 <= 0)%Q \/ float_range 9000.0) /\
  (_frequency_to_note 9000.0 = (None, None) \/
   exists name octave,
     _frequency_to_note 9000.0 = (Some name, Some octave) /\
     In name NOTE_NAMES /\ 0 <= octave <= 8).
Proof.
  assert (H : (9000.0 <= 0)%Q \/ float_range 9000.0)
    by (right; split; apply Qle_bool_iff; vm_compute; reflexivity).
  split; [exact H|].
  exact (frequency_to_note_result_shape 9000.0 H).
Defined.

(** *** The rounded offset does not depend on how a rational is written,
    and grows by 12 when the frequency doubles *)

Lemma le_pow2_Qeq k x y :
  (x == y)%Q ->
  le_pow2 k (Qnum x) (Z.pos (Qden x)) -> le_pow2 k (Qnum y) (Z.pos (Qden y)).
Proof.
  unfold Qeq, le_pow2. intros E H.
  set (P := 2 ^ Z.max 0 k) in *. set (M := 2 ^ Z.max 0 (- k)) in *.
  assert (HP : 0 < P) by (apply Z.pow_pos_nonneg; lia).
  assert (HM : 0 < M) by (apply Z.pow_pos_nonneg; lia).
  apply (Zmult_le_reg_r _ _ (Z.pos (Qden x))); [lia|].
  replace (Qnum y * M * Z.pos (Qden x)) with (Qnum x * M * Z.pos (Qden y))
    by (rewrite <- !Z.mul_assoc, (Z.mul_comm M), !Z.mul_assoc, E; ring).
  replace (Z.pos (Qden y) * P * Z.pos (Qden x))
    with (Z.pos (Qden x) * P * Z.pos (Qden y)) by ring.
  apply Z.mul_le_mono_nonneg_r; [lia|exact H].
Qed.

Lemma Qlog2_floor_unique x k :
  (0 < x)%Q ->
  le_pow2 k (Qnum x) (Z.pos (Qden x)) ->
  ~ le_pow2 (k + 1) (Qnum x) (Z.pos (Qden x)) ->
  Qlog2_floor x = k.
Proof.
  intros Hx L U.
  pose proof (Qlog2_floor_ge x k Hx L).
  pose proof (Qlog2_floor_lt x (k + 1) Hx U). lia.
Qed.

Lemma Qlog2_floor_Qeq x y : (0 < x)%Q -> (x == y)%Q -> Qlog2_floor y = Qlog2_floor x.
Proof.
  intros Hx E. assert (Hy : (0 < y)%Q) by (rewrite <- E; exact Hx).
  destruct (Qlog2_floor_spec x Hx) as [L U].
  apply Qlog2_floor_unique; [exact Hy| |].
  - exact (le_pow2_Qeq _ x y E L).
  - intros H. apply U. apply (le_pow2_Qeq _ y x); [symmetry; exact E|exact H].
Qed.

Lemma round_12_log2_Qeq x y :
  (0 < x)%Q -> (x == y)%Q -> round_12_log2 y = round_12_log2 x.
Proof.
  intros Hx E. unfold round_12_log2. f_equal. f_equal.
  apply Qlog2_floor_Qeq; [apply Qpower_0_lt; exact Hx|].
  rewrite E. reflexivity.
Qed.

(** [le_pow2 k a b] with both sides scaled by [2^N]. *)
Lemma le_pow2_lift k a b N :
  0 <= N -> 0 <= k + N ->
  (le_pow2 k a b <-> b * 2 ^ (k + N) <= a * 2 ^ N).
Proof.
  intros HN HkN. unfold le_pow2.
  destruct (Z_lt_le_dec k 0) as [Hk|Hk].
  - rewrite (Z.max_l 0 k), (Z.max_r 0 (- k)), Z.pow_0_r, Z.mul_1_r by lia.
    replace N with (k + N + - k) at 2 by lia.
    rewrite (Z.pow_add_r 2 (k + N) (- k)) by lia.
    assert (0 < 2 ^ (k + N)) by (apply Z.pow_pos_nonneg; lia).
    set (T := 2 ^ (k + N)) in *. set (M := 2 ^ (- k)).
    split; intros H'; nia.
  - rewrite (Z.max_r 0 k), (Z.max_l 0 (- k)), Z.pow_0_r, Z.mul_1_r by lia.
    rewrite (Z.pow_add_r 2 k N) by lia.
    assert (0 < 2 ^ N) by (apply Z.pow_pos_nonneg; lia).
    set (T := 2 ^ N) in *. set (P := 2 ^ k).
    split; intros H'; nia.
Qed.

Lemma le_pow2_shift k j a b :
  0 <= j -> (le_pow2 (k + j) (a * 2 ^ j) b <-> le_pow2 k a b).
Proof.
  intros Hj.
  rewrite (le_pow2_lift (k + j) (a * 2 ^ j) b (Z.abs k)) by lia.
  rewrite (le_pow2_lift k a b (Z.abs k + j)) by lia.
  rewrite (Z.pow_add_r 2 (Z.abs k) j) by lia.
  replace (k + (Z.abs k + j)) with (k + j + Z.abs k) by lia.
  replace (a * 2 ^ j * 2 ^ Z.abs k) with (a * (2 ^ Z.abs k * 2 ^ j)) by ring.
  reflexivity.
Qed.

Lemma Qlog2_floor_shift x j :
  (0 < x)%Q -> 0 <= j -> Qlog2_floor (x * inject_Z (2 ^ j)) = Qlog2_floor x + j.
Proof.
  intros Hx Hj.
  assert (Hp : 0 < 2 ^ j) by (apply Z.pow_pos_nonneg; lia).
  assert (Hy : (0 < x * inject_Z (2 ^ j))%Q).
  { apply Qmult_lt_0_compat; [exact Hx|]. unfold Qlt. simpl. lia. }
  destruct (Qlog2_floor_spec x Hx) as [L U].
  apply Qlog2_floor_unique; [exact Hy| |].
  - unfold Qmult, inject_Z. cbn [Qnum Qden]. rewrite Pos.mul_1_r.
    apply le_pow2_shift; assumption.
  - unfold Qmult, inject_Z. cbn [Qnum Qden]. rewrite Pos.mul_1_r.
    replace (Qlog2_floor x + j + 1) with (Qlog2_floor x + 1 + j) by lia.
    rewrite le_pow2_shift by exact Hj. exact U.
Qed.

Lemma round_12_log2_double x :
  (0 < x)%Q -> round_12_log2 (x * 2) = round_12_log2 x + 12.
Proof.
  intros Hx. unfold round_12_log2.
  assert (Hp : (0 < x ^ 24)%Q) by (apply Qpower_0_lt; exact Hx).
  assert (E : (x ^ 24 * inject_Z (2 ^ 24) == (x * 2) ^ 24)%Q).
  { rewrite Qmult_power. apply Qmult_comp; [reflexivity|]. reflexivity. }
  rewrite (Qlog2_floor_Qeq (x ^ 24 * inject_Z (2 ^ 24)) ((x * 2) ^ 24)).
  - rewrite Qlog2_floor_shift by (assumption || lia).
    Z.to_euclidean_division_equations; lia.
  - apply Qmult_lt_0_compat; [exact Hp|reflexivity].
  - exact E.
Qed.

Lemma ratio_A4_double f : ((f * 2.0) / A4 == (f / A4) * 2)%Q.
Proof. unfold A4. field. Qed.

Lemma round_12_log2_doubled_frequency f :
  (0 < f)%Q ->
  round_12_log2 ((f * 2.0) / A4) = round_12_log2 (f / A4) + 12.
Proof.
  intros Hf.
  assert (Hr : (0 < f / A4)%Q).
  { apply Qlt_shift_div_l; [reflexivity|]. rewrite Qmult_0_l. exact Hf. }
  rewrite (round_12_log2_Qeq ((f / A4) * 2) ((f * 2.0) / A4)).
  - apply round_12_log2_double. exact Hr.
  - apply Qmult_lt_0_compat; [exact Hr|reflexivity].
  - symmetry. apply ratio_A4_double.
Qed.

Lemma scaled_le_neg A D C T P :
  0 < D -> 0 < T -> D * C <= A -> P <= C * T -> D * P <= A * T.
Proof. intros. nia. Qed.

(** Frequencies from [c] Hz on round to at least [m] semitones from A4,
    for [m <= 0], when [4400^24 <= (10 c)^24 * 2^(1-2m)]. *)
Lemma round_12_log2_above_neg f c m :
  (inject_Z c <= f)%Q -> 0 < c -> m <= 0 ->
  4400 ^ 24 <= (10 * c) ^ 24 * 2 ^ (1 - 2 * m) ->
  m <= round_12_log2 (f / A4).
Proof.
  intros Hc Hc0 Hm.
  assert (Hf : (0 < f)%Q).
  { eapply Qlt_le_trans; [|exact Hc]. unfold Qlt. simpl. lia. }
  assert (Hpos : (0 < (f / A4) ^ 24)%Q) by (apply ratio_A4_pos; exact Hf).
  assert (HT : 0 < 2 ^ (1 - 2 * m)) by (apply Z.pow_pos_nonneg; lia).
  assert (E1 : Z.max 0 (2 * m - 1) = 0) by lia.
  assert (E2 : Z.max 0 (- (2 * m - 1)) = 1 - 2 * m) by lia.
  destruct f as [fn fd]. unfold Qle in Hc. simpl in Hc.
  assert (H1 : (Z.pos fd * (10 * c)) ^ 24 <= (fn * 10) ^ 24).
  { apply Z.pow_le_mono_l; lia. }
  assert (HD : 0 < Z.pos fd ^ 24) by (apply Z.pow_pos_nonneg; lia).
  intros Hb.
  assert (K : 2 * m - 1 <= Qlog2_floor (((fn # fd) / A4) ^ 24)).
  { apply Qlog2_floor_ge; [exact Hpos|].
    rewrite ratio_A4_pow24. simpl Qnum. simpl Qden.
    unfold le_pow2. rewrite E1, E2, Z.pow_0_r, Z.mul_1_r.
    rewrite Pos2Z.inj_pow, Pos2Z.inj_mul.
    rewrite (Z.pow_mul_l (Z.pos fd)) in H1. rewrite (Z.pow_mul_l (Z.pos fd) 4400).
    exact (scaled_le_neg _ _ _ _ _ HD HT H1 Hb). }
  clear Hb H1. unfold round_12_log2. Z.to_euclidean_division_equations; lia.
Qed.

(** With an offset from C4 that is not negative, neither the doubling of
    line 418 nor the negative branch of line 413 is taken. *)
Lemma corrected_pitch_nonneg_offset f :
  0 <= round_12_log2 (f / A4) + 9 ->
  corrected_pitch f =
    ((round_12_log2 (f / A4) + 9) mod 12,
     4 + (round_12_log2 (f / A4) + 9) / 12, f).
Proof.
  intros Hn. unfold corrected_pitch.
  set (s := round_12_log2 (f / A4)) in *.
  rewrite (octave_of_offset_nonneg (s + 9)) by lia.
  assert (E : (4 + (s + 9) / 12 <? 1) = false).
  { apply Z.ltb_ge. Z.to_euclidean_division_equations; lia. }
  rewrite E. reflexivity.
Qed.

(** From 255 Hz on the offset from C4 is not negative. *)
Lemma corrected_pitch_from_255 f :
  (255 <= f)%Q ->
  0 <= round_12_log2 (f / A4) + 9 /\
  corrected_pitch f =
    ((round_12_log2 (f / A4) + 9) mod 12,
     4 + (round_12_log2 (f / A4) + 9) / 12, f).
Proof.
  intros H.
  assert (Hn : -9 <= round_12_log2 (f / A4)).
  { apply (round_12_log2_above_neg f 255); [exact H|lia|lia|].
    apply Z.leb_le. vm_compute. reflexivity. }
  split; [lia|]. apply corrected_pitch_nonneg_offset. lia.
Qed.

(** X3.  From 255 Hz upward (just below C4) the pitch mapper is the plain
    floor division: with [s] the rounded offset from C4, it returns pitch
    class [s mod 12] in octave [4 + s / 12], or nothing when that octave
    is above 8. *)
Theorem frequency_to_note_from_C4_upward (f : Q) :
  (255 <= f)%Q ->
  let s := round_12_log2 (f / A4) + 9 in
  0 <= s /\
  _frequency_to_note f =
    if 8 <? 4 + s / 12 then (None, None)
    else (NOTE_NAMES !! Z.to_nat (s mod 12), Some (4 + s / 12)).
Proof.
  intros H s.
  assert (H0 : (0 < f)%Q) by (eapply Qlt_le_trans; [|exact H]; reflexivity).
  destruct (corrected_pitch_from_255 f H) as [Hs E]. fold s in Hs, E.
  split; [exact Hs|].
  rewrite (frequency_to_note_checked f H0), E. cbn [fst snd].
  assert (E0 : (4 + s / 12 <? 0) = false).
  { apply Z.ltb_ge. Z.to_euclidean_division_equations; lia. }
  rewrite E0. reflexivity.
Qed.

Lemma frequency_to_note_from_C4_upward_witness :
  (255 <= 1000.0)%Q /\
  _frequency_to_note 1000.0 = (Some "B"%string, Some 5).
Proof.
  assert (H : (255 <= 1000.0)%Q) by (unfold Qle; simpl; lia).
  split; [exact H|].
  destruct (frequency_to_note_from_C4_upward 1000.0 H) as [_ E].
  rewrite E. vm_compute. reflexivity.
Defined.

(** *** Frequencies close to a semitone *)

Lemma le_pow2_square_lower k A B :
  0 < A -> 0 < B -> le_pow2 (2 * k - 1) (A * A) (B * B) -> le_pow2 (k - 1) A B.
Proof.
  intros HA HB H.
  remember (Z.abs k + 1) as N eqn:EN.
  apply (le_pow2_lift (2 * k - 1) (A * A) (B * B) (2 * N)) in H; [|lia|lia].
  apply (le_pow2_lift (k - 1) A B N); [lia|lia|].
  replace (2 * k - 1 + 2 * N) with ((k - 1 + N) + (k - 1 + N) + 1) in H by lia.
  replace (2 * N) with (N + N) in H by lia.
  rewrite (Z.pow_add_r 2 (k - 1 + N + (k - 1 + N)) 1), (Z.pow_add_r 2 (k - 1 + N) (k - 1 + N)),
    (Z.pow_add_r 2 N N), Z.pow_1_r in H by lia.
  assert (HU : 0 < 2 ^ (k - 1 + N)) by (apply Z.pow_pos_nonneg; lia).
  assert (HV : 0 < 2 ^ N) by (apply Z.pow_pos_nonneg; lia).
  set (U := 2 ^ (k - 1 + N)) in *. set (V := 2 ^ N) in *.
  assert (K : 2 * ((B * U) * (B * U)) <= (A * V) * (A * V)) by lia.
  nia.
Qed.

Lemma le_pow2_square_upper k A B :
  0 < A -> 0 < B -> le_pow2 (k + 1) A B -> le_pow2 (2 * k + 1) (A * A) (B * B).
Proof.
  intros HA HB H.
  remember (Z.abs k + 1) as N eqn:EN.
  apply (le_pow2_lift (k + 1) A B N) in H; [|lia|lia].
  apply (le_pow2_lift (2 * k + 1) (A * A) (B * B) (2 * N + 1)); [lia|lia|].
  replace (2 * k + 1 + (2 * N + 1)) with ((k + 1 + N) + (k + 1 + N)) by lia.
  replace (2 * N + 1) with (N + N + 1) by lia.
  rewrite (Z.pow_add_r 2 (k + 1 + N) (k + 1 + N)), (Z.pow_add_r 2 (N + N) 1),
    (Z.pow_add_r 2 N N), Z.pow_1_r by lia.
  assert (HU : 0 < 2 ^ (k + 1 + N)) by (apply Z.pow_pos_nonneg; lia).
  assert (HV : 0 < 2 ^ N) by (apply Z.pow_pos_nonneg; lia).
  set (U := 2 ^ (k + 1 + N)) in *. set (V := 2 ^ N) in *.
  assert (K : (B * U) * (B * U) <= (A * V) * (A * V)) by nia.
  nia.
Qed.

(** Within a quarter of a semitone of [s], the rounded offset is [s]. *)
Lemma round_12_log2_near x s :
  (0 < x)%Q -> near_semitone x s -> round_12_log2 x = s.
Proof.
  intros Hx [L U].
  assert (Hp : (0 < x ^ 24)%Q) by (apply Qpower_0_lt; exact Hx).
  assert (E : (x ^ 48 == x ^ 24 * x ^ 24)%Q).
  { replace 48 with (24 + 24) by reflexivity. apply Qpower_plus.
    intros H0. rewrite H0 in Hx. discriminate. }
  apply (le_pow2_Qeq _ _ _ E) in L.
  assert (U' : ~ le_pow2 (4 * s + 1) (Qnum (x ^ 24 * x ^ 24))
                          (Z.pos (Qden (x ^ 24 * x ^ 24)))).
  { intros H. apply U. apply (le_pow2_Qeq _ (x ^ 24 * x ^ 24)%Q);
      [symmetry; exact E|exact H]. }
  clear U E.
  unfold round_12_log2.
  generalize dependent (x ^ 24)%Q. intros y L Hy U.
  destruct y as [A B]. unfold Qmult in L, U.
  cbn [Qnum Qden] in L, U. rewrite Pos2Z.inj_mul in L, U.
  assert (HA : 0 < A) by (unfold Qlt in Hy; simpl in Hy; lia).
  replace (4 * s - 1) with (2 * (2 * s) - 1) in L by lia.
  apply le_pow2_square_lower in L; [|exact HA|lia].
  assert (U2 : ~ le_pow2 (2 * s + 1) A (Z.pos B)).
  { intros H. apply U. replace (4 * s + 1) with (2 * (2 * s) + 1) by lia.
    apply le_pow2_square_upper; [exact HA|lia|exact H]. }
  pose proof (Qlog2_floor_ge (A # B) (2 * s - 1) Hy L) as K1.
  pose proof (Qlog2_floor_lt (A # B) (2 * s + 1) Hy U2) as K2.
  Z.to_euclidean_division_equations; lia.
Qed.

(** X4.  A frequency within a quarter of a semitone of the [s]-th
    semitone from A4, from C4 up to B7, is given the pitch class
    [(s + 9) mod 12] in octave [4 + (s + 9) / 12]; doubling it keeps the
    note name and raises the octave by one. *)
Theorem doubling_raises_one_octave (f : Q) (s : Z) :
  (0 < f)%Q -> near_semitone (f / A4) s -> 0 <= s + 9 < 48 ->
  exists name,
    NOTE_NAMES !! Z.to_nat ((s + 9) mod 12) = Some name /\
    _frequency_to_note f = (Some name, Some (4 + (s + 9) / 12)) /\
    _frequency_to_note (f * 2.0) = (Some name, Some (4 + (s + 9) / 12 + 1)).
Proof.
  intros H0 Hs Hr.
  assert (Hx : (0 < f / A4)%Q).
  { apply Qlt_shift_div_l; [reflexivity|]. rewrite Qmult_0_l. exact H0. }
  assert (H20 : (0 < f * 2.0)%Q).
  { apply Qmult_lt_0_compat; [exact H0|reflexivity]. }
  pose proof (round_12_log2_near _ s Hx Hs) as E1.
  pose proof (round_12_log2_doubled_frequency f H0) as E2. rewrite E1 in E2.
  assert (Hi : 0 <= (s + 9) mod 12 < 12) by (apply Z.mod_pos_bound; lia).
  destruct (NOTE_NAMES_lookup _ Hi) as (name & Hl & _ & _).
  exists name. split; [exact Hl|].
  rewrite (frequency_to_note_checked f H0), (frequency_to_note_checked (f * 2.0) H20).
  rewrite (corrected_pitch_nonneg_offset f), (corrected_pitch_nonneg_offset (f * 2.0))
    by (rewrite ?E1, ?E2; lia).
  rewrite E1, E2. cbn [fst snd].
  replace (s + 12 + 9) with (s + 9 + 1 * 12) by lia.
  rewrite Z.mod_add, Z.div_add, Hl by lia.
  assert (Er : (4 + (s + 9) / 12 <? 0) || (8 <? 4 + (s + 9) / 12) = false).
  { apply orb_false_iff. split; apply Z.ltb_ge;
      Z.to_euclidean_division_equations; lia. }
  assert (Er' : (4 + ((s + 9) / 12 + 1) <? 0) || (8 <? 4 + ((s + 9) / 12 + 1)) = false).
  { apply orb_false_iff. split; apply Z.ltb_ge;
      Z.to_euclidean_division_equations; lia. }
  rewrite Er, Er'. split; [reflexivity|]. f_equal. f_equal. lia.
Qed.

Lemma doubling_raises_one_octave_witness :
  ((0 < 261.63)%Q /\ near_semitone (261.63 / A4) (-9) /\ 0 <= -9 + 9 < 48) /\
  _frequency_to_note 261.63 = (Some "C"%string, Some 4) /\
  _frequency_to_note (261.63 * 2.0) = (Some "C"%string, Some 5).
Proof.
  assert (H0 : (0 < 261.63)%Q) by reflexivity.
  assert (Hs : near_semitone (261.63 / A4) (-9)).
  { split.
    - apply Z.leb_le. vm_compute. reflexivity.
    - intros H. apply Z.leb_le in H. vm_compute in H. discriminate. }
  assert (Hr : 0 <= -9 + 9 < 48) by lia.
  split; [split; [exact H0|split; [exact Hs|exact Hr]]|].
  destruct (doubling_raises_one_octave 261.63 (-9) H0 Hs Hr) as (name & Hl & E1 & E2).
  vm_compute in Hl. injection Hl as <-. split; [exact E1|exact E2].
Defined.

Lemma frequency_to_note_named f name octave :
  _frequency_to_note f = (Some name, Some octave) ->
  In name NOTE_NAMES /\ name <> ""%string /\ 0 <= octave <= 8.
Proof.
  destruct (Qlt_le_dec 0 f) as [H0|H0].
  - rewrite (frequency_to_note_checked f H0).
    pose proof (corrected_pitch_index f) as Hi.
    destruct (corrected_pitch f) as [[i o] fr]. cbn [fst snd] in *.
    destruct ((o <? 0) || (8 <? o)) eqn:E; [discriminate|].
    apply orb_false_iff in E as [E1 E2].
    apply Z.ltb_ge in E1. apply Z.ltb_ge in E2.
    destruct (NOTE_NAMES_lookup i Hi) as (nm & Hl & Hin & Hne).
    rewrite Hl. intros [= <- <-]. repeat split; assumption.
  - unfold _frequency_to_note.
    rewrite (proj2 (Qle_bool_iff f 0) H0). discriminate.
Qed.

(** ** More on the duration quantizer *)

Lemma Qabs_le_elim a b :
  (Qabs a <= Qabs b)%Q ->
  ((a <= b)%Q \/ (a <= - b)%Q) /\ ((- a <= b)%Q \/ (- a <= - b)%Q).
Proof.
  intros H.
  assert (H1 : (a <= Qabs a)%Q) by apply Qle_Qabs.
  assert (H2 : (- a <= Qabs a)%Q) by (rewrite <- Qabs_opp; apply Qle_Qabs).
  destruct (Qlt_le_dec b 0) as [Hb|Hb].
  - rewrite (Qabs_neg b) in H by lra. split; right; lra.
  - rewrite (Qabs_pos b) in H by lra. split; left; lra.
Qed.

Lemma nearest_standard_cases d :
  let q := nearest_standard d in
  (q = 4.0 \/ q = 2.0 \/ q = 1.0 \/ q = 0.5 \/ q = 0.25 \/ q = 0.125 \/ q = 0.0625)%Q /\
  (Qabs (q - d) <= Qabs (4.0 - d))%Q /\
  (Qabs (q - d) <= Qabs (2.0 - d))%Q /\
  (Qabs (q - d) <= Qabs (1.0 - d))%Q /\
  (Qabs (q - d) <= Qabs (0.5 - d))%Q /\
  (Qabs (q - d) <= Qabs (0.25 - d))%Q /\
  (Qabs (q - d) <= Qabs (0.125 - d))%Q /\
  (Qabs (q - d) <= Qabs (0.0625 - d))%Q.
Proof.
  intros q. split.
  - pose proof (nearest_standard_in d) as H. fold q in H.
    unfold standard_durations in H. cbn [In] in H.
    intuition (auto; try contradiction).
  - repeat split; apply nearest_standard_min; unfold standard_durations; cbn [In]; tauto.
Qed.

(** A retained duration (at least 0.1 s) is never quantized below
    0.125 s. *)
Lemma quantize_duration_of_retained d :
  (0.1 <= d)%Q -> (0.125 <= quantize_duration d)%Q.
Proof.
  intros Hd. unfold quantize_duration. cbv zeta.
  destruct (nearest_standard_cases d) as (Hq & _ & _ & _ & _ & _ & H6 & _).
  apply Qabs_le_elim in H6. 
  set (q := nearest_standard d) in *.
  destruct (Qlt_bool q (d * 0.7)) eqn:E.
  - apply Qlt_bool_iff in E.
    destruct Hq as [Hq|[Hq|[Hq|[Hq|[Hq|[Hq|Hq]]]]]]; rewrite Hq in *; lra.
  - destruct Hq as [Hq|[Hq|[Hq|[Hq|[Hq|[Hq|Hq]]]]]]; rewrite Hq in *; lra.
Qed.

(** X7.  The duration quantizer never shortens a duration by more than
    30 %, and never lengthens a duration of 0.0625 s or more by more than
    a third. *)
Theorem quantize_duration_stays_close (d : Q) :
  (d * 0.7 <= quantize_duration d)%Q /\
  ((0.0625 <= d)%Q -> (quantize_duration d <= (4 # 3) * d)%Q).
Proof.
  unfold quantize_duration. cbv zeta.
  destruct (nearest_standard_cases d) as (Hq & H1 & H2 & H3 & H4 & H5 & H6 & H7).
  apply Qabs_le_elim in H1, H2, H3, H4, H5, H6, H7.
  set (q := nearest_standard d) in *.
  destruct (Qlt_bool q (d * 0.7)) eqn:E.
  - apply Qlt_bool_iff in E. split.
    + destruct Hq as [Hq|[Hq|[Hq|[Hq|[Hq|[Hq|Hq]]]]]]; rewrite Hq in *; lra.
    + intros Hd. lra.
  - apply Qlt_bool_false_iff in E. split; [exact E|].
    intros Hd.
    destruct Hq as [Hq|[Hq|[Hq|[Hq|[Hq|[Hq|Hq]]]]]]; rewrite Hq in *; lra.
Qed.

(** ** More on the note segmenter *)

Lemma extract_notes_unfold pyin sr hop fmin fmax :
  extract_notes_from_piano_audio pyin sr hop fmin fmax =
  map quantize_note (filter_onsets (sort_by_time (segmented_notes pyin sr hop fmin fmax))).
Proof. reflexivity. Qed.

(** On the notes of the segmentation loop the sort and the onset filter
    change nothing. *)
Lemma sort_and_filter_identity pyin sr hop fmin fmax :
  filter_onsets (sort_by_time (segmented_notes pyin sr hop fmin fmax)) =
  segmented_notes pyin sr hop fmin fmax.
Proof.
  pose proof (segmented_notes_spaced pyin sr hop fmin fmax) as H.
  rewrite (sort_by_time_spaced _ H). apply filter_onsets_spaced. exact H.
Qed.

(** The pitch a frame resolves to is the pitch mapper's answer for the
    frequency that is kept, the frame's own or its double, and that
    frequency is within the bounds. *)
Lemma resolve_frame_pitch_sound lo hi f name o f' :
  Qle_bool lo f = true -> Qle_bool f hi = true ->
  resolve_frame_pitch lo hi f = Some (name, o, f') ->
  _frequency_to_note f' = (Some name, Some o) /\
  (lo <= f')%Q /\ (f' <= hi)%Q.
Proof.
  intros Hlo Hhi. unfold resolve_frame_pitch.
  destruct (_frequency_to_note f) as [[nm|] [oc|]] eqn:E1; try discriminate.
  destruct (String.eqb nm ""); [discriminate|].
  destruct (Z.ltb_spec oc 1) as [Hlow|Hlow].
  - destruct (Qle_bool lo (f * 2.0)) eqn:D1; [|discriminate].
    destruct (Qle_bool (f * 2.0) hi) eqn:D2; [|discriminate]. cbn [andb].
    destruct (_frequency_to_note (f * 2.0)) as [[nm2|] [oc2|]] eqn:E2; try discriminate.
    destruct (negb (String.eqb nm2 "")); simpl; [|discriminate].
    destruct (Z.leb_spec 1 oc2); simpl; [|discriminate].
    destruct (Z.leb_spec oc2 7); simpl; [|discriminate].
    destruct (Z.ltb_spec 7 oc2); [discriminate|].
    intros [= <- <- <-]. rewrite E2.
    split; [reflexivity|]. split; apply Qle_bool_iff; assumption.
  - destruct (Z.ltb_spec 7 oc); [discriminate|].
    intros [= <- <- <-]. rewrite E1.
    split; [reflexivity|]. split; apply Qle_bool_iff; assumption.
Qed.

Lemma close_note_started P ns c t :
  Forall (started P) ns -> started P (current_note c) ->
  Forall (started P) (close_note ns c t).
Proof.
  intros Hns Hc. unfold close_note.
  destruct (Qle_bool _ _); [|exact Hns].
  apply Forall_app. split; [exact Hns|].
  constructor; [exact Hc|constructor].
Qed.

Lemma segment_step_started P lo hi st i t d :
  (forall f name o f',
     d = (Some f, true) -> Qle_bool lo f = true -> Qle_bool f hi = true ->
     resolve_frame_pitch lo hi f = Some (name, o, f') -> P t name o f') ->
  seg_started P st -> seg_started P (segment_step lo hi st (i, (t, d))).
Proof.
  intros HP [Hns Hc]. destruct d as [f0 voiced]. unfold segment_step.
  assert (Hclose : seg_started P
            match current st with
            | Some c => SegState (close_note (notes st) c t) None
            | None => st
            end).
  { destruct (current st) as [c|] eqn:Ec.
    - split; simpl; [|discriminate].
      apply close_note_started; [exact Hns|apply Hc; reflexivity].
    - split; [exact Hns|]. intros c' Hc'. congruence. }
  destruct f0 as [f|]; [|exact Hclose].
  destruct voiced; cbn [andb]; [|exact Hclose].
  destruct (Qle_bool lo f) eqn:D1; cbn [andb]; [|exact Hclose].
  destruct (Qle_bool f hi) eqn:D2; [|exact Hclose].
  destruct (resolve_frame_pitch lo hi f) as [[[nm oc] fr]|] eqn:E;
    [|split; assumption].
  pose proof (HP f nm oc fr eq_refl D1 D2 E) as Hnew.
  destruct (current st) as [c|] eqn:Ec.
  - destruct (is_continuation c nm oc fr).
    + split; [exact Hns|]. intros c' Hc'. apply Hc. congruence.
    + split; simpl.
      * apply close_note_started; [exact Hns|apply Hc; reflexivity].
      * intros c' [= <-]. exact Hnew.
  - split; simpl; [exact Hns|].
    intros c' [= <-]. exact Hnew.
Qed.

Lemma segment_loop_started P lo hi frames st :
  Forall (fun fr : nat * (Q * (option Q * bool)) =>
            forall f name o f',
              snd (snd fr) = (Some f, true) ->
              Qle_bool lo f = true -> Qle_bool f hi = true ->
              resolve_frame_pitch lo hi f = Some (name, o, f') ->
              P (fst (snd fr)) name o f') frames ->
  seg_started P st -> seg_started P (fold_left (segment_step lo hi) frames st).
Proof.
  intros HF. revert st. induction HF as [|[i [t d]] frames Hfr HF IH]; intros st H; simpl;
    [exact H|].
  apply IH. apply segment_step_started; [|exact H].
  intros f name o f' Ed. apply (Hfr f name o f'). exact Ed.
Qed.

Lemma close_last_started P times st :
  seg_started P st -> Forall (started P) (close_last times st).
Proof.
  intros [Hns Hc]. unfold close_last.
  destruct (current st) as [c|]; [|exact Hns].
  destruct times as [|t0 rest]; [exact Hns|].
  apply close_note_started; [exact Hns|apply Hc; reflexivity].
Qed.

(** What holds of every frame that starts a note holds of every note of
    the loop. *)
Lemma segmented_notes_started P pyin sr hop fmin fmax :
  (forall i f name o f',
     Qle_bool (py_max fmin 60.0) f = true -> Qle_bool f (py_min fmax 2000.0) = true ->
     resolve_frame_pitch (py_max fmin 60.0) (py_min fmax 2000.0) f = Some (name, o, f') ->
     P (frames_to_time i sr hop) name o f') ->
  Forall (started P) (segmented_notes pyin sr hop fmin fmax).
Proof.
  intros HP. unfold segmented_notes.
  apply close_last_started. apply segment_loop_started.
  - apply List.Forall_forall. intros [i [t d]] Hin f name o f' Ed D1 D2 E. cbn [fst snd] in *.
    unfold enumerate in Hin. apply in_combine_r in Hin. apply in_combine_l in Hin.
    apply List.in_map_iff in Hin as (j & <- & _).
    apply (HP j f name o f'); assumption.
  - split; [constructor|]. intros c Hc. discriminate.
Qed.

Lemma extracted_notes_started P pyin sr hop fmin fmax :
  (forall i f name o f',
     Qle_bool (py_max fmin 60.0) f = true -> Qle_bool f (py_min fmax 2000.0) = true ->
     resolve_frame_pitch (py_max fmin 60.0) (py_min fmax 2000.0) f = Some (name, o, f') ->
     P (frames_to_time i sr hop) name o f') ->
  Forall (started P) (extract_notes_from_piano_audio pyin sr hop fmin fmax).
Proof.
  intros HP. rewrite extract_notes_unfold, sort_and_filter_identity.
  apply List.Forall_forall. intros n Hin. apply List.in_map_iff in Hin as (n0 & <- & Hin).
  pose proof (segmented_notes_started P pyin sr hop fmin fmax HP) as H.
  rewrite List.Forall_forall in H. exact (H n0 Hin).
Qed.

Lemma py_max_ge_r a b : (b <= py_max a b)%Q.
Proof.
  unfold py_max. destruct (Qlt_bool a b) eqn:E; [apply Qle_refl|].
  apply Qlt_bool_false_iff in E. exact E.
Qed.

Lemma py_min_le_r a b : (py_min a b <= b)%Q.
Proof.
  unfold py_min. destruct (Qlt_bool b a) eqn:E; [apply Qle_refl|].
  apply Qlt_bool_false_iff in E. exact E.
Qed.

(** X5.  Every note returned by the extractor carries a frequency within
    the effective bounds [max(fmin, 60)] and [min(fmax, 2000)], hence
    between 60 and 2000 Hz whatever bounds are passed, and its name and
    octave are the pitch mapper's answer for that frequency; the name is
    one of the twelve note names. *)
Theorem extracted_notes_pitch_and_frequency pyin sr hop fmin fmax :
  Forall (fun n =>
            _frequency_to_note (n_freq n) = (Some (n_name n), Some (n_octave n)) /\
            In (n_name n) NOTE_NAMES /\
            (py_max fmin 60.0 <= n_freq n)%Q /\ (n_freq n <= py_min fmax 2000.0)%Q /\
            (60 <= n_freq n)%Q /\ (n_freq n <= 2000)%Q)
    (extract_notes_from_piano_audio pyin sr hop fmin fmax).
Proof.
  apply (extracted_notes_started
           (fun _ name o f =>
              _frequency_to_note f = (Some name, Some o) /\
              In name NOTE_NAMES /\
              (py_max fmin 60.0 <= f)%Q /\ (f <= py_min fmax 2000.0)%Q /\
              (60 <= f)%Q /\ (f <= 2000)%Q)).
  intros i f name o f' D1 D2 E.
  destruct (resolve_frame_pitch_sound _ _ _ _ _ _ D1 D2 E) as (Em & Hlo & Hhi).
  destruct (frequency_to_note_named _ _ _ Em) as (Hin & _ & _).
  repeat split; try assumption.
  - eapply Qle_trans; [|exact Hlo].
    eapply Qle_trans; [|apply py_max_ge_r]. unfold Qle. simpl. lia.
  - eapply Qle_trans; [exact Hhi|].
    eapply Qle_trans; [apply py_min_le_r|]. unfold Qle. simpl. lia.
Qed.

Lemma frames_to_time_nonneg i sr hop : (0 <= frames_to_time i sr hop)%Q.
Proof. unfold frames_to_time, Qle. simpl. lia. Qed.

Lemma StronglySorted_map_quantize l :
  StronglySorted onset_spaced l -> StronglySorted onset_spaced (map quantize_note l).
Proof.
  induction 1 as [|a l Hl IH Ha]; simpl; constructor; [exact IH|].
  apply List.Forall_forall. intros b Hb. apply List.in_map_iff in Hb as (b0 & <- & Hb0).
  rewrite List.Forall_forall in Ha. exact (Ha b0 Hb0).
Qed.

(** X6.  The notes are returned in onset order, no onset is negative and
    two consecutive onsets (in fact any two) are at least 0.1 s apart. *)
Theorem extracted_onsets_are_spaced pyin sr hop fmin fmax :
  StronglySorted onset_spaced (extract_notes_from_piano_audio pyin sr hop fmin fmax) /\
  Forall (fun n => (0 <= n_time n)%Q)
    (extract_notes_from_piano_audio pyin sr hop fmin fmax).
Proof.
  split.
  - rewrite extract_notes_unfold, sort_and_filter_identity.
    apply StronglySorted_map_quantize. apply segmented_notes_spaced.
  - apply (extracted_notes_started (fun t _ _ _ => (0 <= t)%Q)).
    intros i f name o f' _ _ _. apply frames_to_time_nonneg.
Qed.

Lemma close_note_durations ns c t :
  Forall (fun n => (min_note_duration <= n_duration n)%Q) ns ->
  Forall (fun n => (min_note_duration <= n_duration n)%Q) (close_note ns c t).
Proof.
  intros Hns. unfold close_note.
  destruct (Qle_bool _ _) eqn:E; [|exact Hns].
  apply Forall_app. split; [exact Hns|].
  constructor; [|constructor]. cbn [n_duration]. apply Qle_bool_iff. exact E.
Qed.

Lemma segment_step_durations lo hi st frame :
  Forall (fun n => (min_note_duration <= n_duration n)%Q) (notes st) ->
  Forall (fun n => (min_note_duration <= n_duration n)%Q)
    (notes (segment_step lo hi st frame)).
Proof.
  intros Hns. destruct frame as [i [time [f0 voiced]]].
  unfold segment_step.
  set (valid := match f0 with Some _ => _ | None => _ end). clearbody valid.
  destruct valid as [freq|].
  - destruct (resolve_frame_pitch lo hi freq) as [[[nm oc] fr]|]; [|exact Hns].
    destruct (current st) as [c|].
    + destruct (is_continuation c nm oc fr); [exact Hns|].
      simpl. apply close_note_durations. exact Hns.
    + simpl. exact Hns.
  - destruct (current st) as [c|]; [|exact Hns].
    simpl. apply close_note_durations. exact Hns.
Qed.

Lemma segmented_notes_durations pyin sr hop fmin fmax :
  Forall (fun n => (min_note_duration <= n_duration n)%Q)
    (segmented_notes pyin sr hop fmin fmax).
Proof.
  unfold segmented_notes.
  set (frames := enumerate _). clearbody frames.
  set (times := map _ _). clearbody times.
  set (lo := py_max fmin 60.0). set (hi := py_min fmax 2000.0).
  assert (G : forall st,
             Forall (fun n => (min_note_duration <= n_duration n)%Q) (notes st) ->
             Forall (fun n => (min_note_duration <= n_duration n)%Q)
               (notes (fold_left (segment_step lo hi) frames st))).
  { induction frames as [|fr frames IH]; intros st H; simpl; [exact H|].
    apply IH. apply segment_step_durations. exact H. }
  specialize (G (SegState [] None) (List.Forall_nil _)).
  unfold close_last.
  destruct (current _) as [c|]; [|exact G].
  destruct times as [|t0 rest]; [exact G|].
  apply close_note_durations. exact G.
Qed.

(** C8.  The quantizer replaces a measured duration [d >= 0] by the
    element [q] of [{4.0, 2.0, 1.0, 0.5, 0.25, 0.125, 0.0625}] that
    minimises [|q - d|], except that [d] is kept when [q < 0.7 * d]: [d]
    is kept when [q] is below [0.7 * d] by more than the rounding of the
    product of line 369, [q] is taken when it is above by more than that,
    and the result is one of the two in between.  A note's other fields
    are untouched.  The extractor returns the notes of the loop, sorted
    and filtered, quantized this way, and each of them was measured at
    0.1 s or more. *)
Theorem quantizer_snaps_to_nearest_standard :
  (forall d, (0 <= d)%Q ->
     let q := nearest_standard d in
     In q [4.0; 2.0; 1.0; 0.5; 0.25; 0.125; 0.0625]%Q /\
     (forall q', In q' [4.0; 2.0; 1.0; 0.5; 0.25; 0.125; 0.0625]%Q ->
        (Qabs (q - d) <= Qabs (q' - d))%Q) /\
     ((q * (1 + rounding_margin) < d * 0.7)%Q -> quantize_duration d = d) /\
     ((d * 0.7 * (1 + rounding_margin) <= q)%Q -> quantize_duration d = q) /\
     (quantize_duration d = q \/ quantize_duration d = d)) /\
  (forall n, quantize_note n =
     Note (n_time n) (n_name n) (n_octave n) (n_freq n)
          (quantize_duration (n_duration n))) /\
  (forall pyin sr hop fmin fmax,
     let retained :=
       filter_onsets (sort_by_time (segmented_notes pyin sr hop fmin fmax)) in
     extract_notes_from_piano_audio pyin sr hop fmin fmax =
       map quantize_note retained /\
     Forall (fun n => (0.1 <= n_duration n)%Q) retained).
Proof.
  split; [|split].
  - intros d Hd q. split; [apply nearest_standard_in|].
    split; [intros q'; apply nearest_standard_min|].
    apply quantize_duration_margins. exact Hd.
  - reflexivity.
  - intros pyin sr hop fmin fmax retained. split; [reflexivity|].
    subst retained. rewrite sort_and_filter_identity.
    apply segmented_notes_durations.
Qed.

(** X8.  Every note returned by the extractor lasts at least 0.125 s: the
    loop keeps no note shorter than 0.1 s and the quantizer then never
    picks 0.0625 s. *)
Theorem extracted_durations_at_least_an_eighth pyin sr hop fmin fmax :
  Forall (fun n => (0.125 <= n_duration n)%Q)
    (extract_notes_from_piano_audio pyin sr hop fmin fmax).
Proof.
  rewrite extract_notes_unfold, sort_and_filter_identity.
  apply List.Forall_forall. intros n Hin.
  apply List.in_map_iff in Hin as (n0 & <- & Hin).
  pose proof (segmented_notes_durations pyin sr hop fmin fmax) as H.
  rewrite List.Forall_forall in H.
  cbn [quantize_note n_duration].
  apply quantize_duration_of_retained. exact (H n0 Hin).
Qed.

(** *** Extractor and encoder together *)

Lemma py_max_ge_l a b : (a <= py_max a b)%Q.
Proof.
  unfold py_max. destruct (Qlt_bool a b) eqn:E; [|apply Qle_refl].
  apply Qlt_bool_iff in E. apply Qlt_le_weak. exact E.
Qed.

Lemma beats_nonneg tempo t :
  0 <= tempo -> (0 <= t)%Q -> (0 <= (t * inject_Z tempo) / 60.0)%Q.
Proof.
  intros Ht H. apply Qle_shift_div_l; [reflexivity|]. rewrite Qmult_0_l.
  apply Qmult_le_0_compat; [exact H|]. unfold Qle. simpl. lia.
Qed.

(** A note in the keyboard range, with one of the twelve names and an
    onset that is not negative, gives exactly one event. *)
Lemma note_events_single tempo n :
  0 <= tempo -> 1 <= n_octave n <= 7 -> In (n_name n) NOTE_NAMES -> (0 <= n_time n)%Q ->
  exists ev, note_events tempo n = Some [ev] /\ 24 <= ev_pitch ev <= 107.
Proof.
  intros Ht Ho Hn Hx. unfold note_events.
  destruct (Z.ltb_spec (n_octave n) 1); [lia|].
  destruct (Z.ltb_spec 7 (n_octave n)); [lia|].
  destruct (dict_get_note_names _ Hn) as (offset & -> & Hoff).
  rewrite (proj2 (Qle_bool_iff _ _) (beats_nonneg tempo (n_time n) Ht Hx)).
  assert (Hd : Qlt_bool 0 (py_max 0.125 (py_min ((n_duration n * inject_Z tempo) / 60.0) 16.0)) = true).
  { apply Qlt_bool_iff. eapply Qlt_le_trans; [|apply py_max_ge_l]. reflexivity. }
  rewrite Hd. cbn [andb]. eexists. split; [reflexivity|]. cbn [ev_pitch]. lia.
Qed.

Lemma notes_to_midi_events_all tempo notes :
  0 <= tempo ->
  Forall (fun n => 1 <= n_octave n <= 7 /\ In (n_name n) NOTE_NAMES /\ (0 <= n_time n)%Q) notes ->
  exists events,
    notes_to_midi_events tempo notes = Some events /\
    length events = length notes /\
    Forall (fun ev => 24 <= ev_pitch ev <= 107) events.
Proof.
  intros Ht. induction 1 as [|n notes (Ho & Hn & Hx) Hrest IH]; simpl.
  - exists []. repeat split; constructor.
  - destruct (note_events_single tempo n Ht Ho Hn Hx) as (ev & -> & Hp).
    destruct IH as (events & -> & Hl & Hall).
    exists (ev :: events). simpl. repeat split; [congruence|].
    constructor; assumption.
Qed.

(** X9.  At a positive tempo that converts to a double, the encoder
    accepts everything the extractor returns, as long as the onsets in
    beats stay within the doubles: the tempo event is set, no note name
    is unknown to the encoder, no note is skipped, and the MIDI events
    are as many as the notes, with pitches between 24 (C1) and 107
    (B7). *)
Theorem extracted_notes_are_all_encoded pyin sr hop fmin fmax (tempo : Z) :
  0 < tempo -> tempo_in_range tempo ->
  Forall (fun n => (beats tempo (n_time n) <= 1e300)%Q)
    (extract_notes_from_piano_audio pyin sr hop fmin fmax) ->
  exists events,
    midi_file_events tempo
      (extract_notes_from_piano_audio pyin sr hop fmin fmax) =
      Some (Z.quot 60000000 tempo, events) /\
    length events = length (extract_notes_from_piano_audio pyin sr hop fmin fmax) /\
    Forall (fun ev => 24 <= ev_pitch ev <= 107) events.
Proof.
  intros Ht _ _.
  destruct (notes_to_midi_events_all tempo
              (extract_notes_from_piano_audio pyin sr hop fmin fmax))
    as (events & Hev & Hlen & Hall); [lia| |].
  - apply (extracted_notes_started
             (fun t name o _ => 1 <= o <= 7 /\ In name NOTE_NAMES /\ (0 <= t)%Q)).
    intros i f name o f' D1 D2 E.
    destruct (resolve_frame_pitch_sound _ _ _ _ _ _ D1 D2 E) as (Em & _ & _).
    destruct (frequency_to_note_named _ _ _ Em) as (Hin & _ & _).
    repeat split; try assumption.
    + apply (resolve_frame_pitch_range _ _ _ _ _ _ E).
    + apply (resolve_frame_pitch_range _ _ _ _ _ _ E).
    + apply frames_to_time_nonneg.
  - exists events. split; [|split; assumption].
    unfold midi_file_events, addTempo.
    destruct (Z.eqb_spec tempo 0) as [E0|_]; [lia|].
    rewrite Hev. reflexivity.
Qed.

Lemma extracted_notes_are_all_encoded_witness :
  (0 < 120 /\ tempo_in_range 120 /\
   Forall (fun n => (beats 120 (n_time n) <= 1e300)%Q)
     (extract_notes_from_piano_audio
        (voiced_frames 261.63 12 ++ unvoiced_frames 1) 16000 160 27.5 4186.0)) /\
  exists events,
    midi_file_events 120
      (extract_notes_from_piano_audio
         (voiced_frames 261.63 12 ++ unvoiced_frames 1) 16000 160 27.5 4186.0)
      = Some (Z.quot 60000000 120, events) /\
    length events =
      length (extract_notes_from_piano_audio
                (voiced_frames 261.63 12 ++ unvoiced_frames 1) 16000 160 27.5 4186.0) /\
    Forall (fun ev => 24 <= ev_pitch ev <= 107) events.
Proof.
  assert (H0 : 0 < 120) by lia.
  assert (H1 : tempo_in_range 120)
    by (split; apply Qle_bool_iff; vm_compute; reflexivity).
  assert (H2 : Forall (fun n => (beats 120 (n_time n) <= 1e300)%Q)
     (extract_notes_from_piano_audio
        (voiced_frames 261.63 12 ++ unvoiced_frames 1) 16000 160 27.5 4186.0)).
  { apply List.Forall_forall. intros n Hin. vm_compute in Hin.
    destruct Hin as [<-|[]]. apply Qle_bool_iff. vm_compute. reflexivity. }
  split; [split; [exact H0|split; [exact H1|exact H2]]|].
  exact (extracted_notes_are_all_encoded
           (voiced_frames 261.63 12 ++ unvoiced_frames 1) 16000 160 27.5 4186.0 120
           H0 H1 H2).
Defined.

(** *** Streams without a valid frame, and a sustained pitch *)

Lemma segment_step_invalid lo hi st i t d :
  valid_frame lo hi d = false -> current st = None ->
  segment_step lo hi st (i, (t, d)) = st.
Proof.
  intros Hv Hc. destruct d as [f0 voiced]. unfold segment_step.
  unfold valid_frame in Hv. cbn [fst snd] in Hv.
  destruct f0 as [f|]; [rewrite Hv|]; rewrite Hc; reflexivity.
Qed.

Lemma segment_loop_invalid lo hi frames st :
  Forall (fun fr : nat * (Q * (option Q * bool)) =>
            valid_frame lo hi (snd (snd fr)) = false) frames ->
  current st = None ->
  fold_left (segment_step lo hi) frames st = st.
Proof.
  intros HF. revert st.
  induction HF as [|[i [t d]] frames Hfr HF IH]; intros st Hc; cbn [fold_left];
    [reflexivity|].
  cbn [snd] in Hfr. rewrite (segment_step_invalid lo hi st i t d Hfr Hc).
  apply IH. exact Hc.
Qed.

Lemma segmented_notes_no_valid_frame pyin sr hop fmin fmax :
  Forall (fun fr => valid_frame (py_max fmin 60.0) (py_min fmax 2000.0) fr = false) pyin ->
  segmented_notes pyin sr hop fmin fmax = [].
Proof.
  intros H. unfold segmented_notes. rewrite segment_loop_invalid; [| |reflexivity].
  - reflexivity.
  - apply List.Forall_forall. intros [i [t d]] Hin. cbn [snd].
    unfold enumerate in Hin. apply in_combine_r in Hin. apply in_combine_r in Hin.
    rewrite List.Forall_forall in H. exact (H d Hin).
Qed.

(** X10.  When no frame is voiced with a frequency within the effective
    bounds, no note is returned. *)
Theorem no_valid_frame_no_note pyin sr hop fmin fmax :
  Forall (fun fr => valid_frame (py_max fmin 60.0) (py_min fmax 2000.0) fr = false) pyin ->
  extract_notes_from_piano_audio pyin sr hop fmin fmax = [].
Proof.
  intros H. rewrite extract_notes_unfold.
  rewrite (segmented_notes_no_valid_frame pyin sr hop fmin fmax H). reflexivity.
Qed.

Lemma no_valid_frame_no_note_witness :
  Forall (fun fr => valid_frame (py_max 27.5 60.0) (py_min 4186.0 2000.0) fr = false)
    [(Some 440.0%Q, false); (None, true); (Some 50.0%Q, true); (Some 2500.0%Q, true)] /\
  extract_notes_from_piano_audio
    [(Some 440.0%Q, false); (None, true); (Some 50.0%Q, true); (Some 2500.0%Q, true)]
    16000 160 27.5 4186.0 = [].
Proof.
  assert (H : Forall (fun fr => valid_frame (py_max 27.5 60.0) (py_min 4186.0 2000.0) fr = false)
    [(Some 440.0%Q, false); (None, true); (Some 50.0%Q, true); (Some 2500.0%Q, true)]).
  { repeat constructor. }
  split; [exact H|].
  exact (no_valid_frame_no_note _ 16000 160 27.5 4186.0 H).
Defined.

Lemma frames_of_cons sr hop a l k :
  frames_of sr hop (a :: l) k =
  (k, (frames_to_time k sr hop, a)) :: frames_of sr hop l (S k).
Proof. reflexivity. Qed.

Lemma frames_of_app sr hop l1 l2 k :
  frames_of sr hop (l1 ++ l2) k =
  frames_of sr hop l1 k ++ frames_of sr hop l2 (k + length l1).
Proof.
  revert k. induction l1 as [|a l1 IH]; intros k.
  - simpl. rewrite Nat.add_0_r. reflexivity.
  - rewrite <- app_comm_cons, !frames_of_cons, IH. simpl.
    rewrite Nat.add_succ_r. reflexivity.
Qed.

Lemma enumerate_frames sr hop pyin :
  enumerate (combine (map (fun i => frames_to_time i sr hop) (seq 0 (length pyin))) pyin) =
  frames_of sr hop pyin 0.
Proof.
  unfold enumerate, frames_of. f_equal. f_equal.
  rewrite List.length_combine, List.length_map, List.length_seq. apply Nat.min_id.
Qed.

Lemma within_50_cents_same f : (0 < f)%Q -> within_50_cents (f / f) = true.
Proof.
  intros Hf.
  assert (E : (f / f == 1)%Q) by (apply Qmult_inv_r; lra).
  assert (E24 : ((f / f) ^ 24 == 1)%Q) by (rewrite E; reflexivity).
  unfold within_50_cents.
  rewrite (proj2 (Qlt_bool_iff 0 (f / f))) by (rewrite E; reflexivity).
  rewrite (proj2 (Qlt_bool_iff (1 # 2) ((f / f) ^ 24))) by (rewrite E24; reflexivity).
  rewrite (proj2 (Qlt_bool_iff ((f / f) ^ 24) 2)) by (rewrite E24; reflexivity).
  reflexivity.
Qed.

(** A frame that resolves to the pitch and frequency of the held note
    continues it. *)
Lemma is_continuation_same t name o f i :
  (0 < f)%Q ->
  is_continuation (OpenNote (Note t name o f 0.0) i t) name o f = true.
Proof.
  intros Hf. unfold is_continuation. cbn [current_note n_freq n_name n_octave].
  rewrite (proj2 (Qlt_bool_iff 0 f) Hf), (within_50_cents_same f Hf).
  rewrite String.eqb_refl, Z.eqb_refl. reflexivity.
Qed.

Lemma segment_step_continues lo hi st c i t f name o :
  Qle_bool lo f = true -> Qle_bool f hi = true ->
  resolve_frame_pitch lo hi f = Some (name, o, f) ->
  current st = Some c -> is_continuation c name o f = true ->
  segment_step lo hi st (i, (t, (Some f, true))) = st.
Proof.
  intros D1 D2 E Hc Hk. unfold segment_step.
  rewrite D1, D2. cbn [andb]. rewrite E, Hc, Hk. reflexivity.
Qed.

Lemma segment_loop_continues lo hi st c f name o sr hop n k :
  Qle_bool lo f = true -> Qle_bool f hi = true ->
  resolve_frame_pitch lo hi f = Some (name, o, f) ->
  current st = Some c -> is_continuation c name o f = true ->
  fold_left (segment_step lo hi) (frames_of sr hop (repeat (Some f, true) n) k) st = st.
Proof.
  intros D1 D2 E Hc Hk. revert k. induction n as [|n IH]; intros k; [reflexivity|].
  cbn [repeat]. rewrite frames_of_cons. cbn [fold_left].
  rewrite (segment_step_continues lo hi st c k _ f name o D1 D2 E Hc Hk).
  apply IH.
Qed.

Lemma segment_loop_unvoiced lo hi st sr hop m k :
  current st = None ->
  fold_left (segment_step lo hi) (frames_of sr hop (repeat (None, false) m) k) st = st.
Proof.
  intros Hc. apply segment_loop_invalid; [|exact Hc].
  apply List.Forall_forall. intros [i [t d]] Hin. cbn [snd].
  unfold frames_of in Hin. apply in_combine_r in Hin. apply in_combine_r in Hin.
  apply repeat_spec in Hin. subst d. reflexivity.
Qed.

(** The loop on [n] frames of one pitch followed by unvoiced frames. *)
Lemma segmented_notes_sustained f name o n m sr hop fmin fmax :
  _frequency_to_note f = (Some name, Some o) -> 1 <= o <= 7 ->
  (py_max fmin 60.0 <= f)%Q -> (f <= py_min fmax 2000.0)%Q ->
  segmented_notes (voiced_frames f (S n) ++ unvoiced_frames (S m)) sr hop fmin fmax =
  close_note []
    (OpenNote (Note (frames_to_time 0 sr hop) name o f 0.0) 0 (frames_to_time 0 sr hop))
    (frames_to_time (S n) sr hop).
Proof.
  intros Em Ho Hlo Hhi.
  set (lo := py_max fmin 60.0) in *. set (hi := py_min fmax 2000.0) in *.
  assert (D1 : Qle_bool lo f = true) by (apply Qle_bool_iff; exact Hlo).
  assert (D2 : Qle_bool f hi = true) by (apply Qle_bool_iff; exact Hhi).
  assert (Hf : (0 < f)%Q).
  { eapply Qlt_le_trans; [|exact Hlo].
    eapply Qlt_le_trans; [|apply py_max_ge_r]. reflexivity. }
  assert (E : resolve_frame_pitch lo hi f = Some (name, o, f)).
  { pose proof (resolve_frame_pitch_cases lo hi f) as C. rewrite Em in C.
    destruct (frequency_to_note_named f name o Em) as (_ & Hne & _).
    destruct (C Hne) as (_ & _ & C3). exact (C3 Ho). }
  unfold segmented_notes. fold lo. fold hi.
  rewrite enumerate_frames.
  unfold voiced_frames, unvoiced_frames.
  rewrite frames_of_app. rewrite fold_left_app.
  cbn [repeat]. rewrite (frames_of_cons sr hop (Some f, true)). cbn [fold_left].
  set (c := OpenNote (Note (frames_to_time 0 sr hop) name o f 0.0) 0 (frames_to_time 0 sr hop)).
  assert (S1 : segment_step lo hi (SegState [] None)
                 (0%nat, (frames_to_time 0 sr hop, (Some f, true))) =
               SegState [] (Some c)).
  { unfold segment_step. rewrite D1, D2. cbn [andb]. rewrite E. reflexivity. }
  rewrite S1.
  rewrite (segment_loop_continues lo hi (SegState [] (Some c)) c f name o sr hop n 1 D1 D2 E
             eq_refl (is_continuation_same _ name o f 0 Hf)).
  rewrite (frames_of_cons sr hop (None, false)). cbn [fold_left].
  assert (S2 : segment_step lo hi (SegState [] (Some c))
                 ((0 + length ((Some f, true) :: repeat (Some f, true) n))%nat,
                  (frames_to_time (0 + length ((Some f, true) :: repeat (Some f, true) n)) sr hop,
                   (None, false))) =
               SegState (close_note [] c (frames_to_time (S n) sr hop)) None).
  { cbn [length]. rewrite repeat_length. reflexivity. }
  rewrite S2.
  rewrite segment_loop_unvoiced by reflexivity.
  unfold close_last. reflexivity.
Qed.

(** X11.  A pitch held over a run of voiced frames and followed by an
    unvoiced frame is returned as one note: it starts at the first frame
    of the run, has the frequency, name and octave of the run, and its
    duration is the quantized length of the run.  A run shorter than
    0.1 s gives no note. *)
Theorem sustained_pitch_is_one_note (f : Q) (name : string) (o : Z) (n m : nat)
  (sr hop : positive) (fmin fmax : Q) :
  _frequency_to_note f = (Some name, Some o) -> 1 <= o <= 7 ->
  (py_max fmin 60.0 <= f)%Q -> (f <= py_min fmax 2000.0)%Q ->
  let run := (frames_to_time (S n) sr hop - frames_to_time 0 sr hop)%Q in
  extract_notes_from_piano_audio
    (voiced_frames f (S n) ++ unvoiced_frames (S m)) sr hop fmin fmax =
  if Qle_bool 0.1 run
  then [Note (frames_to_time 0 sr hop) name o f (quantize_duration run)]
  else [].
Proof.
  intros Em Ho Hlo Hhi run.
  rewrite extract_notes_unfold, sort_and_filter_identity.
  rewrite (segmented_notes_sustained f name o n m sr hop fmin fmax Em Ho Hlo Hhi).
  unfold close_note. cbn [current_note_start_time current_note]. fold run.
  change min_note_duration with 0.1%Q.
  destruct (Qle_bool 0.1 run); reflexivity.
Qed.

Lemma sustained_pitch_is_one_note_witness :
  (_frequency_to_note 261.63 = (Some "C"%string, Some 4) /\ 1 <= 4 <= 7 /\
   (py_max 27.5 60.0 <= 261.63)%Q /\ (261.63 <= py_min 4186.0 2000.0)%Q) /\
  map (fun x => (Qred (n_time x), n_name x, n_octave x, Qred (n_duration x)))
    (extract_notes_from_piano_audio
       (voiced_frames 261.63 (S 11) ++ unvoiced_frames (S 0)) 16000 160 27.5 4186.0) =
  [(0%Q, "C"%string, 4, (1 # 8)%Q)].
Proof.
  assert (Em : _frequency_to_note 261.63 = (Some "C"%string, Some 4))
    by (vm_compute; reflexivity).
  assert (Ho : 1 <= 4 <= 7) by lia.
  assert (Hlo : (py_max 27.5 60.0 <= 261.63)%Q)
    by (apply Qle_bool_iff; vm_compute; reflexivity).
  assert (Hhi : (261.63 <= py_min 4186.0 2000.0)%Q)
    by (apply Qle_bool_iff; vm_compute; reflexivity).
  split; [repeat split; try assumption; lia|].
  rewrite (sustained_pitch_is_one_note 261.63 "C" 4 11 0 16000 160 27.5 4186.0
             Em Ho Hlo Hhi).
  vm_compute. reflexivity.
Defined.

(** ** The helpers [_find_peaks] and [_estimate_note_duration] *)

Lemma is_peak_true array threshold i :
  is_peak array threshold i = true <->
  exists x before after,
    array !! i = Some x /\ array !! (i - 1)%nat = Some before /\
    array !! (i + 1)%nat = Some after /\
    (threshold < x)%Q /\ (before < x)%Q /\ (after < x)%Q.
Proof.
  unfold is_peak. split.
  - destruct (array !! i) as [x|]; [|discriminate].
    destruct (array !! (i - 1)%nat) as [b|]; [|discriminate].
    destruct (array !! (i + 1)%nat) as [a|]; [|discriminate].
    intros H. apply andb_true_iff in H as [H H3]. apply andb_true_iff in H as [H1 H2].
    exists x, b, a. repeat split; try reflexivity; apply Qlt_bool_iff; assumption.
  - intros (x & b & a & -> & -> & -> & H1 & H2 & H3).
    rewrite !(proj2 (Qlt_bool_iff _ _)) by assumption. reflexivity.
Qed.

(** X12.  [_find_peaks] returns exactly the indices that have both
    neighbours and hold a value above the threshold and strictly above
    both neighbours; the first and the last index are never returned. *)
Theorem find_peaks_characterised (array : list Q) (threshold : Q) (i : nat) :
  In i (_find_peaks array threshold) <->
  (1 <= i)%nat /\ (i + 1 < length array)%nat /\
  exists x before after,
    array !! i = Some x /\ array !! (i - 1)%nat = Some before /\
    array !! (i + 1)%nat = Some after /\
    (threshold < x)%Q /\ (before < x)%Q /\ (after < x)%Q.
Proof.
  unfold _find_peaks. rewrite List.filter_In, List.in_seq, is_peak_true. split.
  - intros [[H1 H2] H]. repeat split; [exact H1|lia|exact H].
  - intros (H1 & H2 & H). split; [lia|exact H].
Qed.

Lemma peaks_not_adjacent array threshold i :
  is_peak array threshold i = true -> is_peak array threshold (S i) = true -> False.
Proof.
  rewrite !is_peak_true.
  intros (x & b & a & Ex & _ & Ea & _ & _ & H3) (x' & b' & a' & Ex' & Eb' & _ & _ & H2' & _).
  replace (S i - 1)%nat with i in Eb' by lia.
  replace (i + 1)%nat with (S i) in Ea by lia.
  rewrite Ex in Eb'. rewrite Ex' in Ea.
  injection Eb' as <-. injection Ea as <-.
  exact (Qlt_irrefl _ (Qlt_trans _ _ _ H3 H2')).
Qed.

(** X13.  The peaks are returned in increasing order and no two of them
    are adjacent indices. *)
Theorem find_peaks_increasing_and_apart (array : list Q) (threshold : Q) :
  StronglySorted (fun i j => (i + 1 < j)%nat) (_find_peaks array threshold).
Proof.
  unfold _find_peaks.
  enough (G : forall n k,
             StronglySorted (fun i j => (i + 1 < j)%nat)
               (List.filter (is_peak array threshold) (seq k n))) by apply G.
  induction n as [|n IH]; intros k; simpl; [constructor|].
  destruct (is_peak array threshold k) eqn:Ek; [|apply IH].
  constructor; [apply IH|].
  apply List.Forall_forall. intros j Hj.
  apply List.filter_In in Hj as [Hj Hp]. apply List.in_seq in Hj.
  destruct (Nat.eq_dec j (S k)) as [->|Hne]; [|lia].
  exfalso. exact (peaks_not_adjacent array threshold k Ek Hp).
Qed.

Lemma clamp_quarter_to_four x :
  (0.25 <= py_max 0.25 (py_min x 4.0))%Q /\ (py_max 0.25 (py_min x 4.0) <= 4.0)%Q.
Proof.
  unfold py_max, py_min.
  destruct (Qlt_bool 4.0 x) eqn:E1.
  - destruct (Qlt_bool 0.25 4.0); split; lra.
  - apply Qlt_bool_false_iff in E1.
    destruct (Qlt_bool 0.25 x) eqn:E2.
    + apply Qlt_bool_iff in E2. split; lra.
    + split; lra.
Qed.

(** X14.  Whatever the pitch track and the start index, the estimated
    duration lies between 0.25 s and 4 s; it is 0.5 s when the start
    index is the last frame or beyond, or holds a NaN. *)
Theorem estimate_note_duration_bounds (f0_array : list (option Q)) (start_idx : nat)
  (hop_length sr : positive) :
  (0.25 <= _estimate_note_duration f0_array start_idx hop_length sr)%Q /\
  (_estimate_note_duration f0_array start_idx hop_length sr <= 4.0)%Q /\
  ((length f0_array <= start_idx + 1)%nat \/ f0_array !! start_idx = Some None ->
   _estimate_note_duration f0_array start_idx hop_length sr = 0.5%Q).
Proof.
  unfold _estimate_note_duration.
  destruct (Z.leb_spec (Z.of_nat (length f0_array) - 1) (Z.of_nat start_idx)) as [H|H].
  - repeat split; try lra. 
  - destruct (f0_array !! start_idx) as [[f|]|] eqn:E.
    + cbv zeta. split; [apply clamp_quarter_to_four|]. split; [apply clamp_quarter_to_four|].
      intros [Hl|Hn]; [lia|discriminate].
    + repeat split; lra.
    + repeat split; lra.
Qed.

Lemma count_stable_run start_freq tolerance run stop k :
  Forall (fun g => (Qabs (g - start_freq) <= tolerance)%Q) run ->
  (stop = [] \/ (exists rest, stop = None :: rest) \/
   exists g rest, stop = Some g :: rest /\ (tolerance < Qabs (g - start_freq))%Q) ->
  count_stable start_freq tolerance (map Some run ++ stop) k = (k + length run)%nat.
Proof.
  intros Hrun Hstop. revert k. induction Hrun as [|g run Hg Hrun IH]; intros k.
  - cbn [map app length]. rewrite Nat.add_0_r.
    destruct Hstop as [->|[(rest & ->)|(g & rest & -> & Hg)]]; cbn [count_stable];
      try reflexivity.
    rewrite (proj2 (Qle_bool_false_iff _ _) Hg). reflexivity.
  - cbn [map app length count_stable].
    rewrite (proj2 (Qle_bool_iff _ _) Hg), IH. lia.
Qed.

(** X15.  When the frequency at the start index is followed by a run of
    frames within 5 % of it, and the run ends with a NaN, a frame out of
    tolerance or the end of the track, the estimate is the length of the
    start frame and the run, in seconds, clamped to [0.25, 4].  The
    frames of the run are within the tolerance, and the frame that ends
    it is out of it, by more than the rounding of the product and of the
    difference of line 465. *)
Theorem estimate_note_duration_of_run (pre : list (option Q)) (start_freq : Q)
  (run : list Q) (stop : list (option Q)) (hop_length sr : positive) :
  float_range start_freq ->
  Forall (fun g =>
            (Qabs (g - start_freq) * (1 + rounding_margin) <= start_freq * 0.05)%Q) run ->
  (stop = [] \/ (exists rest, stop = None :: rest) \/
   exists g rest, stop = Some g :: rest /\
     (start_freq * 0.05 * (1 + rounding_margin) < Qabs (g - start_freq))%Q) ->
  map Some run ++ stop <> [] ->
  _estimate_note_duration (pre ++ Some start_freq :: map Some run ++ stop)
    (length pre) hop_length sr =
  py_max 0.25 (py_min (Segmenter.frames_to_time (S (length run)) sr hop_length) 4.0).
Proof.
  intros [Hlow _] Hrun Hstop Hne. unfold _estimate_note_duration.
  assert (H0 : (0 < start_freq)%Q) by (eapply Qlt_le_trans; [|exact Hlow]; reflexivity).
  pose proof rounding_margin_pos as Hm.
  assert (Hrun' : Forall (fun g => (Qabs (g - start_freq) <= start_freq * 0.05)%Q) run).
  { eapply List.Forall_impl; [|exact Hrun]. cbv beta. intros g Hg.
    pose proof (Qabs_nonneg (g - start_freq)) as Ha.
    generalize dependent (Qabs (g - start_freq)). intros a Hg Ha.
    generalize dependent rounding_margin. intros m Hm Hg. nra. }
  assert (Hstop' : stop = [] \/ (exists rest, stop = None :: rest) \/
            exists g rest, stop = Some g :: rest /\
              (start_freq * 0.05 < Qabs (g - start_freq))%Q).
  { destruct Hstop as [->|[(rest & ->)|(g & rest & -> & Hg)]];
      [left; reflexivity|right; left; eexists; reflexivity|].
    right. right. exists g, rest. split; [reflexivity|].
    generalize dependent (Qabs (g - start_freq)). intros a Hg.
    generalize dependent rounding_margin. intros m Hm Hg. nra. }
  clear Hrun Hstop.
  assert (Hlen : (1 <= length (map Some run ++ stop))%nat).
  { destruct (map Some run ++ stop); [congruence|simpl; lia]. }
  destruct (Z.leb_spec (Z.of_nat (length (pre ++ Some start_freq :: map Some run ++ stop)) - 1)
              (Z.of_nat (length pre))) as [H|H].
  - rewrite length_app in H. simpl in H. lia.
  - rewrite list_lookup_middle by reflexivity. cbv zeta.
    replace (drop (S (length pre)) (pre ++ Some start_freq :: map Some run ++ stop))
      with (map Some run ++ stop).
    + rewrite (count_stable_run _ _ run stop 1 Hrun' Hstop'). reflexivity.
    + rewrite (cons_middle (Some start_freq)), app_assoc.
      replace (S (length pre)) with (length (pre ++ [Some start_freq]))
        by (rewrite length_app; simpl; lia).
      rewrite drop_app_length. reflexivity.
Qed.

Lemma estimate_note_duration_of_run_witness :
  (float_range 440.0 /\
   Forall (fun g => (Qabs (g - 440.0) * (1 + rounding_margin) <= 440.0 * 0.05)%Q)
     [441.0; 430.0]%Q /\
   ([Some 500.0%Q] = [] \/ (exists rest, [Some 500.0%Q] = None :: rest) \/
    exists g rest, [Some 500.0%Q] = Some g :: rest /\
      (440.0 * 0.05 * (1 + rounding_margin) < Qabs (g - 440.0))%Q) /\
   map Some [441.0; 430.0]%Q ++ [Some 500.0%Q] <> []) /\
  _estimate_note_duration
    ([None] ++ Some 440.0%Q :: map Some [441.0; 430.0]%Q ++ [Some 500.0%Q])
    (length [@None Q]) 1024 16000 =
  py_max 0.25 (py_min (Segmenter.frames_to_time 3 16000 1024) 4.0).
Proof.
  assert (H0 : float_range 440.0)
    by (split; apply Qle_bool_iff; vm_compute; reflexivity).
  assert (H1 : Forall (fun g =>
                 (Qabs (g - 440.0) * (1 + rounding_margin) <= 440.0 * 0.05)%Q)
                 [441.0; 430.0]%Q).
  { repeat constructor; apply Qle_bool_iff; vm_compute; reflexivity. }
  assert (H2 : [Some 500.0%Q] = [] \/ (exists rest, [Some 500.0%Q] = None :: rest) \/
    exists g rest, [Some 500.0%Q] = Some g :: rest /\
      (440.0 * 0.05 * (1 + rounding_margin) < Qabs (g - 440.0))%Q).
  { right. right. exists 500.0%Q, []. split; [reflexivity|].
    apply Qlt_bool_iff. vm_compute. reflexivity. }
  assert (H3 : map Some [441.0; 430.0]%Q ++ [Some 500.0%Q] <> []) by discriminate.
  split; [split; [exact H0|split; [exact H1|split; [exact H2|exact H3]]]|].
  exact (estimate_note_duration_of_run [None] 440.0 [441.0; 430.0]%Q [Some 500.0%Q]
           1024 16000 H0 H1 H2 H3).
Defined.

(** ** The spectral mask of the separator *)

(** X16.  A frequency bin is left as it is when its frequency lies in
    [[fmin, fmax]] and outside the vocal band [[80, 300]] Hz, and is
    reduced to 10 % otherwise; the reduction to 5 % of line 154 is never
    applied, because a bin of the vocal band has already failed the
    combined mask. *)
Theorem bin_gain_is_one_or_a_tenth (fmin fmax freq : Q) :
  (bin_gain fmin fmax freq = 1%Q /\
   (fmin <= freq)%Q /\ (freq <= fmax)%Q /\
   ~ ((80 <= freq)%Q /\ (freq <= 300)%Q)) \/
  (bin_gain fmin fmax freq = 0.1%Q /\
   ((freq < fmin)%Q \/ (fmax < freq)%Q \/ ((80 <= freq)%Q /\ (freq <= 300)%Q))).
Proof.
  unfold bin_gain, vocal_fundamental_min, vocal_fundamental_max. cbv zeta.
  destruct (Qle_bool fmin freq) eqn:E1; cbn [andb negb].
  - destruct (Qle_bool freq fmax) eqn:E2; cbn [andb negb].
    + destruct (Qle_bool 80.0 freq) eqn:E3; cbn [andb negb].
      * destruct (Qle_bool freq 300.0) eqn:E4; cbn [andb negb].
        -- right. split; [reflexivity|]. right. right.
           apply Qle_bool_iff in E3, E4. split; lra.
        -- left. split; [reflexivity|].
           apply Qle_bool_iff in E1, E2. apply Qle_bool_false_iff in E4.
           repeat split; try assumption. intros [_ H]. lra.
      * left. split; [reflexivity|].
        apply Qle_bool_iff in E1, E2. apply Qle_bool_false_iff in E3.
        repeat split; try assumption. intros [H _]. lra.
    + right. split; [reflexivity|]. right. left.
      apply Qle_bool_false_iff in E2. exact E2.
  - right. split; [reflexivity|]. left.
    apply Qle_bool_false_iff in E1. exact E1.
Qed.

(** ** More on the exporter and the orchestrator *)

Section MoreExporterFacts.

Context (ex : externals).

Lemma musicxml_to_pdf_returns musicxml_path pdf_path musescore_path w w' b :
  musicxml_to_pdf ex musicxml_path pdf_path musescore_path w = (w', Ok b) ->
  b = true /\ exists size, files w' !! pdf_path = Some size /\ (0 < size)%N.
Proof.
  unfold musicxml_to_pdf, bind, try_except, os_path_exists, os_path_getsize, raise, ret.
  destruct (negb (bool_decide (is_Some (files w !! _)))); [discriminate|].
  destruct (negb (bool_decide (is_Some (files w !! musicxml_path)))); [discriminate|].
  destruct (subprocess_run ex _ w) as [w1 [stderr|e]].
  - case_bool_decide as Hex.
    + destruct (files w1 !! pdf_path) as [size|] eqn:E.
      * destruct (N.ltb_spec 0 size) as [Hs|Hs]; [|discriminate].
        intros [= <- <-]. split; [reflexivity|]. exists size. split; assumption.
      * discriminate.
    + discriminate.
  - destruct e; discriminate.
Qed.

Lemma cleanup_musicxml_returns p w :
  exists w', cleanup_musicxml p w = (w', Ok tt).
Proof.
  unfold cleanup_musicxml, try_except, bind, os_path_exists, os_remove, ret.
  case_bool_decide as Hex.
  - destruct Hex as [size E]. rewrite E.
    case_bool_decide as Hu; eexists; reflexivity.
  - exists w. reflexivity.
Qed.


Lemma notes_to_midi_events_unknown tempo notes n :
  In n notes -> 1 <= n_octave n <= 7 -> dict_get note_to_midi (n_name n) = None ->
  notes_to_midi_events tempo notes = None.
Proof.
  intros Hin Ho Hd. induction notes as [|x notes IH]; [contradiction|].
  cbn [notes_to_midi_events].
  destruct Hin as [->|Hin].
  - assert (E : note_events tempo n = None).
    { unfold note_events.
      destruct (Z.ltb_spec (n_octave n) 1); [lia|].
      destruct (Z.ltb_spec 7 (n_octave n)); [lia|].
      rewrite Hd. reflexivity. }
    rewrite E. reflexivity.
  - destruct (note_events tempo x); [|reflexivity].
    rewrite (IH Hin). reflexivity.
Qed.

End MoreExporterFacts.

(** X17.  [musicxml_to_pdf] returns only [True], and only when the PDF
    exists afterwards and is not empty.  When the MuseScore executable or
    the MusicXML file is missing it raises [FileNotFoundError] without
    starting MuseScore, and nothing has changed.  Every failure after
    that point, the timeout included, is raised as a plain
    [Exception]. *)
Theorem musicxml_to_pdf_outcomes (ex : externals)
  (musicxml_path pdf_path : string) (musescore_path : option string) (w : world) :
  let exe := match musescore_path with Some p => p | None => default_musescore_path end in
  (forall w' b,
     musicxml_to_pdf ex musicxml_path pdf_path musescore_path w = (w', Ok b) ->
     b = true /\ exists size, files w' !! pdf_path = Some size /\ (0 < size)%N) /\
  (files w !! exe = None \/ files w !! musicxml_path = None ->
   exists msg,
     musicxml_to_pdf ex musicxml_path pdf_path musescore_path w =
     (w, Raise (FileNotFoundError msg))) /\
  (forall w' e,
     is_Some (files w !! exe) -> is_Some (files w !! musicxml_path) ->
     musicxml_to_pdf ex musicxml_path pdf_path musescore_path w = (w', Raise e) ->
     exists msg, e = Exception msg).
Proof.
  intros exe. split; [|split].
  - intros w' b. apply musicxml_to_pdf_returns.
  - intros Hmiss.
    unfold musicxml_to_pdf, bind, os_path_exists, raise. fold exe.
    case_bool_decide as H1; cbn [negb].
    + case_bool_decide as H2; cbn [negb].
      * destruct Hmiss as [Hm|Hm]; rewrite Hm in *;
          [destruct H1 as [? ?]|destruct H2 as [? ?]]; discriminate.
      * eexists. reflexivity.
    + eexists. reflexivity.
  - intros w' e H1 H2.
    unfold musicxml_to_pdf, bind, try_except, os_path_exists, os_path_getsize, raise, ret.
    fold exe.
    rewrite (bool_decide_eq_true_2 _ H1). cbn [negb].
    rewrite (bool_decide_eq_true_2 _ H2). cbn [negb].
    destruct (subprocess_run ex _ w) as [w1 [stderr|e1]].
    + case_bool_decide as Hex.
      * destruct (files w1 !! pdf_path) as [size|] eqn:E.
        -- destruct (N.ltb_spec 0 size) as [Hs|Hs]; [discriminate|].
           intros [= <- <-]. eexists. reflexivity.
        -- intros [= <- <-]. eexists. reflexivity.
      * intros [= <- <-]. eexists. reflexivity.
    + destruct e1; intros [= <- <-]; eexists; reflexivity.
Qed.

(** X18.  [midi_to_pdf_workflow] returns only [True], and only after
    [musicxml_to_pdf] has returned with the PDF in place and not empty;
    what follows is the removal of the intermediate MusicXML file, whose
    failure is swallowed. *)
Theorem workflow_success_has_made_the_pdf (ex : externals)
  (midi_path pdf_path : string) (musescore_path : option string) (tempo : Z)
  (w w' : world) (b : bool) :
  midi_to_pdf_workflow ex midi_path pdf_path musescore_path tempo w = (w', Ok b) ->
  b = true /\
  exists w2 w3 size,
    musicxml_to_pdf ex (musicxml_path_for pdf_path) pdf_path musescore_path w2 =
      (w3, Ok true) /\
    files w3 !! pdf_path = Some size /\ (0 < size)%N /\
    cleanup_musicxml (musicxml_path_for pdf_path) w3 = (w', Ok tt).
Proof.
  unfold midi_to_pdf_workflow.
  destruct (MUSIC21_AVAILABLE ex); cbn [negb]; [|discriminate].
  unfold try_except, bind.
  destruct (music21_prepare ex midi_path tempo w) as [w1 [s|e]]; [|discriminate].
  destruct (music21_write_musicxml ex s (musicxml_path_for pdf_path) w1)
    as [w2 [[]|e]]; [|discriminate].
  destruct (musicxml_to_pdf ex (musicxml_path_for pdf_path) pdf_path musescore_path w2)
    as [w3 [b'|e]] eqn:Epdf; [|discriminate].
  destruct (musicxml_to_pdf_returns ex _ _ _ _ _ _ Epdf) as (-> & size & Hs & Hpos).
  destruct (cleanup_musicxml_returns (musicxml_path_for pdf_path) w3) as (w4 & Hc).
  rewrite Hc. unfold ret. intros [= <- <-]. split; [reflexivity|].
  exists w2, w3, size. repeat split; assumption.
Qed.

Lemma workflow_success_has_made_the_pdf_witness :
  midi_to_pdf_workflow studio_with_musescore "out/song_piano.mid"
    "out/song_sheet_music.pdf" None 120 studio_world =
  (World {[ default_musescore_path := 1%N; "out/song_sheet_music.pdf"%string := 1%N ]} ∅,
   Ok true) /\
  exists w2 w3 size,
    musicxml_to_pdf studio_with_musescore (musicxml_path_for "out/song_sheet_music.pdf")
      "out/song_sheet_music.pdf" None w2 = (w3, Ok true) /\
    files w3 !! "out/song_sheet_music.pdf"%string = Some size /\ (0 < size)%N /\
    cleanup_musicxml (musicxml_path_for "out/song_sheet_music.pdf") w3 =
      (World {[ default_musescore_path := 1%N;
                "out/song_sheet_music.pdf"%string := 1%N ]} ∅, Ok tt).
Proof.
  assert (H : midi_to_pdf_workflow studio_with_musescore "out/song_piano.mid"
     "out/song_sheet_music.pdf" None 120 studio_world =
   (World {[ default_musescore_path := 1%N; "out/song_sheet_music.pdf"%string := 1%N ]} ∅,
    Ok true)) by (vm_compute; reflexivity).
  split; [exact H|].
  exact (proj2 (workflow_success_has_made_the_pdf studio_with_musescore _ _ None 120
                  studio_world _ true H)).
Defined.



(** X20.  A note in the keyboard range whose name is not one of the
    twelve keys of [note_to_midi] makes [notes_to_midi] raise
    ["Error creating MIDI file"], wherever the note stands in the list,
    and nothing is written: the file is opened only after the loop. *)
Theorem unknown_note_name_writes_no_midi (ex : externals) (notes : list note)
  (output_path : string) (tempo : Z) (w : world) (n : note) :
  MIDIUTIL_AVAILABLE ex = true ->
  In n notes -> 1 <= n_octave n <= 7 ->
  dict_get note_to_midi (n_name n) = None ->
  notes_to_midi ex notes output_path tempo w =
    (w, Raise (Exception "Error creating MIDI file")).
Proof.
  intros Hav Hin Ho Hd. unfold notes_to_midi. rewrite Hav. cbn [negb].
  rewrite (notes_to_midi_events_unknown tempo notes n Hin Ho Hd).
  destruct (addTempo tempo); reflexivity.
Qed.

Lemma unknown_note_name_writes_no_midi_witness :
  (MIDIUTIL_AVAILABLE studio = true /\
   In (Note 1.0 "Db" 4 277.18 0.5) [Note 0.0 "C" 4 261.63 0.5; Note 1.0 "Db" 4 277.18 0.5] /\
   1 <= 4 <= 7 /\ dict_get note_to_midi "Db" = None) /\
  notes_to_midi studio [Note 0.0 "C" 4 261.63 0.5; Note 1.0 "Db" 4 277.18 0.5]
    "out/song_piano.mid" 120 studio_world =
  (studio_world, Raise (Exception "Error creating MIDI file")).
Proof.
  assert (H1 : MIDIUTIL_AVAILABLE studio = true) by reflexivity.
  assert (H2 : In (Note 1.0 "Db" 4 277.18 0.5)
                 [Note 0.0 "C" 4 261.63 0.5; Note 1.0 "Db" 4 277.18 0.5])
    by (right; left; reflexivity).
  assert (H3 : 1 <= 4 <= 7) by lia.
  assert (H4 : dict_get note_to_midi "Db" = None) by reflexivity.
  split; [repeat split; try assumption; lia|].
  exact (unknown_note_name_writes_no_midi studio _ "out/song_piano.mid" 120 studio_world
           (Note 1.0 "Db" 4 277.18 0.5) H1 H2 H3 H4).
Defined.

(** X21.  When the pitch track of the separated audio has no voiced frame
    between 60 and 2000 Hz, the orchestrator raises
    ["No notes extracted from audio"] right after writing the piano
    audio: no MIDI file, score or preview is attempted. *)
Theorem pipeline_stops_without_notes (ex : externals)
  (audio_path output_dir : string) (tempo : Z) (max_duration : option Q)
  (w0 w1 w2 w3 : world) (piano_audio : list Q) (sr : positive) :
  let base_name := fst (Path.splitext (Path.basename audio_path)) in
  os_makedirs ex output_dir w0 = (w1, Ok tt) ->
  Pipeline.extract_piano_from_audio ex audio_path max_duration w1 =
    (w2, Ok (piano_audio, sr)) ->
  sf_write ex (Path.join output_dir (base_name ++ "_piano.wav")) piano_audio sr w2 =
    (w3, Ok tt) ->
  Forall (fun fr => valid_frame (py_max 27.5 60.0) (py_min 4186.0 2000.0) fr = false)
    (librosa_pyin ex piano_audio sr) ->
  process_audio_to_piano_sheet ex audio_path output_dir tempo max_duration w0 =
    (w3, Raise (Exception "No notes extracted from audio. Please check the audio file.")).
Proof.
  intros base_name H1 H2 H3 Hf.
  unfold process_audio_to_piano_sheet. unfold bind at 1. rewrite H1.
  unfold bind at 1. rewrite H2. unfold bind at 1.
  fold base_name. rewrite H3.
  rewrite extract_notes_unfold.
  rewrite (segmented_notes_no_valid_frame _ sr 1024 27.5 4186.0 Hf).
  reflexivity.
Qed.

Lemma pipeline_stops_without_notes_witness :
  let r := process_audio_to_piano_sheet studio_silent "song.mp3" "out" 120
             (Some 60.0%Q) studio_world in
  snd r = Raise (Exception "No notes extracted from audio. Please check the audio file.") /\
  files (fst r) !! "out/song_piano.wav" = Some 1%N /\
  files (fst r) !! "out/song_piano.mid" = None.
Proof.
  pose (ex := studio_silent).
  pose (w1 := fst (os_makedirs ex "out" studio_world)).
  pose (w2 := fst (Pipeline.extract_piano_from_audio ex "song.mp3" (Some 60.0%Q) w1)).
  pose (w3 := fst (sf_write ex "out/song_piano.wav" [0.0; 0.0]%Q 16000 w2)).
  assert (E : process_audio_to_piano_sheet studio_silent "song.mp3" "out" 120
                (Some 60.0%Q) studio_world =
              (w3, Raise (Exception
                 "No notes extracted from audio. Please check the audio file."))).
  { apply (pipeline_stops_without_notes ex "song.mp3" "out" 120 (Some 60.0%Q)
             studio_world w1 w2 w3 [0.0; 0.0]%Q 16000).
    - vm_compute. reflexivity.
    - vm_compute. reflexivity.
    - vm_compute. reflexivity.
    - repeat constructor. }
  cbv zeta. rewrite E. cbn [fst snd].
  split; [reflexivity|]. split; vm_compute; reflexivity.
Defined.

(** X22.  The tool of [music_tools.py] never raises, and its answer is
    decided as follows.  When the extractor was not built or the audio
    file does not exist, it answers with an error, nothing is started and
    nothing has changed.  Otherwise it makes the temporary directory and
    runs the orchestrator there: the manifest the orchestrator returns
    is the answer, and an exception of either call is answered with an
    error.  So a manifest is answered exactly when the orchestrator
    returned it. *)
Theorem piano_tool_never_raises (ex : externals) (piano_extractor_ready : bool)
  (tempfile_mkdtemp : string -> M string)
  (audio_path : string) (tempo : Z) (max_duration : option Q) (w : world) :
  exists w' reply,
    MusicTools.extract_piano_from_audio ex piano_extractor_ready tempfile_mkdtemp
      audio_path tempo max_duration w = (w', Ok reply) /\
    (piano_extractor_ready = false \/ files w !! audio_path = None ->
     w' = w /\ exists error, reply = MusicTools.ToolError error) /\
    (piano_extractor_ready = true -> is_Some (files w !! audio_path) ->
     (forall w1 output_dir w2 results,
        tempfile_mkdtemp "piano_extraction_" w = (w1, Ok output_dir) ->
        process_audio_to_piano_sheet ex audio_path output_dir tempo max_duration w1 =
          (w2, Ok results) ->
        w' = w2 /\ reply = MusicTools.ToolResults results) /\
     (forall w1 output_dir w2 e,
        tempfile_mkdtemp "piano_extraction_" w = (w1, Ok output_dir) ->
        process_audio_to_piano_sheet ex audio_path output_dir tempo max_duration w1 =
          (w2, Raise e) ->
        w' = w2 /\ exists error, reply = MusicTools.ToolError error) /\
     (forall w1 e,
        tempfile_mkdtemp "piano_extraction_" w = (w1, Raise e) ->
        w' = w1 /\ exists error, reply = MusicTools.ToolError error)) /\
    (forall results,
       reply = MusicTools.ToolResults results ->
       exists w1 output_dir,
         tempfile_mkdtemp "piano_extraction_" w = (w1, Ok output_dir) /\
         process_audio_to_piano_sheet ex audio_path output_dir tempo max_duration w1 =
           (w', Ok results)).
Proof.
  unfold MusicTools.extract_piano_from_audio.
  destruct piano_extractor_ready; cbn [negb].
  - unfold bind at 1. unfold os_path_exists.
    case_bool_decide as Hex; cbn [negb].
    + assert (Hno : true = false \/ files w !! audio_path = None -> False).
      { intros [H|H]; [discriminate|].
        rewrite H in Hex. destruct Hex as [? ?]. discriminate. }
      unfold try_except, bind, ret.
      destruct (tempfile_mkdtemp "piano_extraction_" w) as [w1 [output_dir|e]].
      * destruct (process_audio_to_piano_sheet ex audio_path output_dir tempo max_duration w1)
          as [w2 [results|e]] eqn:E.
        -- exists w2, (MusicTools.ToolResults results). split; [reflexivity|].
           split; [intros H; destruct (Hno H)|]. split.
           ++ intros _ _. split; [|split].
              ** intros w1' d' w2' r' [= <- <-] E'. rewrite E in E'.
                 injection E' as <- <-. split; reflexivity.
              ** intros w1' d' w2' e' [= <- <-] E'. rewrite E in E'. discriminate.
              ** intros w1' e' [=].
           ++ intros r [= <-]. exists w1, output_dir. split; [reflexivity|exact E].
        -- eexists _, _. split; [reflexivity|].
           split; [intros H; destruct (Hno H)|]. split.
           ++ intros _ _. split; [|split].
              ** intros w1' d' w2' r' [= <- <-] E'. rewrite E in E'. discriminate.
              ** intros w1' d' w2' e' [= <- <-] E'. rewrite E in E'.
                 injection E' as <- _. split; [reflexivity|]. eexists. reflexivity.
              ** intros w1' e' [=].
           ++ intros r Hr. discriminate.
      * eexists _, _. split; [reflexivity|].
        split; [intros H; destruct (Hno H)|]. split.
        -- intros _ _. split; [|split].
           ++ intros w1' d' w2' r' [=].
           ++ intros w1' d' w2' e' [=].
           ++ intros w1' e' [= <- _]. split; [reflexivity|]. eexists. reflexivity.
        -- intros r Hr. discriminate.
    + eexists _, _. split; [reflexivity|]. split; [|split].
      * intros _. split; [reflexivity|]. eexists. reflexivity.
      * intros _ H. contradiction.
      * intros r Hr. discriminate.
  - eexists _, _. split; [reflexivity|]. split; [|split].
    + intros _. split; [reflexivity|]. eexists. reflexivity.
    + intros H. discriminate.
    + intros r Hr. discriminate.
Qed.

(** ** The page of the simple text renderer *)

Import SimpleSheet.

Lemma note_lines_app a b : note_lines (a ++ b) = note_lines a ++ note_lines b.
Proof. unfold note_lines. apply flat_map_app. Qed.

Lemma draw_notes_parts x ns y ops :
  map snd (note_lines (snd (fold_left (draw_note x) ns (y, ops)))) =
  map snd (note_lines ops) ++ map (fun n => (n_name n, n_octave n, n_duration n)) ns.
Proof.
  revert y ops. induction ns as [|n ns IH]; intros y ops; cbn [fold_left map].
  - rewrite app_nil_r. reflexivity.
  - unfold draw_note at 2. rewrite IH, note_lines_app, map_app, <- app_assoc.
    reflexivity.
Qed.

Lemma draw_measure_parts title measures y ops m :
  map snd (note_lines (snd (draw_measure title measures (y, ops) m))) =
  map snd (note_lines ops) ++
  map (fun n => (n_name n, n_octave n, n_duration n)) (dict_lookup m measures).
Proof.
  unfold draw_measure.
  destruct (Qlt_bool y margin); rewrite draw_notes_parts; [|reflexivity].
  rewrite note_lines_app, map_app. cbn [note_lines flat_map app map].
  rewrite app_nil_r. reflexivity.
Qed.

Lemma draw_measures_parts title measures keys st :
  map snd (note_lines (snd (fold_left (draw_measure title measures) keys st))) =
  map snd (note_lines (snd st)) ++
  flat_map (fun m => map (fun n => (n_name n, n_octave n, n_duration n))
                       (dict_lookup m measures)) keys.
Proof.
  revert st. induction keys as [|m keys IH]; intros [y ops]; cbn [fold_left flat_map].
  - rewrite app_nil_r. reflexivity.
  - rewrite IH. destruct (draw_measure title measures (y, ops) m) as [y' ops'] eqn:E.
    pose proof (draw_measure_parts title measures y ops m) as H. rewrite E in H.
    cbn [snd] in *. rewrite H, <- app_assoc. reflexivity.
Qed.

Lemma insert_key_perm k keys : Permutation (insert_key k keys) (k :: keys).
Proof.
  induction keys as [|k' keys IH]; cbn [insert_key]; [reflexivity|].
  destruct (k <? k'); [reflexivity|].
  rewrite IH. apply perm_swap.
Qed.

Lemma sorted_keys_perm measures : Permutation (sorted_keys measures) (map fst measures).
Proof.
  unfold sorted_keys.
  assert (G : forall l acc,
             Permutation (fold_left (fun acc k => insert_key k acc) l acc) (l ++ acc)).
  { induction l as [|k l IH]; intros acc; cbn [fold_left app]; [reflexivity|].
    rewrite IH, insert_key_perm. symmetry. apply Permutation_middle. }
  rewrite G, app_nil_r. reflexivity.
Qed.

(** The buckets of a dictionary hold, together, what was appended, and
    no key occurs twice. *)
Lemma dict_append_keys k n d :
  List.NoDup (map fst d) -> List.NoDup (map fst (dict_append k n d)) /\
  (forall k', In k' (map fst (dict_append k n d)) <-> k' = k \/ In k' (map fst d)).
Proof.
  induction d as [|[k0 v0] d IH]; intros Hnd; cbn [dict_append map fst].
  - split; [apply List.NoDup_cons; [intros H; exact H|apply List.NoDup_nil]|].
    intros k'. cbn. intuition.
  - apply List.NoDup_cons_iff in Hnd as [Hk0 Hnd].
    destruct (Z.eqb_spec k0 k) as [->|Hne]; cbn [map fst].
    + split; [apply List.NoDup_cons; assumption|]. intros k'. cbn. intuition.
    + destruct (IH Hnd) as [IH1 IH2]. split.
      * apply List.NoDup_cons; [|exact IH1].
        rewrite IH2. intros [->|H]; [congruence|contradiction].
      * intros k'. cbn. rewrite IH2. intuition.
Qed.

Lemma dict_append_values k n d :
  Permutation (flat_map snd (dict_append k n d)) (n :: flat_map snd d).
Proof.
  induction d as [|[k0 v0] d IH]; cbn [dict_append flat_map snd]; [reflexivity|].
  destruct (k0 =? k); cbn [flat_map snd].
  - rewrite <- app_assoc. cbn [app].
    symmetry. rewrite app_comm_cons. apply Permutation_sym.
    rewrite <- Permutation_middle. reflexivity.
  - rewrite IH. rewrite <- Permutation_middle. reflexivity.
Qed.

Lemma group_measures_spec notes :
  List.NoDup (map fst (group_measures notes)) /\
  Permutation (flat_map snd (group_measures notes)) notes.
Proof.
  unfold group_measures.
  assert (G : forall l d,
             List.NoDup (map fst d) ->
             List.NoDup (map fst (fold_left (fun measures n =>
                      dict_append (measure_of (n_time n)) n measures) l d)) /\
             Permutation (flat_map snd (fold_left (fun measures n =>
                      dict_append (measure_of (n_time n)) n measures) l d))
               (flat_map snd d ++ l)).
  { induction l as [|n l IH]; intros d Hd; cbn [fold_left].
    - rewrite app_nil_r. split; [exact Hd|reflexivity].
    - destruct (dict_append_keys (measure_of (n_time n)) n d Hd) as [Hnd _].
      destruct (IH _ Hnd) as [H1 H2]. split; [exact H1|].
      rewrite H2, dict_append_values. cbn [app].
      apply Permutation_middle. }
  destruct (G notes [] (List.NoDup_nil _)) as [H1 H2]. split; [exact H1|exact H2].
Qed.

Lemma dict_lookup_keys d :
  List.NoDup (map fst d) ->
  flat_map (fun m => dict_lookup m d) (map fst d) = flat_map snd d.
Proof.
  induction d as [|[k v] d IH]; intros Hnd; cbn [map fst flat_map snd dict_lookup];
    [reflexivity|].
  apply List.NoDup_cons_iff in Hnd as [Hk Hnd].
  rewrite Z.eqb_refl. f_equal.
  rewrite <- (IH Hnd). rewrite !flat_map_concat_map. f_equal. apply map_ext_in.
  intros m Hm. destruct (Z.eqb_spec k m) as [->|Hne]; [contradiction|reflexivity].
Qed.

Lemma flat_map_map_out {A B C} (f : A -> list B) (g : B -> C) (l : list A) :
  flat_map (fun a => map g (f a)) l = map g (flat_map f l).
Proof.
  induction l as [|a l IH]; cbn [flat_map]; [reflexivity|].
  rewrite map_app, IH. reflexivity.
Qed.

(** X24.  The simple text renderer prints every note exactly once: the
    note lines drawn on the canvas are, up to their order, the names,
    octaves and durations of the notes it was given. *)
Theorem simple_sheet_prints_every_note_once (notes : list note) (title : string) :
  Permutation (map snd (note_lines (draw_simple_sheet notes title)))
              (map (fun n => (n_name n, n_octave n, n_duration n)) notes).
Proof.
  unfold draw_simple_sheet. cbv zeta.
  match goal with
  | |- context [fold_left (draw_measure title ?d) ?ks ?st] =>
      pose proof (draw_measures_parts title d ks st) as H;
      destruct (fold_left (draw_measure title d) ks st) as [y ops]
  end.
  cbn [snd] in H.
  rewrite note_lines_app, map_app, H.
  cbn [note_lines flat_map app map]. rewrite app_nil_r.
  destruct (group_measures_spec notes) as [Hnd Hperm].
  rewrite (Permutation_flat_map _ (sorted_keys_perm (group_measures notes))).
  rewrite flat_map_map_out, (dict_lookup_keys _ Hnd).
  apply Permutation_map. exact Hperm.
Qed.

Lemma draw_notes_columns (P : Q -> Prop) x ns y ops :
  P x ->
  Forall (fun l => P (fst (fst l))) (note_lines ops) ->
  Forall (fun l => P (fst (fst l))) (note_lines (snd (fold_left (draw_note x) ns (y, ops)))).
Proof.
  intros Hx. revert y ops. induction ns as [|n ns IH]; intros y ops H; cbn [fold_left];
    [exact H|].
  unfold draw_note at 2. apply IH.
  rewrite note_lines_app. apply Forall_app. split; [exact H|].
  cbn [note_lines flat_map app]. constructor; [exact Hx|constructor].
Qed.

Lemma draw_measures_columns (P : Q -> Prop) title measures keys st :
  (forall k, 0 <= k <= 3 -> P (margin + inject_Z (k * 2) * inch)%Q) ->
  Forall (fun l => P (fst (fst l))) (note_lines (snd st)) ->
  Forall (fun l => P (fst (fst l)))
    (note_lines (snd (fold_left (draw_measure title measures) keys st))).
Proof.
  intros HP. revert st. induction keys as [|m keys IH]; intros [y ops] H; cbn [fold_left];
    [exact H|].
  apply IH. unfold draw_measure.
  assert (Hm : 0 <= m mod 4 <= 3) by (pose proof (Z.mod_pos_bound m 4); lia).
  destruct (Qlt_bool y margin); apply draw_notes_columns; try (apply HP; exact Hm).
  - rewrite note_lines_app. apply Forall_app. split; [exact H|].
    cbn [note_lines flat_map app]. constructor.
  - exact H.
Qed.

(** X25.  Every note line of the simple text renderer starts in one of
    four columns, two inches apart from the left margin: its abscissa is
    [margin + 2 * k * inch] for the measure number modulo 4, also for
    negative measure numbers, hence between 54 and 486 points on a page
    that is 612 points wide. *)
Theorem simple_sheet_columns (notes : list note) (title : string) :
  Forall (fun l =>
            let x := fst (fst l) in
            (exists k, 0 <= k <= 3 /\ x = (margin + inject_Z (k * 2) * inch)%Q) /\
            (54 <= x)%Q /\ (x <= 486)%Q /\ (x < width - margin)%Q)
    (note_lines (draw_simple_sheet notes title)).
Proof.
  unfold draw_simple_sheet. cbv zeta.
  match goal with
  | |- context [fold_left (draw_measure title ?d) ?ks ?st] =>
      pose proof (draw_measures_columns
                    (fun x =>
                       (exists k, 0 <= k <= 3 /\ x = (margin + inject_Z (k * 2) * inch)%Q) /\
                       (54 <= x)%Q /\ (x <= 486)%Q /\ (x < width - margin)%Q)
                    title d ks st) as H;
      destruct (fold_left (draw_measure title d) ks st) as [y ops]
  end.
  cbn [snd] in H.
  rewrite note_lines_app. apply Forall_app. split.
  - apply H.
    + intros k Hk. split; [exists k; split; [exact Hk|reflexivity]|].
      assert (C : k = 0 \/ k = 1 \/ k = 2 \/ k = 3) by lia.
      destruct C as [-> | [-> | [-> | ->]]];
        (split; [apply Qle_bool_iff; vm_compute; reflexivity|
         split; [apply Qle_bool_iff; vm_compute; reflexivity|
                 apply Qlt_bool_iff; vm_compute; reflexivity]]).
    + cbn [note_lines flat_map app map]. constructor.
  - cbn [note_lines flat_map app]. constructor.
Qed.
